(** * procmanage: a shallow embedding of procmanage.c and its properties

    procmanage creates a child process from a path, an argument list and
    an environment list, connects its standard streams to pipes, and
    closes and frees it.  The repository holds two revisions of
    procmanage.c.  The revision with the internal helpers
    [_process_array_count], [_process_array_clear], [_process_array_push]
    and [_process_string_copy] is the current one and is embedded in the
    main part of this file; the earlier revision, which inlines these
    loops, is embedded in [Module Earlier].

    The C program works on a heap of malloc'ed blocks and talks to the
    kernel.  Both are explicit here:
    - the heap is a finite map from block addresses to blocks (a char
      buffer, an array of pointer slots, or a [struct Process]);
    - every system call is appended to a trace, and the answers of the
      kernel that the code looks at (pipe, fork, execve) are given by a
      [kernel] record, a function of the calls made so far;
    - a C function is a function [state -> outcome]: it returns, or the
      process is gone (execve, _exit), or the behaviour is undefined
      (a null or dangling pointer is dereferenced, a block is freed twice,
      a slot is read before it is written).

    Conventions.  The [int] and [pid_t] members hold descriptors and
    process identifiers, which the code only stores and compares; they are
    integers in [Z].  [int] counters are natural numbers (a string list
    would need [INT_MAX] entries to overflow one).  Allocation never fails,
    as the code assumes; [malloc] returns an address that no live block
    has, and [realloc] of a live block resizes it where it is.  The loops
    over a caller's array take fuel, since the array is read again at each
    round. *)

From Stdlib Require Import ZArith List Lia.
From Stdlib.Strings Require Import Byte.
From stdpp Require Import base option list gmap strings.

Local Open Scope Z_scope.

(** ** Memory *)

Definition loc := positive.

(** A pointer is [NULL] or the address of a block. *)
Definition ptr := option loc.
Abbreviation NULL := (@None loc).

(** One slot of a [char*[]]: not yet written, or holding a pointer. *)
Inductive cell :=
| Uninit
| Ptr (p : ptr).

(** [struct Process] of procmanage.h; [in] is a keyword, hence [in_]. *)
Record Process := mkProcess {
  path : ptr;
  argv : ptr;
  envp : ptr;
  in_  : Z;
  out  : Z;
  err  : Z;
  pid  : Z
}.

Inductive object :=
| Bytes (bs : list byte)
| Slots (cs : list cell)
| Struct (P : Process).

(** The pointer-valued members of the struct. *)
Inductive field := f_path | f_argv | f_envp.

Definition get_field (f : field) (P : Process) : ptr :=
  match f with
  | f_path => path P
  | f_argv => argv P
  | f_envp => envp P
  end.

Definition set_field (f : field) (v : ptr) (P : Process) : Process :=
  match f with
  | f_path => mkProcess v (argv P) (envp P) (in_ P) (out P) (err P) (pid P)
  | f_argv => mkProcess (path P) v (envp P) (in_ P) (out P) (err P) (pid P)
  | f_envp => mkProcess (path P) (argv P) v (in_ P) (out P) (err P) (pid P)
  end.

Definition set_in (v : Z) (P : Process) : Process :=
  mkProcess (path P) (argv P) (envp P) v (out P) (err P) (pid P).
Definition set_out (v : Z) (P : Process) : Process :=
  mkProcess (path P) (argv P) (envp P) (in_ P) v (err P) (pid P).
Definition set_err (v : Z) (P : Process) : Process :=
  mkProcess (path P) (argv P) (envp P) (in_ P) (out P) v (pid P).
Definition set_pid (v : Z) (P : Process) : Process :=
  mkProcess (path P) (argv P) (envp P) (in_ P) (out P) (err P) v.

(** An lvalue that holds a pointer: [&p->f] or [&a[i]].  The base pointer
    may be null; only a dereference of the place faults then. *)
Inductive place :=
| Field (p : ptr) (f : field)
| Cell (a : ptr) (i : nat).

(** ** System calls *)

(** The constants of the system headers that the code passes on. *)
Definition SIGKILL : Z := 9.
Definition WNOHANG : Z := 1.
Definition STDIN_FILENO : Z := 0.
Definition STDOUT_FILENO : Z := 1.
Definition STDERR_FILENO : Z := 2.

Inductive syscall :=
| sys_pipe (r : option (Z * Z))
| sys_fork (r : Z)
| sys_close (fd : Z)
| sys_dup2 (oldfd newfd : Z)
| sys_setsid
| sys_execve (pathname : ptr) (args : ptr) (env : ptr) (replaced : bool)
| sys_exit (status : Z)
| sys_kill (p : Z) (sig : Z)
| sys_waitpid (p : Z) (options : Z).

(** What the kernel answers, given the calls made so far.  [k_pipe] is the
    descriptor pair of a successful [pipe], [k_fork] is [-1], [0] (we are
    the child) or the child's identifier, [k_execve] tells whether the image
    is replaced. *)
Record kernel := mkKernel {
  k_pipe : list syscall -> option (Z * Z);
  k_fork : list syscall -> Z;
  k_execve : list syscall -> bool
}.

(** ** The state and the monad of C functions *)

Record state := mkState {
  heap : gmap loc object;
  trace : list syscall
}.

Inductive outcome (A : Type) :=
| Ret (a : A) (s : state)   (* the call returns [a] *)
| Halt (s : state)          (* the process is gone: execve or _exit *)
| Fault                     (* undefined behaviour *)
| OutOfFuel.                  (* a loop ran out of fuel *)
Arguments Ret {A} a s.
Arguments Halt {A} s.
Arguments Fault {A}.
Arguments OutOfFuel {A}.

Definition M (A : Type) := state -> outcome A.

Definition ret {A} (a : A) : M A := fun s => Ret a s.

Definition bind {A B} (m : M A) (f : A -> M B) : M B :=
  fun s =>
    match m s with
    | Ret a s' => f a s'
    | Halt s' => Halt s'
    | Fault => Fault
    | OutOfFuel => OutOfFuel
    end.

Definition fault {A} : M A := fun _ => Fault.
Definition timeout {A} : M A := fun _ => OutOfFuel.

Declare Scope c_scope.
Delimit Scope c_scope with C.
Notation "x <- m ; k" := (bind m (fun x => k))
  (at level 100, m at next level, right associativity) : c_scope.
Notation "m ;; k" := (bind m (fun _ => k))
  (at level 100, right associativity) : c_scope.
Local Open Scope c_scope.

(** [if (c) { body }] *)
Definition when (c : bool) (body : M unit) : M unit :=
  if c then body else ret tt.

(** [for (int i = lo; i < lo + n; i++) body(i)] *)
Fixpoint for_range (lo n : nat) (body : nat -> M unit) : M unit :=
  match n with
  | O => ret tt
  | S n' => body lo ;; for_range (S lo) n' body
  end.

(** *** Heap primitives *)

Definition set_heap (h : gmap loc object) (s : state) : state :=
  mkState h (trace s).

Definition read (p : ptr) : M object :=
  fun s =>
    match p with
    | None => Fault
    | Some l => match heap s !! l with
                | Some o => Ret o s
                | None => Fault
                end
    end.

Definition write (p : ptr) (o : object) : M unit :=
  fun s =>
    match p with
    | None => Fault
    | Some l => match heap s !! l with
                | Some _ => Ret tt (set_heap (<[l := o]> (heap s)) s)
                | None => Fault
                end
    end.

Definition alloc (o : object) : M ptr :=
  fun s =>
    let l := fresh (dom (heap s)) in
    Ret (Some l) (set_heap (<[l := o]> (heap s)) s).

(** [free(p)]: nothing for a null pointer, undefined for a pointer that is
    not the address of a live block. *)
Definition free (p : ptr) : M unit :=
  fun s =>
    match p with
    | None => Ret tt s
    | Some l => match heap s !! l with
                | Some _ => Ret tt (set_heap (delete l (heap s)) s)
                | None => Fault
                end
    end.

Definition read_struct (p : ptr) : M Process :=
  o <- read p; match o with Struct P => ret P | _ => fault end.

Definition read_slots (a : ptr) : M (list cell) :=
  o <- read a; match o with Slots cs => ret cs | _ => fault end.

Definition read_bytes (b : ptr) : M (list byte) :=
  o <- read b; match o with Bytes bs => ret bs | _ => fault end.

(** Reading and writing an lvalue. *)
Definition load (pl : place) : M ptr :=
  match pl with
  | Field p f => P <- read_struct p; ret (get_field f P)
  | Cell a i =>
      cs <- read_slots a;
      match cs !! i with
      | Some (Ptr v) => ret v
      | _ => fault
      end
  end.

Definition store (pl : place) (v : ptr) : M unit :=
  match pl with
  | Field p f => P <- read_struct p; write p (Struct (set_field f v P))
  | Cell a i =>
      cs <- read_slots a;
      if decide (i < length cs)%nat
      then write a (Slots (<[i := Ptr v]> cs))
      else fault
  end.

(** A [char**] or [char***] argument is null or the address of a place. *)
Definition load_at (d : option place) : M ptr :=
  match d with Some pl => load pl | None => fault end.
Definition store_at (d : option place) (v : ptr) : M unit :=
  match d with Some pl => store pl v | None => fault end.

(** [realloc(a, n * sizeof(char* ))]: a new block of [n] slots for a null
    pointer; otherwise the block is resized where it is, keeping the slots
    that fit.  New slots are not initialised. *)
Definition resize (n : nat) (cs : list cell) : list cell :=
  take n cs ++ replicate (n - length cs) Uninit.

Definition realloc (a : ptr) (n : nat) : M ptr :=
  match a with
  | None => alloc (Slots (replicate n Uninit))
  | Some _ => cs <- read_slots a; write a (Slots (resize n cs));; ret a
  end.

(** [calloc(n, sizeof(char))]: [n] zero bytes. *)
Definition calloc (n : nat) : M ptr := alloc (Bytes (replicate n x00)).

(** [strlen]: the index of the first NUL; running off the buffer is
    undefined. *)
Fixpoint cstrlen (bs : list byte) : option nat :=
  match bs with
  | [] => None
  | x00 :: _ => Some O
  | _ :: bs' => S <$> cstrlen bs'
  end.

Definition strlen (b : ptr) : M nat :=
  bs <- read_bytes b;
  match cstrlen bs with Some n => ret n | None => fault end.

(** [memcpy(dest, src, n)] between two distinct buffers. *)
Definition memcpy (dest src : ptr) (n : nat) : M unit :=
  d <- read_bytes dest;
  sb <- read_bytes src;
  if decide (n <= length d /\ n <= length sb)%nat
  then write dest (Bytes (take n sb ++ drop n d))
  else fault.

Definition read_int (get : Process -> Z) (p : ptr) : M Z :=
  P <- read_struct p; ret (get P).
Definition write_int (set : Z -> Process -> Process) (p : ptr) (v : Z)
  : M unit :=
  P <- read_struct p; write p (Struct (set v P)).

(** *** Kernel primitives *)

Definition emit (e : syscall) (s : state) : state :=
  mkState (heap s) (trace s ++ [e]).

Section WithKernel.
Variable K : kernel.

(** [int fds[2]; pipe(fds)]: the array is written only when the call
    succeeds, so its contents are [None] after a failure. *)
Definition pipe : M (option (Z * Z)) :=
  fun s => let r := k_pipe K (trace s) in Ret r (emit (sys_pipe r) s).

Definition fork : M Z :=
  fun s => let r := k_fork K (trace s) in Ret r (emit (sys_fork r) s).

Definition close (fd : Z) : M unit := fun s => Ret tt (emit (sys_close fd) s).
Definition dup2 (o n : Z) : M unit := fun s => Ret tt (emit (sys_dup2 o n) s).
Definition setsid : M unit := fun s => Ret tt (emit sys_setsid s).
Definition kill (p sig : Z) : M unit :=
  fun s => Ret tt (emit (sys_kill p sig) s).
Definition waitpid (p options : Z) : M unit :=
  fun s => Ret tt (emit (sys_waitpid p options) s).

(** [execve] returns only when it fails. *)
Definition execve (pa av ev : ptr) : M unit :=
  fun s =>
    let ok := k_execve K (trace s) in
    let s' := emit (sys_execve pa av ev ok) s in
    if ok then Halt s' else Ret tt s'.

Definition _exit (status : Z) : M unit :=
  fun s => Halt (emit (sys_exit status) s).

(** Element [i] of a local [int fds[2]]. *)
Definition fd_at (fds : option (Z * Z)) (i : nat) : M Z :=
  match fds, i with
  | Some (r, _), O => ret r
  | Some (_, w), S O => ret w
  | _, _ => fault
  end.

(** ** procmanage.c, current revision *)

(** The loop of [_process_array_count] over the slots of the array. *)
Fixpoint scan (cs : list cell) : option nat :=
  match cs with
  | Ptr (Some _) :: cs' => S <$> scan cs'
  | Ptr None :: _ => Some O
  | _ => None
  end.

Definition _process_array_count (arr : ptr) : M nat :=
  match arr with
  | None => ret O
  | Some _ =>
      cs <- read_slots arr;
      match scan cs with Some n => ret n | None => fault end
  end.

Definition _process_array_clear (arr : option place) : M unit :=
  match arr with
  | None => ret tt
  | Some pl =>
      a <- load pl;
      count <- _process_array_count a;
      for_range 0 count (fun i =>
        a <- load pl;
        x <- load (Cell a i);
        free x;;
        a <- load pl;
        store (Cell a i) NULL);;
      a <- load pl;
      free a;;
      store pl NULL
  end.

Definition _process_string_copy (dest : option place) (src : ptr) : M unit :=
  n <- strlen src;
  b <- calloc (n + 1);
  store_at dest b;;
  n <- strlen src;
  d <- load_at dest;
  memcpy d src n.

Definition _process_array_push (arr : option place) (item : ptr) : M unit :=
  a <- load_at arr;
  arrc <- _process_array_count a;
  a <- load_at arr;
  a' <- realloc a (arrc + 2);
  store_at arr a';;
  a <- load_at arr;
  _process_string_copy (Some (Cell a arrc)) item;;
  a <- load_at arr;
  store (Cell a (arrc + 1)) NULL.

Definition process_add_arg (p : ptr) (arg : ptr) : M unit :=
  _process_array_push (Some (Field p f_argv)) arg.

Definition process_add_env (p : ptr) (env : ptr) : M unit :=
  _process_array_push (Some (Field p f_envp)) env.

(** [for (int i = 0; args != NULL && args[i] != NULL; i++) add(p, args[i])],
    started at index [i]. *)
Fixpoint add_loop (add : ptr -> ptr -> M unit) (fuel : nat)
    (p : ptr) (args : ptr) (i : nat) : M unit :=
  match fuel with
  | O => timeout
  | S fuel' =>
      match args with
      | None => ret tt
      | Some _ =>
          x <- load (Cell args i);
          match x with
          | None => ret tt
          | Some _ =>
              x <- load (Cell args i);
              add p x;;
              add_loop add fuel' p args (S i)
          end
      end
  end.

Definition process_add_args (fuel : nat) (p : ptr) (args : ptr) : M unit :=
  add_loop process_add_arg fuel p args 0.

Definition process_add_envs (fuel : nat) (p : ptr) (envs : ptr) : M unit :=
  add_loop process_add_env fuel p envs 0.

Definition process_clear_argv (p : ptr) : M unit :=
  _process_array_clear (Some (Field p f_argv));;
  store (Field p f_argv) NULL.

Definition process_clear_envp (p : ptr) : M unit :=
  _process_array_clear (Some (Field p f_envp));;
  store (Field p f_envp) NULL.

Definition process_close (p : ptr) : M unit :=
  fd <- read_int in_ p;
  when (negb (fd =? -1)) (
    fd <- read_int in_ p;
    close fd;;
    write_int set_in p (-1));;
  fd <- read_int out p;
  when (negb (fd =? -1)) (
    fd <- read_int out p;
    close fd;;
    write_int set_out p (-1));;
  fd <- read_int err p;
  when (negb (fd =? -1)) (
    fd <- read_int err p;
    close fd;;
    write_int set_err p (-1));;
  c <- read_int pid p;
  when (negb (c =? -1)) (
    c <- read_int pid p;
    kill c SIGKILL;;
    c <- read_int pid p;
    waitpid c WNOHANG;;
    write_int set_pid p (-1)).

(** [malloc(sizeof(struct Process))]: the members of the new block are
    indeterminate; [process_create] assigns all seven before it reads any,
    so the block starts here with arbitrary contents. *)
Definition indeterminate : Process := mkProcess NULL NULL NULL 0 0 0 0.

Definition malloc_Process : M ptr := alloc (Struct indeterminate).

Definition process_create (fuel : nat) (path0 argv0 envp0 : ptr) : M ptr :=
  p <- malloc_Process;
  store (Field p f_path) NULL;;
  store (Field p f_argv) NULL;;
  store (Field p f_envp) NULL;;
  write_int set_in p (-1);;
  write_int set_out p (-1);;
  write_int set_err p (-1);;
  write_int set_pid p (-1);;
  _process_string_copy (Some (Field p f_path)) path0;;
  process_add_args fuel p argv0;;
  process_add_envs fuel p envp0;;
  ret p.

(** The call of [process_close] is commented out in this revision. *)
Definition process_free (p : ptr) : M unit :=
  match p with
  | None => ret tt
  | Some _ =>
      pa <- load (Field p f_path);
      when (bool_decide (pa <> NULL)) (
        pa <- load (Field p f_path);
        free pa;;
        store (Field p f_path) NULL);;
      process_clear_argv p;;
      process_clear_envp p;;
      free p
  end.

Definition process_open (p : ptr) : M Z :=
  let retVal := 0 in
  c <- read_int pid p;
  if c =? -1 then
    ipipe <- pipe;
    opipe <- pipe;
    epipe <- pipe;
    c <- fork;
    write_int set_pid p c;;
    c <- read_int pid p;
    (if c =? 0 then
       fd <- fd_at ipipe 1; close fd;;
       fd <- fd_at opipe 0; close fd;;
       fd <- fd_at epipe 0; close fd;;
       fd <- fd_at ipipe 0; dup2 fd STDIN_FILENO;;
       fd <- fd_at opipe 1; dup2 fd STDOUT_FILENO;;
       fd <- fd_at epipe 1; dup2 fd STDERR_FILENO;;
       fd <- fd_at ipipe 0; close fd;;
       fd <- fd_at opipe 1; close fd;;
       fd <- fd_at epipe 1; close fd;;
       setsid;;
       pa <- load (Field p f_path);
       av <- load (Field p f_argv);
       ev <- load (Field p f_envp);
       execve pa av ev;;
       _exit 1
     else
       fd <- fd_at ipipe 0; close fd;;
       fd <- fd_at opipe 1; close fd;;
       fd <- fd_at epipe 1; close fd;;
       fd <- fd_at ipipe 1; write_int set_in p fd;;
       fd <- fd_at opipe 0; write_int set_out p fd;;
       fd <- fd_at epipe 0; write_int set_err p fd);;
    c <- read_int pid p;
    ret (if negb (c =? -1) then 1 else 0)
  else ret retVal.

End WithKernel.

(** ** procmanage.c, earlier revision

    [process_close] is the same function in both revisions; the other
    functions are written out as this revision has them. *)
Module Earlier.
Section WithKernel.
Variable K : kernel.

Definition process_add_arg (p : ptr) (arg : ptr) : M unit :=
  a <- load (Field p f_argv);
  argc <- _process_array_count a;
  a <- load (Field p f_argv);
  a' <- realloc a (argc + 2);
  store (Field p f_argv) a';;
  n <- strlen arg;
  b <- calloc (n + 1);
  a <- load (Field p f_argv);
  store (Cell a argc) b;;
  a <- load (Field p f_argv);
  d <- load (Cell a argc);
  n <- strlen arg;
  memcpy d arg n;;
  a <- load (Field p f_argv);
  store (Cell a (argc + 1)) NULL.

Definition process_add_env (p : ptr) (env : ptr) : M unit :=
  a <- load (Field p f_envp);
  envc <- _process_array_count a;
  a <- load (Field p f_envp);
  a' <- realloc a (envc + 2);
  store (Field p f_envp) a';;
  n <- strlen env;
  b <- calloc (n + 1);
  a <- load (Field p f_envp);
  store (Cell a envc) b;;
  a <- load (Field p f_envp);
  d <- load (Cell a envc);
  n <- strlen env;
  memcpy d env n;;
  a <- load (Field p f_envp);
  store (Cell a (envc + 1)) NULL.

(** Both clear functions of this revision, for the member [f]. *)
Definition clear_member (f : field) (p : ptr) : M unit :=
  a <- load (Field p f);
  when (bool_decide (a <> NULL)) (
    a <- load (Field p f);
    n <- _process_array_count a;
    for_range 0 n (fun i =>
      a <- load (Field p f);
      x <- load (Cell a i);
      free x;;
      a <- load (Field p f);
      store (Cell a i) NULL);;
    a <- load (Field p f);
    free a;;
    store (Field p f) NULL).

Definition process_clear_argv (p : ptr) : M unit := clear_member f_argv p.
Definition process_clear_envp (p : ptr) : M unit := clear_member f_envp p.

Definition process_close (p : ptr) : M unit := process_close p.

Definition process_create (fuel : nat) (path0 argv0 envp0 : ptr) : M ptr :=
  p <- malloc_Process;
  store (Field p f_path) NULL;;
  store (Field p f_argv) NULL;;
  store (Field p f_envp) NULL;;
  write_int set_in p (-1);;
  write_int set_out p (-1);;
  write_int set_err p (-1);;
  write_int set_pid p (-1);;
  n <- strlen path0;
  b <- calloc (n + 1);
  store (Field p f_path) b;;
  d <- load (Field p f_path);
  n <- strlen path0;
  memcpy d path0 n;;
  process_add_arg p path0;;
  add_loop process_add_arg fuel p argv0 0;;
  add_loop process_add_env fuel p envp0 0;;
  ret p.

Definition process_free (p : ptr) : M unit :=
  match p with
  | None => ret tt
  | Some _ =>
      process_close p;;
      pa <- load (Field p f_path);
      when (bool_decide (pa <> NULL)) (
        pa <- load (Field p f_path);
        free pa;;
        store (Field p f_path) NULL);;
      process_clear_argv p;;
      process_clear_envp p;;
      free p
  end.

(** No [setsid] between the last [close] and [execve] in this revision. *)
Definition process_open (p : ptr) : M Z :=
  let retVal := 0 in
  c <- read_int pid p;
  if c =? -1 then
    ipipe <- pipe K;
    opipe <- pipe K;
    epipe <- pipe K;
    c <- fork K;
    write_int set_pid p c;;
    c <- read_int pid p;
    (if c =? 0 then
       fd <- fd_at ipipe 1; close fd;;
       fd <- fd_at opipe 0; close fd;;
       fd <- fd_at epipe 0; close fd;;
       fd <- fd_at ipipe 0; dup2 fd STDIN_FILENO;;
       fd <- fd_at opipe 1; dup2 fd STDOUT_FILENO;;
       fd <- fd_at epipe 1; dup2 fd STDERR_FILENO;;
       fd <- fd_at ipipe 0; close fd;;
       fd <- fd_at opipe 1; close fd;;
       fd <- fd_at epipe 1; close fd;;
       pa <- load (Field p f_path);
       av <- load (Field p f_argv);
       ev <- load (Field p f_envp);
       execve K pa av ev;;
       _exit 1
     else
       fd <- fd_at ipipe 0; close fd;;
       fd <- fd_at opipe 1; close fd;;
       fd <- fd_at epipe 1; close fd;;
       fd <- fd_at ipipe 1; write_int set_in p fd;;
       fd <- fd_at opipe 0; write_int set_out p fd;;
       fd <- fd_at epipe 0; write_int set_err p fd);;
    c <- read_int pid p;
    ret (if negb (c =? -1) then 1 else 0)
  else ret retVal.

End WithKernel.
End Earlier.

(** ** Specification vocabulary *)

(** The C string held by a buffer: the bytes before the first NUL. *)
Definition cstring_of (bs : list byte) : option (list byte) :=
  n ← cstrlen bs; Some (take n bs).

Definition string_at (h : gmap loc object) (b : loc) : option (list byte) :=
  match h !! b with
  | Some (Bytes bs) => cstring_of bs
  | _ => None
  end.

(** The entries of a sentinel-terminated array: the pointers before the
    first null slot. *)
Fixpoint entries_of (cs : list cell) : option (list loc) :=
  match cs with
  | Ptr (Some l) :: cs' => (l ::.) <$> entries_of cs'
  | Ptr None :: _ => Some []
  | _ => None
  end.

Definition entries (h : gmap loc object) (arr : ptr) : option (list loc) :=
  match arr with
  | None => Some []
  | Some a =>
      match h !! a with
      | Some (Slots cs) => entries_of cs
      | _ => None
      end
  end.

(** The strings of a list, in order. *)
Definition strings (h : gmap loc object) (arr : ptr)
  : option (list (list byte)) :=
  ls ← entries h arr; mapM (string_at h) ls.

(** The slots of an array that holds exactly the entries [ls] and the
    sentinel. *)
Definition packed (ls : list loc) : list cell :=
  ((fun l => Ptr (Some l)) <$> ls) ++ [Ptr NULL].

(** A list as the library builds it: absent, or a block of exactly
    [length ls + 1] slots. *)
Definition owns (h : gmap loc object) (arr : ptr) (ls : list loc) : Prop :=
  match arr with
  | None => ls = []
  | Some a => h !! a = Some (Slots (packed ls))
  end.

(** The heap after one append to the list in member [f] of the handle at
    [l]: a copy [c] of the item, and the array [a] with one more entry. *)
Definition pushed (h : gmap loc object) (l : loc) (f : field) (P : Process)
    (old : list loc) (str : list byte) (a c : loc) : gmap loc object :=
  <[a := Slots (packed (old ++ [c]))]>
    (<[c := Bytes (str ++ [x00])]>
       (<[l := Struct (set_field f (Some a) P)]> h)).

(** [N] append calls in a row, one per item. *)
Fixpoint appends (add : ptr -> M unit) (items : list loc) : M unit :=
  match items with
  | [] => ret tt
  | it :: rest => add (Some it);; appends add rest
  end.

(** What a run of appends to member [f] of the handle at [l] guarantees,
    from the heap [h] with the list [old] to the heap [h'] with the list
    [old ++ copies]. *)
Record appended (h h' : gmap loc object) (l : loc) (f : field) (P : Process)
    (old copies : list loc) (strs : list (list byte)) : Prop := {
  app_handle : exists arr,
    h' !! l = Some (Struct (set_field f arr P)) /\ owns h' arr (old ++ copies)
    /\ (copies = [] -> arr = get_field f P);
  app_strings : Forall2 (fun c str => string_at h' c = Some str) copies strs;
  app_fresh : Forall (fun c => h !! c = None) copies;
  app_nodup : NoDup copies;
  app_frame : forall x o,
    h !! x = Some o -> x <> l -> get_field f P <> Some x -> h' !! x = Some o
}.

(** The outcome of a run of appends of [items], holding the strings
    [strs], to the list [old] in member [f] of the handle at [l]:
    [copies] are the blocks the run stored. *)
Record append_result (s s' : state) (l : loc) (f : field)
    (old items copies : list loc) (strs : list (list byte)) : Prop := {
  (* count sees every element *)
  ar_count : exists arr,
    load (Field (Some l) f) s' = Ret arr s'
    /\ _process_array_count arr s'
       = Ret (length old + length items)%nat s';
  (* the block holds the old entries, the copies and the sentinel, and
     nothing else *)
  ar_block : items <> [] -> exists a cs,
    load (Field (Some l) f) s' = Ret (Some a) s'
    /\ heap s' !! a = Some (Slots cs)
    /\ cs = ((fun c => Ptr (Some c)) <$> old ++ copies) ++ [Ptr NULL]
    /\ length cs = (length old + length items + 1)%nat;
  (* every copy holds the string of its item *)
  ar_copies : Forall2 (fun c str => string_at (heap s') c = Some str)
                copies strs;
  (* the caller's strings are still there *)
  ar_originals : Forall2 (fun it str => string_at (heap s') it = Some str)
                   items strs;
  (* the copies are new blocks, none is the block of an item *)
  ar_fresh : Forall (fun c => heap s !! c = None) copies;
  ar_distinct : forall c it, c ∈ copies -> it ∈ items -> c <> it;
  ar_nodup : NoDup copies;
  ar_trace : trace s' = trace s
}.

(** [add] appends to member [f] of the handle at [l] as
    [_process_array_push] does. *)
Definition pushes_to (l : loc) (f : field) (add : ptr -> M unit) : Prop :=
  forall h t P old it bs n,
    h !! l = Some (Struct P) ->
    owns h (get_field f P) old ->
    h !! it = Some (Bytes bs) ->
    cstrlen bs = Some n ->
    add (Some it) (mkState h t)
    = _process_array_push (Some (Field (Some l) f)) (Some it) (mkState h t).

(** What [process_create] returns: a new handle at [p], not launched, that
    holds a copy of the path, the argument strings [args] and the
    environment strings [envs]; nothing that existed before is changed. *)
Record created (s s' : state) (p : loc) (pstr : list byte)
    (args envs : list (list byte)) : Prop := {
  cr_handle : exists P b,
    heap s' !! p = Some (Struct P)
    /\ in_ P = -1 /\ out P = -1 /\ err P = -1 /\ pid P = -1
    /\ path P = Some b /\ string_at (heap s') b = Some pstr
    /\ strings (heap s') (argv P) = Some args
    /\ strings (heap s') (envp P) = Some envs;
  cr_fresh : heap s !! p = None;
  cr_frame : forall x o, heap s !! x = Some o -> heap s' !! x = Some o;
  cr_trace : trace s' = trace s
}.

(** The state in which [process_create] starts to append: a new handle at
    [p] with a copy [b] of the path. *)
Definition create_prefix_post (h : gmap loc object) (bs : list byte) (n : nat)
    (p b : loc) (h1 : gmap loc object) : Prop :=
  h !! p = None /\ h !! b = None /\ p <> b
  /\ h1 !! p = Some (Struct (mkProcess (Some b) NULL NULL (-1) (-1) (-1) (-1)))
  /\ h1 !! b = Some (Bytes (take n bs ++ [x00]))
  /\ (forall x, x <> p -> x <> b -> h1 !! x = h !! x).

(** ** Vocabulary for the handle *)

(** The handle after [process_close]: the strings are kept, the three
    descriptors and the process identifier are unset. *)
Definition closed (P : Process) : Process :=
  mkProcess (path P) (argv P) (envp P) (-1) (-1) (-1) (-1).

(** The calls [process_close] makes for one descriptor and for the child. *)
Definition closes (fd : Z) : list syscall :=
  if fd =? -1 then [] else [sys_close fd].

Definition reaps (c : Z) : list syscall :=
  if c =? -1 then [] else [sys_kill c SIGKILL; sys_waitpid c WNOHANG].

(** The three descriptors and the process identifier are set together or
    unset together. *)
Definition all_unset (P : Process) : Prop :=
  in_ P = -1 /\ out P = -1 /\ err P = -1 /\ pid P = -1.

Definition all_set (P : Process) : Prop :=
  in_ P <> -1 /\ out P <> -1 /\ err P <> -1 /\ pid P <> -1.

Definition linked (P : Process) : Prop := all_unset P \/ all_set P.

(** The descriptors that are open in this process after the calls [t],
    starting from the three standard ones. *)
Definition fd_step (fds : list Z) (e : syscall) : list Z :=
  match e with
  | sys_pipe (Some (r, w)) => r :: w :: fds
  | sys_close fd => List.filter (fun x => negb (x =? fd)) fds
  | sys_dup2 o n =>
      if existsb (Z.eqb o) fds && negb (existsb (Z.eqb n) fds)
      then n :: fds else fds
  | _ => fds
  end.

Definition open_fds (t : list syscall) : list Z :=
  fold_left fd_step t [0; 1; 2].

(** The children that were forked and not yet killed. *)
Definition child_step (cs : list Z) (e : syscall) : list Z :=
  match e with
  | sys_fork c => if (0 <? c) then c :: cs else cs
  | sys_kill c _ => List.filter (fun x => negb (x =? c)) cs
  | _ => cs
  end.

Definition live_children (t : list syscall) : list Z :=
  fold_left child_step t [].

(** ** A concrete caller and concrete kernels *)

Module Demo.

Definition cstr (s : string) : list byte := String.list_byte_of_string s.

Definition buf (s : string) : object := Bytes (cstr s ++ [x00]).

(** The caller's memory: a path, one argument, one environment entry, and
    the two null-terminated arrays. *)
Definition caller_heap : gmap loc object :=
  list_to_map
    [ (1%positive, buf "/bin/echo"%string);
      (2%positive, buf "hi"%string);
      (3%positive, buf "LANG=C"%string);
      (4%positive, Slots [Ptr (Some 2%positive); Ptr NULL]);
      (5%positive, Slots [Ptr (Some 3%positive); Ptr NULL]) ].

Definition start : state := mkState caller_heap [].

(** [pipe] hands out the two lowest descriptors that are not open. *)
Fixpoint lowest_free (fuel : nat) (n : Z) (fds : list Z) : Z :=
  match fuel with
  | O => n
  | S fuel' =>
      if existsb (Z.eqb n) fds then lowest_free fuel' (n + 1) fds else n
  end.

Definition posix_pipe (t : list syscall) : option (Z * Z) :=
  let fds := open_fds t in
  let r := lowest_free (S (length fds)) 0 fds in
  let w := lowest_free (S (S (length fds))) 0 (r :: fds) in
  Some (r, w).

(** A kernel whose [fork] answers [c] and whose [execve] fails or not. *)
Definition kernel_with (c : Z) (exec_ok : bool) : kernel :=
  mkKernel posix_pipe (fun _ => c) (fun _ => exec_ok).

(** [fork] fails. *)
Definition no_fork : kernel := kernel_with (-1) false.
(** [fork] returns the child 4242 to the parent. *)
Definition parent_side : kernel := kernel_with 4242 true.
(** We are the child, and the binary cannot be executed. *)
Definition child_side : kernel := kernel_with 0 false.

End Demo.

(** The answers of the kernel to the three [pipe] calls and to the [fork]
    of one [process_open], after the calls [t]. *)
Definition answers (K : kernel) (t : list syscall) (i o e : Z * Z) (c : Z)
  : Prop :=
  k_pipe K t = Some i
  /\ k_pipe K (t ++ [sys_pipe (Some i)]) = Some o
  /\ k_pipe K (t ++ [sys_pipe (Some i); sys_pipe (Some o)]) = Some e
  /\ k_fork K (t ++ [sys_pipe (Some i); sys_pipe (Some o); sys_pipe (Some e)])
     = c.

Definition open_calls (i o e : Z * Z) (c : Z) : list syscall :=
  [sys_pipe (Some i); sys_pipe (Some o); sys_pipe (Some e); sys_fork c].

(** The calls of the parent after [fork]. *)
Definition parent_calls (i o e : Z * Z) : list syscall :=
  [sys_close (fst i); sys_close (snd o); sys_close (snd e)].

(** The calls of the child up to the last [close]. *)
Definition wiring_calls (i o e : Z * Z) : list syscall :=
  [sys_close (snd i); sys_close (fst o); sys_close (fst e);
   sys_dup2 (fst i) STDIN_FILENO; sys_dup2 (snd o) STDOUT_FILENO;
   sys_dup2 (snd e) STDERR_FILENO;
   sys_close (fst i); sys_close (snd o); sys_close (snd e)].

(** How the child ends: the image is replaced, or [_exit(1)]. *)
Definition exec_calls (P : Process) (ok : bool) : list syscall :=
  sys_execve (path P) (argv P) (envp P) ok
  :: (if ok then [] else [sys_exit 1]).

(** The handle in the parent after the [else] branch of [process_open]. *)
Definition launched (P : Process) (i o e : Z * Z) (c : Z) : Process :=
  mkProcess (path P) (argv P) (envp P) (snd i) (fst o) (fst e) c.

(** A list that [clear] can release: a sentinel-terminated array whose
    entries are distinct live char buffers. *)
Definition releasable (h : gmap loc object) (arr : ptr) (ls : list loc)
  : Prop :=
  entries h arr = Some ls
  /\ NoDup ls
  /\ Forall (fun x => exists bs, h !! x = Some (Bytes bs)) ls.

(** The blocks of a list: the array and its entries. *)
Definition blocks (arr : ptr) (ls : list loc) : list loc :=
  match arr with
  | None => ls
  | Some a => a :: ls
  end.

(** The body of the loop of [_process_array_clear]. *)
Definition clear_body (pl : place) (i : nat) : M unit :=
  a <- load pl;
  x <- load (Cell a i);
  free x;;
  a <- load pl;
  store (Cell a i) NULL.

(** The outcome of [clear] on the list [ls] at [arr], member [f] of the
    handle at [l]. *)
Record clear_result (s s' : state) (l : loc) (f : field) (arr : ptr)
    (ls : list loc) : Prop := {
  (* the list is absent *)
  cl_absent : load (Field (Some l) f) s' = Ret NULL s';
  (* and count yields 0 *)
  cl_count : (a <- load (Field (Some l) f); _process_array_count a) s'
             = Ret O s';
  (* the array and every element are released, nothing else is touched *)
  cl_freed : forall x, x ∈ blocks arr ls -> heap s' !! x = None;
  cl_frame : forall x, x <> l -> x ∉ blocks arr ls ->
                       heap s' !! x = heap s !! x;
  (* a second clear changes nothing *)
  cl_again : _process_array_clear (Some (Field (Some l) f)) s' = Ret tt s';
  (* clear on an absent list changes nothing *)
  cl_noop : arr = NULL -> s' = s;
  cl_trace : trace s' = trace s
}.

(** ** The life of a handle *)

Inductive handle_op :=
| op_add_arg (arg : loc)
| op_add_env (env : loc)
| op_open
| op_close.

Definition run_op (K : kernel) (p : ptr) (o : handle_op) : M unit :=
  match o with
  | op_add_arg a => process_add_arg p (Some a)
  | op_add_env e => process_add_env p (Some e)
  | op_open => _ <- process_open K p; ret tt
  | op_close => process_close p
  end.

(** The states in which the parent can find the handle at [p]: after
    [process_create], and after any operation that returns.  [process_free]
    ends the life of the handle. *)
Inductive reachable (K : kernel) (p : loc) : state -> Prop :=
| reach_create s0 fuel pa av ev s :
    process_create fuel pa av ev s0 = Ret (Some p) s ->
    reachable K p s
| reach_step s o s' :
    reachable K p s ->
    run_op K (Some p) o s = Ret tt s' ->
    reachable K p s'.

Module Scenario.
Import Demo.

(** The caller creates a handle without lists. *)
Definition bare : state :=
  Eval vm_compute in
    match process_create 1 (Some 1%positive) NULL NULL start with
    | Ret _ s => s
    | _ => start
    end.

(** The caller creates a handle from its path, argv and envp: the handle
    is block 6. *)
Definition ready : state :=
  Eval vm_compute in
    match process_create 2 (Some 1%positive) (Some 4%positive)
            (Some 5%positive) start with
    | Ret _ s => s
    | _ => start
    end.

Definition handle : loc := 6%positive.

(** The [struct Process] of [ready], and of [running] below. *)
Definition ready_handle : Process :=
  mkProcess (Some 7%positive) (Some 8%positive) (Some 10%positive)
    (-1) (-1) (-1) (-1).

Definition running_handle : Process :=
  mkProcess (Some 7%positive) (Some 8%positive) (Some 10%positive)
    4 5 7 4242.

(** The handle of [ready] after a launch that returned in the parent. *)
Definition running : state :=
  Eval vm_compute in
    match process_open parent_side (Some handle) ready with
    | Ret _ s => s
    | _ => ready
    end.

End Scenario.

(** ** Properties that a call keeps whenever it returns *)

Definition preserves {A} (I : state -> Prop) (m : M A) : Prop :=
  forall s a s', I s -> m s = Ret a s' -> I s'.

(** The call trace is [t]: a call that preserves it makes no system call. *)
Definition trace_is (t : list syscall) (s : state) : Prop := trace s = t.

(** The handle at [l] is live and its descriptors and process identifier
    are those of [P0]. *)
Definition ints_are (l : loc) (P0 : Process) (s : state) : Prop :=
  exists P, heap s !! l = Some (Struct P)
            /\ in_ P = in_ P0 /\ out P = out P0 /\ err P = err P0
            /\ pid P = pid P0.

(** A kernel whose [fork] does not fail and whose pipes are descriptors. *)
Definition fork_succeeds (K : kernel) : Prop :=
  (forall t, k_fork K t <> -1)
  /\ (forall t r w, k_pipe K t = Some (r, w) -> r <> -1 /\ w <> -1).

(** A handle whose memory [process_free] can release: the path is null or
    a live buffer, both lists are releasable, and no block is owned
    twice. *)
Definition well_formed (h : gmap loc object) (l : loc) (P : Process)
    (la le : list loc) : Prop :=
  h !! l = Some (Struct P)
  /\ (forall b, path P = Some b -> exists bs, h !! b = Some (Bytes bs))
  /\ releasable h (argv P) la
  /\ releasable h (envp P) le
  /\ NoDup (blocks (path P) [] ++ blocks (argv P) la ++ blocks (envp P) le).

(** Every block the handle owns, the handle included. *)
Definition owned (l : loc) (P : Process) (la le : list loc) : list loc :=
  l :: blocks (path P) [] ++ blocks (argv P) la ++ blocks (envp P) le.

(** What a clear function of either revision does to member [f]. *)
Definition clears (f : field) (clear : ptr -> M unit) : Prop :=
  forall h t l P ls,
    h !! l = Some (Struct P) ->
    releasable h (get_field f P) ls ->
    exists h',
      clear (Some l) (mkState h t) = Ret tt (mkState h' t)
      /\ h' !! l = Some (Struct (set_field f NULL P))
      /\ (forall x, x ∈ blocks (get_field f P) ls -> h' !! x = None)
      /\ (forall x, x <> l -> x ∉ blocks (get_field f P) ls ->
                    h' !! x = h !! x).

(** ** Calls that return or are undefined *)

(** A call that neither ends the process nor runs out of fuel: whatever
    the state, it returns or its behaviour is undefined. *)
Definition plain {A} (m : M A) : Prop :=
  forall s, m s = Fault \/ exists a s', m s = Ret a s'.

(** * Lemmas *)

(** ** Executing the primitives *)

Lemma bind_Ret {A B} (m : M A) (k : A -> M B) s a s' :
  m s = Ret a s' -> bind m k s = k a s'.
Proof. intros E. unfold bind. now rewrite E. Qed.

Lemma bind_assoc {A B C} (m : M A) (f : A -> M B) (g : B -> M C) s :
  bind (bind m f) g s = bind m (fun x => bind (f x) g) s.
Proof. unfold bind. now destruct (m s). Qed.

Section Primitives.
Context (h : gmap loc object) (t : list syscall).

Lemma read_struct_ok l P :
  h !! l = Some (Struct P) ->
  read_struct (Some l) (mkState h t) = Ret P (mkState h t).
Proof. intros E. unfold read_struct, bind, read. simpl. now rewrite E. Qed.

Lemma read_slots_ok a cs :
  h !! a = Some (Slots cs) ->
  read_slots (Some a) (mkState h t) = Ret cs (mkState h t).
Proof. intros E. unfold read_slots, bind, read. simpl. now rewrite E. Qed.

Lemma read_bytes_ok b bs :
  h !! b = Some (Bytes bs) ->
  read_bytes (Some b) (mkState h t) = Ret bs (mkState h t).
Proof. intros E. unfold read_bytes, bind, read. simpl. now rewrite E. Qed.

Lemma write_ok l o o' :
  h !! l = Some o ->
  write (Some l) o' (mkState h t) = Ret tt (mkState (<[l := o']> h) t).
Proof. intros E. unfold write. simpl. now rewrite E. Qed.

Lemma read_int_ok get l P :
  h !! l = Some (Struct P) ->
  read_int get (Some l) (mkState h t) = Ret (get P) (mkState h t).
Proof.
  intros E. unfold read_int. now rewrite (bind_Ret _ _ _ _ _ (read_struct_ok _ _ E)).
Qed.

Lemma write_int_ok set l P v :
  h !! l = Some (Struct P) ->
  write_int set (Some l) v (mkState h t)
  = Ret tt (mkState (<[l := Struct (set v P)]> h) t).
Proof.
  intros E. unfold write_int.
  rewrite (bind_Ret _ _ _ _ _ (read_struct_ok _ _ E)).
  now apply write_ok with (o := Struct P).
Qed.

Lemma load_field_ok l P f :
  h !! l = Some (Struct P) ->
  load (Field (Some l) f) (mkState h t) = Ret (get_field f P) (mkState h t).
Proof.
  intros E. simpl. now rewrite (bind_Ret _ _ _ _ _ (read_struct_ok _ _ E)).
Qed.

Lemma store_field_ok l P f v :
  h !! l = Some (Struct P) ->
  store (Field (Some l) f) v (mkState h t)
  = Ret tt (mkState (<[l := Struct (set_field f v P)]> h) t).
Proof.
  intros E. simpl. rewrite (bind_Ret _ _ _ _ _ (read_struct_ok _ _ E)).
  now apply write_ok with (o := Struct P).
Qed.

Lemma load_cell_ok a cs i v :
  h !! a = Some (Slots cs) -> cs !! i = Some (Ptr v) ->
  load (Cell (Some a) i) (mkState h t) = Ret v (mkState h t).
Proof.
  intros E Ei. simpl. rewrite (bind_Ret _ _ _ _ _ (read_slots_ok _ _ E)).
  now rewrite Ei.
Qed.

Lemma store_cell_ok a cs i v :
  h !! a = Some (Slots cs) -> (i < length cs)%nat ->
  store (Cell (Some a) i) v (mkState h t)
  = Ret tt (mkState (<[a := Slots (<[i := Ptr v]> cs)]> h) t).
Proof.
  intros E Hi. simpl. rewrite (bind_Ret _ _ _ _ _ (read_slots_ok _ _ E)).
  rewrite decide_True by done. now apply write_ok with (o := Slots cs).
Qed.

Lemma count_null :
  _process_array_count NULL (mkState h t) = Ret O (mkState h t).
Proof. reflexivity. Qed.

Lemma count_ok a cs n :
  h !! a = Some (Slots cs) -> scan cs = Some n ->
  _process_array_count (Some a) (mkState h t) = Ret n (mkState h t).
Proof.
  intros E En. unfold _process_array_count.
  rewrite (bind_Ret _ _ _ _ _ (read_slots_ok _ _ E)). now rewrite En.
Qed.

Lemma realloc_null n :
  realloc NULL n (mkState h t)
  = Ret (Some (fresh (dom h)))
        (mkState (<[fresh (dom h) := Slots (replicate n Uninit)]> h) t).
Proof. reflexivity. Qed.

Lemma realloc_ok a cs n :
  h !! a = Some (Slots cs) ->
  realloc (Some a) n (mkState h t)
  = Ret (Some a) (mkState (<[a := Slots (resize n cs)]> h) t).
Proof.
  intros E. unfold realloc.
  rewrite (bind_Ret _ _ _ _ _ (read_slots_ok _ _ E)).
  now rewrite (bind_Ret _ _ _ _ _ (write_ok _ _ _ E)).
Qed.

Lemma alloc_ok o :
  alloc o (mkState h t)
  = Ret (Some (fresh (dom h))) (mkState (<[fresh (dom h) := o]> h) t).
Proof. reflexivity. Qed.

Lemma calloc_ok n :
  calloc n (mkState h t)
  = Ret (Some (fresh (dom h)))
        (mkState (<[fresh (dom h) := Bytes (replicate n x00)]> h) t).
Proof. reflexivity. Qed.

Lemma strlen_ok b bs n :
  h !! b = Some (Bytes bs) -> cstrlen bs = Some n ->
  strlen (Some b) (mkState h t) = Ret n (mkState h t).
Proof.
  intros E En. unfold strlen.
  rewrite (bind_Ret _ _ _ _ _ (read_bytes_ok _ _ E)). now rewrite En.
Qed.

Lemma memcpy_ok d db b bs n :
  h !! d = Some (Bytes db) -> h !! b = Some (Bytes bs) ->
  (n <= length db)%nat -> (n <= length bs)%nat ->
  memcpy (Some d) (Some b) n (mkState h t)
  = Ret tt (mkState (<[d := Bytes (take n bs ++ drop n db)]> h) t).
Proof.
  intros Ed Eb H1 H2. unfold memcpy.
  rewrite (bind_Ret _ _ _ _ _ (read_bytes_ok _ _ Ed)).
  rewrite (bind_Ret _ _ _ _ _ (read_bytes_ok _ _ Eb)).
  rewrite decide_True by done. now apply write_ok with (o := Bytes db).
Qed.

Lemma free_null : free NULL (mkState h t) = Ret tt (mkState h t).
Proof. reflexivity. Qed.

Lemma free_ok l o :
  h !! l = Some o ->
  free (Some l) (mkState h t) = Ret tt (mkState (delete l h) t).
Proof. intros E. unfold free. simpl. now rewrite E. Qed.

End Primitives.

(** ** Lists of slots and C strings *)

Lemma scan_entries cs : scan cs = length <$> entries_of cs.
Proof.
  induction cs as [|[|[l|]] cs IH]; simpl; try reflexivity.
  rewrite IH. now destruct (entries_of cs).
Qed.

Lemma entries_of_app ls rest :
  entries_of (((fun l => Ptr (Some l)) <$> ls) ++ Ptr NULL :: rest) = Some ls.
Proof. induction ls as [|l ls IH]; csimpl; [reflexivity | now rewrite IH]. Qed.

Lemma entries_of_packed ls : entries_of (packed ls) = Some ls.
Proof. apply entries_of_app. Qed.

Lemma scan_app ls rest :
  scan (((fun l => Ptr (Some l)) <$> ls) ++ Ptr NULL :: rest)
  = Some (length ls).
Proof. now rewrite scan_entries, entries_of_app. Qed.

Lemma scan_packed ls : scan (packed ls) = Some (length ls).
Proof. apply scan_app. Qed.

Lemma length_packed ls : length (packed ls) = S (length ls).
Proof. unfold packed. rewrite length_app, length_fmap. simpl. lia. Qed.

Lemma packed_snoc ls c :
  packed (ls ++ [c]) = ((fun l => Ptr (Some l)) <$> ls) ++ [Ptr (Some c); Ptr NULL].
Proof. unfold packed. rewrite fmap_app, <- app_assoc. reflexivity. Qed.

Lemma cstrlen_lt bs n : cstrlen bs = Some n -> (n < length bs)%nat.
Proof.
  revert n. induction bs as [|b bs IH]; intros n; simpl; [discriminate|].
  destruct (cstrlen bs) as [m|];
    destruct b; simpl; intros [= <-]; try lia;
    specialize (IH m eq_refl); lia.
Qed.

Lemma cstrlen_copy bs n :
  cstrlen bs = Some n -> cstrlen (take n bs ++ [x00]) = Some n.
Proof.
  revert n. induction bs as [|b bs IH]; intros n; simpl; [discriminate|].
  destruct (cstrlen bs) as [m|];
    destruct b; simpl; intros [= <-]; try reflexivity;
    simpl; now rewrite (IH m eq_refl).
Qed.

(** What [calloc(n + 1)] followed by [memcpy] of [n] bytes leaves. *)
Lemma copy_bytes bs n :
  (n <= length bs)%nat ->
  take n bs ++ drop n (replicate (n + 1) x00) = take n bs ++ [x00].
Proof.
  intros _. rewrite drop_replicate.
  replace (n + 1 - n)%nat with 1%nat by lia. reflexivity.
Qed.

Lemma cstring_of_copy bs n :
  cstrlen bs = Some n -> cstring_of (take n bs ++ [x00]) = cstring_of bs.
Proof.
  intros E. pose proof (cstrlen_lt _ _ E).
  unfold cstring_of. rewrite (cstrlen_copy _ _ E), E. simpl.
  rewrite take_app_le by (rewrite length_take; lia).
  now rewrite take_take, Nat.min_id.
Qed.

Lemma get_set_field f v P : get_field f (set_field f v P) = v.
Proof. now destruct f. Qed.

Lemma set_set_field f v w P :
  set_field f v (set_field f w P) = set_field f v P.
Proof. now destruct f. Qed.

Lemma set_get_field f P : set_field f (get_field f P) P = P.
Proof. now destruct f, P. Qed.

(** Writing the new entry and the sentinel into an array of
    [length old + 2] slots that starts with the old entries. *)
Lemma fill_slots cs0 (old : list loc) (c : loc) :
  length cs0 = (length old + 2)%nat ->
  take (length old) cs0 = (fun l => Ptr (Some l)) <$> old ->
  <[(length old + 1)%nat := Ptr NULL]> (<[length old := Ptr (Some c)]> cs0)
  = packed (old ++ [c]).
Proof.
  intros Hlen Htake. rewrite packed_snoc, <- Htake.
  rewrite <- (take_drop (length old) cs0) at 1.
  assert (Hd : length (drop (length old) cs0) = 2%nat)
    by (rewrite length_drop; lia).
  destruct (drop (length old) cs0) as [|x [|y [|]]]; try discriminate.
  assert (Ht : length (take (length old) cs0) = length old)
    by (rewrite length_take; lia).
  rewrite insert_app_r_alt by lia. rewrite Ht, Nat.sub_diag. simpl.
  rewrite insert_app_r_alt by lia. rewrite Ht.
  replace (length old + 1 - length old)%nat with 1%nat by lia.
  reflexivity.
Qed.

Ltac simpl_lookup :=
  repeat first [ rewrite lookup_insert_eq
               | rewrite lookup_insert_ne by congruence
               | rewrite lookup_delete_eq
               | rewrite lookup_delete_ne by congruence ].

Ltac look := simpl_lookup; first [ reflexivity | eassumption ].

Ltac step lem :=
  rewrite ?bind_assoc;
  erewrite bind_Ret by (eapply lem; first [ look | done | lia | simpl; lia ]);
  cbv beta; rewrite ?bind_assoc.

(** The second half of [_process_array_push]: copy the item into slot
    [arrc] and write the sentinel after it. *)
Lemma push_tail h t l P f a cs0 old it bs n :
  h !! l = Some (Struct P) ->
  get_field f P = Some a ->
  h !! a = Some (Slots cs0) ->
  length cs0 = (length old + 2)%nat ->
  take (length old) cs0 = (fun l => Ptr (Some l)) <$> old ->
  h !! it = Some (Bytes bs) ->
  cstrlen bs = Some n ->
  let c := fresh (dom h) in
  (a0 <- load_at (Some (Field (Some l) f));
   _process_string_copy (Some (Cell a0 (length old))) (Some it);;
   a1 <- load_at (Some (Field (Some l) f));
   store (Cell a1 (length old + 1)) NULL) (mkState h t)
  = Ret tt (mkState (<[a := Slots (packed (old ++ [c]))]>
                       (<[c := Bytes (take n bs ++ [x00])]> h)) t).
Proof.
  intros Hl Hf Ha Hlen Htake Hit Hn c.
  assert (Hc : h !! c = None)
    by (apply not_elem_of_dom; apply is_fresh).
  assert (c <> a /\ c <> l /\ c <> it /\ a <> l /\ a <> it) as (?&?&?&?&?)
    by (repeat split; congruence).
  pose proof (cstrlen_lt _ _ Hn).
  unfold load_at, store_at, _process_string_copy.
  step load_field_ok. rewrite Hf.
  step strlen_ok.
  step calloc_ok. fold c.
  step store_cell_ok.
  step strlen_ok.
  erewrite bind_Ret
    by (eapply load_cell_ok; [look | apply list_lookup_insert_eq; lia]).
  cbv beta. rewrite ?bind_assoc.
  erewrite bind_Ret
    by (eapply memcpy_ok; [look | look | rewrite length_replicate; lia | lia]).
  cbv beta.
  step load_field_ok. rewrite Hf.
  erewrite store_cell_ok by (first [look | rewrite length_insert; lia]).
  rewrite copy_bytes by lia.
  f_equal. f_equal.
  rewrite fill_slots by assumption.
  apply map_eq. intros x.
  destruct (decide (x = a)) as [Ea|Ea];
    [rewrite Ea; simpl_lookup; reflexivity|].
  destruct (decide (x = c)) as [Ec|Ec];
    [rewrite Ec; simpl_lookup; reflexivity|].
  simpl_lookup; reflexivity.
Qed.

Lemma fresh_None (h : gmap loc object) : h !! fresh (dom h) = None.
Proof. apply not_elem_of_dom, is_fresh. Qed.

Lemma resize_packed old :
  length (resize (length old + 2) (packed old)) = (length old + 2)%nat
  /\ take (length old) (resize (length old + 2) (packed old))
     = (fun l => Ptr (Some l)) <$> old.
Proof.
  unfold resize. rewrite take_ge by (rewrite length_packed; lia).
  rewrite length_app, length_replicate, length_packed. split; [lia|].
  unfold packed. rewrite <- app_assoc.
  rewrite take_app_length' by (now rewrite length_fmap). reflexivity.
Qed.

Lemma push_spec h t l P f old it bs n :
  h !! l = Some (Struct P) ->
  owns h (get_field f P) old ->
  h !! it = Some (Bytes bs) ->
  cstrlen bs = Some n ->
  exists a c,
    _process_array_push (Some (Field (Some l) f)) (Some it) (mkState h t)
    = Ret tt (mkState (pushed h l f P old (take n bs) a c) t)
    /\ h !! c = None /\ c <> a /\ a <> l
    /\ (get_field f P = Some a \/ (get_field f P = NULL /\ h !! a = None)).
Proof.
  intros Hl Hown Hit Hn. unfold _process_array_push, pushed.
  unfold load_at at 1 2. unfold store_at at 1.
  destruct (get_field f P) as [a|] eqn:Hf; simpl in Hown.
  - (* the list exists: the block is resized in place *)
    assert (a <> l /\ a <> it) as [? ?] by (split; congruence).
    step load_field_ok. rewrite Hf.
    erewrite bind_Ret
      by (eapply count_ok; [eassumption | apply scan_packed]).
    cbv beta.
    step load_field_ok. rewrite Hf.
    step realloc_ok.
    step store_field_ok.
    set (h2 := <[l := _]> (<[a := _]> h)).
    destruct (resize_packed old) as [Hlen Htake].
    set (c := fresh (dom h2)).
    assert (Hc2 : h2 !! c = None) by apply fresh_None.
    unfold h2 in Hc2.
    apply lookup_insert_None in Hc2 as [Hc2 ?].
    apply lookup_insert_None in Hc2 as [Hc ?].
    exists a, c.
    split; [|repeat split; try congruence; now left].
    erewrite push_tail with (P := set_field f (Some a) P) (old := old) (a := a);
      try eassumption; try (subst h2; look); try apply get_set_field.
    fold c. f_equal. f_equal. apply map_eq. intros x. subst h2.
    destruct (decide (x = a)) as [Ea|Ea];
      [rewrite Ea; simpl_lookup; reflexivity|].
    destruct (decide (x = c)) as [Ec|Ec];
      [rewrite Ec; simpl_lookup; reflexivity|].
    destruct (decide (x = l)) as [El|El];
      [rewrite El; simpl_lookup; reflexivity|].
    simpl_lookup. reflexivity.
  - (* the list is absent: a new block of two slots *)
    subst old.
    step load_field_ok. rewrite Hf.
    rewrite (bind_Ret _ _ _ _ _ (count_null _ _)).
    step load_field_ok. rewrite Hf.
    rewrite (bind_Ret _ _ _ _ _ (realloc_null _ _ _)).
    set (a := fresh (dom h)).
    assert (Ha : h !! a = None) by apply fresh_None.
    assert (a <> l /\ a <> it) as [? ?] by (split; congruence).
    step store_field_ok.
    set (h2 := <[l := _]> (<[a := _]> h)).
    set (c := fresh (dom h2)).
    assert (Hc2 : h2 !! c = None) by apply fresh_None.
    unfold h2 in Hc2.
    apply lookup_insert_None in Hc2 as [Hc2 ?].
    apply lookup_insert_None in Hc2 as [Hc ?].
    exists a, c.
    split; [|repeat split; try congruence; now right].
    erewrite push_tail with (P := set_field f (Some a) P) (old := []) (a := a);
      try eassumption; try (subst h2; look); try apply get_set_field;
      try reflexivity.
    fold c. f_equal. f_equal. apply map_eq. intros x. subst h2.
    destruct (decide (x = a)) as [Ea|Ea];
      [rewrite Ea; simpl_lookup; reflexivity|].
    destruct (decide (x = c)) as [Ec|Ec];
      [rewrite Ec; simpl_lookup; reflexivity|].
    destruct (decide (x = l)) as [El|El];
      [rewrite El; simpl_lookup; reflexivity|].
    simpl_lookup. reflexivity.
Qed.

Section Pushed.
Context (h : gmap loc object) (l : loc) (f : field) (P : Process).
Context (old : list loc) (str : list byte) (a c : loc).

Lemma pushed_other x :
  x <> l -> x <> a -> x <> c -> pushed h l f P old str a c !! x = h !! x.
Proof. intros. unfold pushed. now simpl_lookup. Qed.

Lemma pushed_handle :
  a <> l -> c <> l ->
  pushed h l f P old str a c !! l = Some (Struct (set_field f (Some a) P)).
Proof. intros. unfold pushed. now simpl_lookup. Qed.

Lemma pushed_array :
  pushed h l f P old str a c !! a = Some (Slots (packed (old ++ [c]))).
Proof. unfold pushed. now simpl_lookup. Qed.

Lemma pushed_copy :
  c <> a -> pushed h l f P old str a c !! c = Some (Bytes (str ++ [x00])).
Proof. intros. unfold pushed. now simpl_lookup. Qed.

Lemma pushed_None x :
  pushed h l f P old str a c !! x = None -> h !! x = None /\ x <> c.
Proof.
  unfold pushed. intros E.
  apply lookup_insert_None in E as [E ?].
  apply lookup_insert_None in E as [E ?].
  apply lookup_insert_None in E as [E ?]. split; congruence.
Qed.

End Pushed.

Lemma string_at_Some h b str :
  string_at h b = Some str ->
  exists bs n, h !! b = Some (Bytes bs) /\ cstrlen bs = Some n
               /\ str = take n bs.
Proof.
  unfold string_at, cstring_of. destruct (h !! b) as [[bs| |]|]; try discriminate.
  destruct (cstrlen bs) as [n|] eqn:E; simpl; [|discriminate].
  intros [= <-]. eauto.
Qed.

Lemma string_at_copy h c bs n :
  h !! c = Some (Bytes (take n bs ++ [x00])) -> cstrlen bs = Some n ->
  string_at h c = Some (take n bs).
Proof.
  intros E Hn. unfold string_at. rewrite E, (cstring_of_copy _ _ Hn).
  unfold cstring_of. now rewrite Hn.
Qed.

(** After one append, every block that is neither the handle nor its
    array is as it was. *)
Lemma push_frame h t l P f old it bs n :
  h !! l = Some (Struct P) ->
  owns h (get_field f P) old ->
  h !! it = Some (Bytes bs) ->
  cstrlen bs = Some n ->
  exists a c,
    let h1 := pushed h l f P old (take n bs) a c in
    _process_array_push (Some (Field (Some l) f)) (Some it) (mkState h t)
    = Ret tt (mkState h1 t)
    /\ h !! c = None /\ c <> a /\ a <> l /\ c <> l
    /\ (get_field f P = Some a \/ (get_field f P = NULL /\ h !! a = None))
    /\ (forall x o, h !! x = Some o -> x <> l ->
                    get_field f P <> Some x -> h1 !! x = Some o).
Proof.
  intros Hl Hown Hb Hn.
  destruct (push_spec h t l P f old it bs n Hl Hown Hb Hn)
    as (a & c & Hrun & Hc & Hca & Hal & Ha).
  exists a, c. cbv zeta. repeat split; auto; try congruence.
  - intros x o Hx Hxl Hxa. rewrite pushed_other; auto.
    + destruct Ha as [Ha|[_ Ha]]; congruence.
    + congruence.
Qed.

Lemma strings_kept (h h1 : gmap loc object) (Q : loc -> Prop) items strs :
  (forall x o, h !! x = Some o -> Q x -> h1 !! x = Some o) ->
  (forall x bs, h !! x = Some (Bytes bs) -> Q x) ->
  Forall2 (fun it str => string_at h it = Some str) items strs ->
  Forall2 (fun it str => string_at h1 it = Some str) items strs.
Proof.
  intros Hkeep HQ Hi. eapply Forall2_impl; [exact Hi|].
  intros x str Hx. cbn beta in *.
  destruct (string_at_Some _ _ _ Hx) as (bs & n & Hb & _ & _).
  unfold string_at in *. rewrite (Hkeep x (Bytes bs)); eauto.
  now rewrite Hb in Hx.
Qed.

Lemma pushes_to_push l f :
  pushes_to l f (_process_array_push (Some (Field (Some l) f))).
Proof. now intros h t P old it bs n _ _ _ _. Qed.

Lemma appends_spec f l add items : forall strs h t P old,
  pushes_to l f add ->
  h !! l = Some (Struct P) ->
  owns h (get_field f P) old ->
  Forall2 (fun it str => string_at h it = Some str) items strs ->
  exists h' copies,
    appends add items (mkState h t) = Ret tt (mkState h' t)
    /\ appended h h' l f P old copies strs.
Proof.
  induction items as [|it items IH]; intros strs h t P old Hadd Hl Hown Hstrs.
  - inversion Hstrs; subst. exists h, []. split; [reflexivity|].
    split; try constructor.
    + exists (get_field f P). rewrite set_get_field, app_nil_r. auto.
    + auto.
  - inversion Hstrs as [|? str ? strs' Hit Hrest]; subst.
    destruct (string_at_Some _ _ _ Hit) as (bs & n & Hb & Hn & ->).
    destruct (push_frame h t l P f old it bs n Hl Hown Hb Hn)
      as (a & c & Hrun & Hc & Hca & Hal & Hcl & Ha & Hkeep).
    cbv zeta in *. rewrite <- (Hadd _ _ _ _ _ _ _ Hl Hown Hb Hn) in Hrun.
    set (h1 := pushed h l f P old (take n bs) a c) in *.
    assert (Hrest1 : Forall2 (fun it str => string_at h1 it = Some str)
                       items strs').
    { apply strings_kept with (h := h)
        (Q := fun x => x <> l /\ get_field f P <> Some x); auto.
      - intros x o Hx [? ?]. now apply Hkeep.
      - intros x bs' Hx. split; [congruence|].
        intros Hfx. rewrite Hfx in Hown. simpl in Hown. congruence. }
    destruct (IH strs' h1 t (set_field f (Some a) P) (old ++ [c]))
      as (h' & copies & Hrun' & Hpost); auto.
    { unfold h1. now apply pushed_handle. }
    { rewrite get_set_field. simpl. unfold h1. apply pushed_array. }
    destruct Hpost as [(arr & Hl' & Hown' & Harr) Hs Hf Hn' Hfr].
    rewrite get_set_field in Hfr.
    assert (Hc' : h' !! c = Some (Bytes (take n bs ++ [x00]))).
    { apply Hfr; [|congruence|congruence]. unfold h1. now apply pushed_copy. }
    exists h', (c :: copies). split.
    { simpl. now rewrite (bind_Ret _ _ _ _ _ Hrun). }
    split.
    + exists arr. rewrite set_set_field in Hl'.
      rewrite <- app_assoc in Hown'. simpl in Hown'. repeat split; auto.
      discriminate.
    + constructor; [|exact Hs]. now apply string_at_copy.
    + constructor; [exact Hc|].
      eapply Forall_impl; [exact Hf|]. intros x Hx. cbn beta in Hx.
      now apply pushed_None in Hx.
    + constructor; [|exact Hn'].
      intros Hin. rewrite Forall_forall in Hf. specialize (Hf c Hin).
      apply pushed_None in Hf. now destruct Hf.
    + intros x o Hx Hxl Hxa. apply Hfr; auto.
      intros [= ->]. destruct Ha as [Ha|[_ Ha]]; congruence.
Qed.

(** *** The loops of [process_add_args] and [process_add_envs] *)

Lemma entries_of_lookup cs ls :
  entries_of cs = Some ls ->
  (forall i it, ls !! i = Some it -> cs !! i = Some (Ptr (Some it)))
  /\ cs !! length ls = Some (Ptr NULL).
Proof.
  revert ls. induction cs as [|[|[x|]] cs IH]; intros ls; simpl;
    try discriminate.
  - destruct (entries_of cs) as [ls'|]; [|discriminate]. intros [= <-].
    destruct (IH ls' eq_refl) as [IH1 IH2]. split; [|exact IH2].
    intros [|i] it; simpl; [now intros [= ->]|apply IH1].
  - intros [= <-]. split; [intros i it; now rewrite lookup_nil|reflexivity].
Qed.

Lemma add_loop_appends f l (add : ptr -> ptr -> M unit) ua ucs uls :
  pushes_to l f (add (Some l)) ->
  entries_of ucs = Some uls ->
  forall k i fuel strs h t P old,
    length uls = (i + k)%nat -> (k < fuel)%nat ->
    h !! l = Some (Struct P) ->
    owns h (get_field f P) old ->
    h !! ua = Some (Slots ucs) ->
    get_field f P <> Some ua ->
    Forall2 (fun it str => string_at h it = Some str) (drop i uls) strs ->
    add_loop add fuel (Some l) (Some ua) i (mkState h t)
    = appends (add (Some l)) (drop i uls) (mkState h t).
Proof.
  intros Hadd Hent. destruct (entries_of_lookup _ _ Hent) as [Hcell Hend].
  induction k as [|k IH]; intros i fuel strs h t P old Hlen Hfuel Hl Hown Hua
    Hne Hstrs; (destruct fuel as [|fuel]; [lia|]); simpl add_loop.
  - rewrite drop_ge by lia. simpl.
    erewrite bind_Ret
      by (eapply load_cell_ok; [eassumption|];
          replace i with (length uls) by lia; exact Hend).
    reflexivity.
  - destruct (lookup_lt_is_Some_2 uls i) as [it Hit]; [lia|].
    rewrite (drop_S _ _ _ Hit) in *. simpl appends.
    inversion Hstrs as [|? str ? strs' Hstr Hrest]; subst.
    erewrite bind_Ret by (eapply load_cell_ok; eauto). cbv beta iota.
    erewrite bind_Ret by (eapply load_cell_ok; eauto). cbv beta.
    destruct (string_at_Some _ _ _ Hstr) as (bs & n & Hb & Hn & ->).
    destruct (push_frame h t l P f old it bs n Hl Hown Hb Hn)
      as (a & c & Hrun & Hc & Hca & Hal & Hcl & Ha & Hkeep).
    cbv zeta in *. rewrite <- (Hadd _ _ _ _ _ _ _ Hl Hown Hb Hn) in Hrun.
    rewrite !(bind_Ret _ _ _ _ _ Hrun).
    eapply IH with (P := set_field f (Some a) P) (old := old ++ [c]);
      try lia.
    + now apply pushed_handle.
    + rewrite get_set_field. simpl. apply pushed_array.
    + apply Hkeep; auto. congruence.
    + rewrite get_set_field. intros [= ->].
      destruct Ha as [Ha|[_ Ha]]; congruence.
    + apply strings_kept with (h := h)
        (Q := fun x => x <> l /\ get_field f P <> Some x); eauto.
      * intros x o Hx [? ?]. now apply Hkeep.
      * intros x bs' Hx. split; [congruence|].
        intros Hfx. rewrite Hfx in Hown. simpl in Hown. congruence.
Qed.

Lemma add_loop_spec f l (add : ptr -> ptr -> M unit) args uls strs fuel
    h t P old :
  pushes_to l f (add (Some l)) ->
  entries h args = Some uls ->
  Forall2 (fun it str => string_at h it = Some str) uls strs ->
  (length uls < fuel)%nat ->
  h !! l = Some (Struct P) ->
  owns h (get_field f P) old ->
  get_field f P = NULL \/ get_field f P <> args ->
  exists h' copies,
    add_loop add fuel (Some l) args 0 (mkState h t) = Ret tt (mkState h' t)
    /\ appended h h' l f P old copies strs.
Proof.
  intros Hadd Hent Hstrs Hfuel Hl Hown Hne.
  destruct args as [ua|]; simpl in Hent.
  - destruct (h !! ua) as [[|ucs|]|] eqn:Hua; try discriminate.
    erewrite add_loop_appends with (k := length uls); eauto.
    + eapply appends_spec; eauto.
    + destruct Hne as [->|]; congruence.
  - injection Hent as <-. inversion Hstrs; subst.
    destruct fuel; [lia|]. simpl.
    eapply (appends_spec f l (add (Some l)) [] []); eauto.
Qed.

(** *** [process_create] *)

Lemma strings_mono (h h' : gmap loc object) (Q : loc -> Prop) arr strs :
  (forall x o, h !! x = Some o -> Q x -> h' !! x = Some o) ->
  (forall x cs, h !! x = Some (Slots cs) -> Q x) ->
  (forall x bs, h !! x = Some (Bytes bs) -> Q x) ->
  strings h arr = Some strs -> strings h' arr = Some strs.
Proof.
  intros Hkeep Hs Hb. unfold strings.
  destruct (entries h arr) as [ls|] eqn:He; [|discriminate]. simpl.
  intros Hm. apply mapM_Some in Hm.
  assert (He' : entries h' arr = Some ls).
  { destruct arr as [a|]; [|exact He]. simpl in *.
    destruct (h !! a) as [[|cs|]|] eqn:Ha; try discriminate.
    now rewrite (Hkeep a (Slots cs) Ha (Hs _ _ Ha)). }
  rewrite He'. simpl. apply mapM_Some.
  eapply strings_kept; eauto.
Qed.

Lemma strings_intro h arr copies strs :
  owns h arr copies ->
  Forall2 (fun c str => string_at h c = Some str) copies strs ->
  strings h arr = Some strs.
Proof.
  intros Hown Hs. unfold strings.
  assert (He : entries h arr = Some copies).
  { destruct arr as [a|]; simpl in *; [|now subst].
    rewrite Hown. apply entries_of_packed. }
  rewrite He. simpl. now apply mapM_Some.
Qed.

Lemma strings_elim h arr strs :
  strings h arr = Some strs ->
  exists ls, entries h arr = Some ls
             /\ Forall2 (fun c str => string_at h c = Some str) ls strs.
Proof.
  unfold strings. destruct (entries h arr) as [ls|]; [|discriminate]. simpl.
  intros Hm. apply mapM_Some in Hm. eauto.
Qed.

(** The state in which [process_create] starts to append: a new handle at
    [p] with a copy [b] of the path. *)
Ltac run_create_prefix h path0 bs n Hb Hn :=
  pose proof (cstrlen_lt _ _ Hn);
  set (p := fresh (dom h));
  assert (Hp : h !! p = None) by apply fresh_None;
  set (h0 := <[p := Struct (mkProcess NULL NULL NULL (-1) (-1) (-1) (-1))]> h);
  set (b := fresh (dom h0));
  assert (Hb0 : h0 !! b = None) by apply fresh_None;
  unfold h0 in Hb0; apply lookup_insert_None in Hb0 as [Hbh Hpb];
  assert (p <> path0) by congruence;
  assert (Hp0 : h0 !! p
                = Some (Struct (mkProcess NULL NULL NULL (-1) (-1) (-1) (-1))))
    by (unfold h0; now simpl_lookup);
  assert (Hpath0 : h0 !! path0 = Some (Bytes bs))
    by (unfold h0; now simpl_lookup);
  exists p, b; eexists;
  split; [|split; [exact Hp|split; [exact Hbh|split; [exact Hpb|]]]];
  [ unfold malloc_Process, _process_string_copy, store_at, load_at;
    step alloc_ok; fold p;
    do 3 step store_field_ok; do 4 step write_int_ok;
    rewrite !insert_insert_eq;
    change (set_pid (-1) _)
      with (mkProcess NULL NULL NULL (-1) (-1) (-1) (-1));
    fold h0;
    repeat first
      [ step strlen_ok
      | step calloc_ok; fold b
      | step store_field_ok
      | step load_field_ok;
        cbn [get_field set_field path argv envp in_ out err pid]
      | erewrite bind_Ret
          by (eapply memcpy_ok;
              [look | look | rewrite length_replicate; lia | lia]);
        cbv beta; rewrite ?bind_assoc ];
    rewrite copy_bytes by lia; reflexivity
  | repeat split;
    [ now simpl_lookup
    | now simpl_lookup
    | intros x Hxp Hxb; unfold h0; now simpl_lookup ] ].

Lemma create_prefix h t path0 bs n (k : ptr -> M ptr) :
  h !! path0 = Some (Bytes bs) ->
  cstrlen bs = Some n ->
  exists p b h1,
    (p <- malloc_Process;
     store (Field p f_path) NULL;;
     store (Field p f_argv) NULL;;
     store (Field p f_envp) NULL;;
     write_int set_in p (-1);;
     write_int set_out p (-1);;
     write_int set_err p (-1);;
     write_int set_pid p (-1);;
     _process_string_copy (Some (Field p f_path)) (Some path0);;
     k p) (mkState h t)
    = k (Some p) (mkState h1 t)
    /\ create_prefix_post h bs n p b h1.
Proof.
  intros Hb Hn. unfold create_prefix_post.
  run_create_prefix h path0 bs n Hb Hn.
Qed.

Lemma earlier_create_prefix h t path0 bs n (k : ptr -> M ptr) :
  h !! path0 = Some (Bytes bs) ->
  cstrlen bs = Some n ->
  exists p b h1,
    (p <- malloc_Process;
     store (Field p f_path) NULL;;
     store (Field p f_argv) NULL;;
     store (Field p f_envp) NULL;;
     write_int set_in p (-1);;
     write_int set_out p (-1);;
     write_int set_err p (-1);;
     write_int set_pid p (-1);;
     n <- strlen (Some path0);
     b <- calloc (n + 1);
     store (Field p f_path) b;;
     d <- load (Field p f_path);
     n <- strlen (Some path0);
     memcpy d (Some path0) n;;
     k p) (mkState h t)
    = k (Some p) (mkState h1 t)
    /\ create_prefix_post h bs n p b h1.
Proof.
  intros Hb Hn. unfold create_prefix_post.
  run_create_prefix h path0 bs n Hb Hn.
Qed.

Lemma string_at_mono (h h' : gmap loc object) c str :
  (forall bs, h !! c = Some (Bytes bs) -> h' !! c = Some (Bytes bs)) ->
  string_at h c = Some str -> string_at h' c = Some str.
Proof.
  intros Hk Hs. destruct (string_at_Some _ _ _ Hs) as (bs & n & Hb & _ & _).
  unfold string_at in *. rewrite (Hk bs Hb). now rewrite Hb in Hs.
Qed.

Lemma Forall2_string_at_mono (h h' : gmap loc object) ls strs :
  (forall c bs, h !! c = Some (Bytes bs) -> h' !! c = Some (Bytes bs)) ->
  Forall2 (fun c str => string_at h c = Some str) ls strs ->
  Forall2 (fun c str => string_at h' c = Some str) ls strs.
Proof.
  intros Hk HF. eapply Forall2_impl; [exact HF|].
  intros c str. apply string_at_mono. apply Hk.
Qed.

(** The two loops of [process_create], from a handle whose argument list
    holds [old] and whose environment list is absent. *)
Lemma create_tail (add_a add_e : ptr -> ptr -> M unit) fuel h t p P
    old olds argv0 envp0 astrs estrs :
  pushes_to p f_argv (add_a (Some p)) ->
  pushes_to p f_envp (add_e (Some p)) ->
  h !! p = Some (Struct P) ->
  envp P = NULL ->
  owns h (argv P) old ->
  Forall2 (fun c str => string_at h c = Some str) old olds ->
  strings h argv0 = Some astrs ->
  strings h envp0 = Some estrs ->
  argv P = NULL \/ (argv P <> argv0 /\ argv P <> envp0) ->
  (length astrs < fuel)%nat ->
  (length estrs < fuel)%nat ->
  exists h' P',
    (add_loop add_a fuel (Some p) argv0 0;;
     add_loop add_e fuel (Some p) envp0 0;;
     ret (Some p)) (mkState h t) = Ret (Some p) (mkState h' t)
    /\ h' !! p = Some (Struct P')
    /\ path P' = path P /\ in_ P' = in_ P /\ out P' = out P
    /\ err P' = err P /\ pid P' = pid P
    /\ strings h' (argv P') = Some (olds ++ astrs)
    /\ strings h' (envp P') = Some estrs
    /\ (forall x o, h !! x = Some o -> x <> p -> argv P <> Some x ->
                    h' !! x = Some o).
Proof.
  intros Hadd_a Hadd_e Hp Henv Hown Holds Ha He Hali Hfa Hfe.
  destruct (strings_elim _ _ _ Ha) as (la & Hla & Hsa).
  destruct (strings_elim _ _ _ He) as (le & Hle & Hse).
  pose proof (Forall2_length _ _ _ Hsa) as Hlena.
  pose proof (Forall2_length _ _ _ Hse) as Hlene.
  (* the arguments *)
  destruct (add_loop_spec f_argv p add_a argv0 la astrs fuel h t P old)
    as (h2 & ca & Hrun2 & [(arr_a & Hp2 & Hown2 & _) Hs2 Hf2 Hn2 Hfr2]);
    auto; try lia.
  { simpl. destruct Hali as [?|[? _]]; auto. }
  simpl get_field in Hfr2.
  assert (Hkeep2 : forall x bs, h !! x = Some (Bytes bs) ->
                                h2 !! x = Some (Bytes bs)).
  { intros x bs Hx. apply Hfr2; auto; [congruence|].
    intros Hax. rewrite Hax in Hown. simpl in Hown. congruence. }
  (* the environment *)
  assert (Hle2 : entries h2 envp0 = Some le).
  { destruct envp0 as [ue|]; [|exact Hle]. simpl in *.
    destruct (h !! ue) as [[|ucs|]|] eqn:Hue; try discriminate.
    rewrite (Hfr2 ue (Slots ucs)); auto; [congruence|].
    destruct Hali as [->|[_ ?]]; congruence. }
  destruct (add_loop_spec f_envp p add_e envp0 le estrs fuel h2 t
              (set_field f_argv arr_a P) [])
    as (h3 & ce & Hrun3 & [(arr_e & Hp3 & Hown3 & _) Hs3 Hf3 Hn3 Hfr3]);
    auto; try lia.
  { eapply Forall2_string_at_mono; eauto. }
  { simpl. now rewrite Henv. }
  simpl get_field in Hfr3. rewrite Henv in Hfr3.
  assert (Hkeep3 : forall x o, h2 !! x = Some o -> x <> p ->
                               h3 !! x = Some o)
    by (intros; apply Hfr3; auto).
  exists h3, (set_field f_envp arr_e (set_field f_argv arr_a P)).
  split.
  { rewrite (bind_Ret _ _ _ _ _ Hrun2), (bind_Ret _ _ _ _ _ Hrun3).
    reflexivity. }
  split; [exact Hp3|]. simpl. repeat split; auto.
  - apply strings_intro with (copies := old ++ ca).
    + destruct arr_a as [a|]; simpl in *; [|exact Hown2].
      apply Hkeep3; auto. congruence.
    + apply Forall2_app.
      * eapply Forall2_string_at_mono; [|exact Holds].
        intros c bs Hc. apply Hkeep3; [now apply Hkeep2|congruence].
      * eapply Forall2_string_at_mono; [|exact Hs2].
        intros c bs Hc. apply Hkeep3; [exact Hc|congruence].
  - apply strings_intro with (copies := ce); auto.
Qed.

(** *** The earlier revision appends in the same way *)

Lemma pushes_to_add_arg p : pushes_to p f_argv (process_add_arg (Some p)).
Proof. now intros h t P old it bs n _ _ _ _. Qed.

Lemma pushes_to_add_env p : pushes_to p f_envp (process_add_env (Some p)).
Proof. now intros h t P old it bs n _ _ _ _. Qed.

Ltac run_push Hf c :=
  repeat first
    [ step load_field_ok; rewrite ?get_set_field, ?Hf
    | step count_ok
    | step realloc_ok
    | step store_field_ok
    | step strlen_ok
    | step calloc_ok; rewrite ?c
    | step store_cell_ok
    | erewrite bind_Ret
        by (eapply load_cell_ok;
            [look | first [apply list_lookup_insert_eq; lia | reflexivity]]);
      cbv beta; rewrite ?bind_assoc
    | erewrite bind_Ret
        by (eapply memcpy_ok;
            [look | look | rewrite length_replicate; lia | lia]);
      cbv beta; rewrite ?bind_assoc ].

Lemma inline_push_eq l f (add : M unit) h t P old it bs n :
  (add = (a <- load (Field (Some l) f);
          argc <- _process_array_count a;
          a <- load (Field (Some l) f);
          a' <- realloc a (argc + 2);
          store (Field (Some l) f) a';;
          n <- strlen (Some it);
          b <- calloc (n + 1);
          a <- load (Field (Some l) f);
          store (Cell a argc) b;;
          a <- load (Field (Some l) f);
          d <- load (Cell a argc);
          n <- strlen (Some it);
          memcpy d (Some it) n;;
          a <- load (Field (Some l) f);
          store (Cell a (argc + 1)) NULL)) ->
  h !! l = Some (Struct P) ->
  owns h (get_field f P) old ->
  h !! it = Some (Bytes bs) ->
  cstrlen bs = Some n ->
  add (mkState h t)
  = _process_array_push (Some (Field (Some l) f)) (Some it) (mkState h t).
Proof.
  intros -> Hl Hown Hb Hn. pose proof (cstrlen_lt _ _ Hn).
  unfold _process_array_push, _process_string_copy, load_at, store_at.
  destruct (resize_packed old) as [Hlen Htake].
  destruct (get_field f P) as [a|] eqn:Hf; simpl in Hown.
  - assert (a <> l /\ a <> it /\ it <> l) as (? & ? & ?)
      by (repeat split; congruence).
    pose proof (scan_packed old) as Hscan.
    set (h2 := <[l := Struct (set_field f (Some a) P)]>
                 (<[a := Slots (resize (length old + 2) (packed old))]> h)).
    set (c := fresh (dom h2)).
    assert (Hc2 : h2 !! c = None) by apply fresh_None.
    unfold h2 in Hc2.
    apply lookup_insert_None in Hc2 as [Hc2 ?].
    apply lookup_insert_None in Hc2 as [Hc ?].
    assert (c <> it) by congruence.
    assert (Hceq : fresh (dom h2) = c) by reflexivity.
    unfold h2 in Hceq. clearbody c. clear h2.
    etransitivity; [|symmetry].
    + run_push Hf Hceq.
      erewrite store_cell_ok by (first [look | rewrite length_insert; lia]).
      reflexivity.
    + run_push Hf Hceq.
      erewrite store_cell_ok by (first [look | rewrite length_insert; lia]).
      reflexivity.
  - subst old.
    set (a := fresh (dom h)).
    assert (Ha : h !! a = None) by apply fresh_None.
    assert (a <> l /\ a <> it /\ it <> l) as (? & ? & ?)
      by (repeat split; congruence).
    set (h2 := <[l := Struct (set_field f (Some a) P)]>
                 (<[a := Slots (replicate (0 + 2) Uninit)]> h)).
    set (c := fresh (dom h2)).
    assert (Hc2 : h2 !! c = None) by apply fresh_None.
    unfold h2 in Hc2.
    apply lookup_insert_None in Hc2 as [Hc2 ?].
    apply lookup_insert_None in Hc2 as [Hc ?].
    assert (c <> it) by congruence.
    assert (Hceq : fresh (dom h2) = c) by reflexivity.
    unfold h2 in Hceq. clearbody c. clear h2.
    etransitivity; [|symmetry].
    + step load_field_ok. rewrite Hf.
      rewrite (bind_Ret _ _ _ _ _ (count_null _ _)).
      step load_field_ok. rewrite Hf.
      rewrite (bind_Ret _ _ _ _ _ (realloc_null _ _ _)). fold a.
      run_push Hf Hceq.
      erewrite store_cell_ok by (first [look | simpl; lia]).
      reflexivity.
    + step load_field_ok. rewrite Hf.
      rewrite (bind_Ret _ _ _ _ _ (count_null _ _)).
      step load_field_ok. rewrite Hf.
      rewrite (bind_Ret _ _ _ _ _ (realloc_null _ _ _)). fold a.
      run_push Hf Hceq.
      erewrite store_cell_ok by (first [look | simpl; lia]).
      reflexivity.
Qed.

Lemma pushes_to_earlier_add_arg p :
  pushes_to p f_argv (Earlier.process_add_arg (Some p)).
Proof.
  intros h t P old it bs n. now apply inline_push_eq.
Qed.

Lemma pushes_to_earlier_add_env p :
  pushes_to p f_envp (Earlier.process_add_env (Some p)).
Proof.
  intros h t P old it bs n. now apply inline_push_eq.
Qed.

Lemma strings_is_Some h arr strs :
  strings h arr = Some strs ->
  forall a, arr = Some a -> exists cs, h !! a = Some (Slots cs).
Proof.
  unfold strings. intros Hs a ->. simpl in Hs.
  destruct (h !! a) as [[|cs|]|]; try discriminate. eauto.
Qed.

Lemma create_spec fuel h t path0 argv0 envp0 pstr astrs estrs :
  string_at h path0 = Some pstr ->
  strings h argv0 = Some astrs ->
  strings h envp0 = Some estrs ->
  (length astrs < fuel)%nat ->
  (length estrs < fuel)%nat ->
  exists p s',
    process_create fuel (Some path0) argv0 envp0 (mkState h t)
    = Ret (Some p) s'
    /\ created (mkState h t) s' p pstr astrs estrs.
Proof.
  intros Hpath Ha He Hfa Hfe.
  destruct (string_at_Some _ _ _ Hpath) as (bs & n & Hb & Hn & ->).
  unfold process_create.
  destruct (create_prefix h t path0 bs n
              (fun p => process_add_args fuel p argv0;;
                        process_add_envs fuel p envp0;; ret p) Hb Hn)
    as (p & b & h1 & Hrun & Hp & Hbn & Hpb & Hp1 & Hb1 & Hfr1).
  rewrite Hrun. clear Hrun.
  assert (Hkeep1 : forall x o, h !! x = Some o -> h1 !! x = Some o).
  { intros x o Hx. rewrite Hfr1; auto; congruence. }
  destruct (create_tail process_add_arg process_add_env fuel h1 t p
              (mkProcess (Some b) NULL NULL (-1) (-1) (-1) (-1))
              [] [] argv0 envp0 astrs estrs)
    as (h' & P' & Hrun & Hp' & Hpa & Hi & Ho & Her & Hpi & Hsa & Hse & Hfr);
    auto using pushes_to_add_arg, pushes_to_add_env.
  { reflexivity. }
  { eapply strings_mono with (h := h) (Q := fun _ => True); eauto. }
  { eapply strings_mono with (h := h) (Q := fun _ => True); eauto. }
  exists p, (mkState h' t). split; [exact Hrun|].
  simpl in *. split; simpl; auto.
  - exists P', b. repeat split; auto.
    apply string_at_copy; auto.
  - intros x o Hx. apply Hfr; auto; congruence.
Qed.

Lemma earlier_create_spec fuel h t path0 argv0 envp0 pstr astrs estrs :
  string_at h path0 = Some pstr ->
  strings h argv0 = Some astrs ->
  strings h envp0 = Some estrs ->
  (length astrs < fuel)%nat ->
  (length estrs < fuel)%nat ->
  exists p s',
    Earlier.process_create fuel (Some path0) argv0 envp0 (mkState h t)
    = Ret (Some p) s'
    /\ created (mkState h t) s' p pstr (pstr :: astrs) estrs.
Proof.
  intros Hpath Ha He Hfa Hfe.
  destruct (string_at_Some _ _ _ Hpath) as (bs & n & Hb & Hn & ->).
  unfold Earlier.process_create.
  destruct (earlier_create_prefix h t path0 bs n
              (fun p => Earlier.process_add_arg p (Some path0);;
                        add_loop Earlier.process_add_arg fuel p argv0 0;;
                        add_loop Earlier.process_add_env fuel p envp0 0;;
                        ret p) Hb Hn)
    as (p & b & h1 & Hrun & Hp & Hbn & Hpb & Hp1 & Hb1 & Hfr1).
  rewrite Hrun. clear Hrun.
  assert (Hkeep1 : forall x o, h !! x = Some o -> h1 !! x = Some o).
  { intros x o Hx. rewrite Hfr1; auto; congruence. }
  set (P1 := mkProcess (Some b) NULL NULL (-1) (-1) (-1) (-1)) in *.
  (* the path becomes the first argument *)
  assert (Hb1' : h1 !! path0 = Some (Bytes bs)) by auto.
  destruct (push_frame h1 t p P1 f_argv [] path0 bs n Hp1 eq_refl Hb1' Hn)
    as (a & c & Hpush & Hc & Hca & Hap & Hcp & Ha1 & Hkeep2).
  cbv zeta in *.
  rewrite <- (pushes_to_earlier_add_arg p h1 t P1 [] path0 bs n) in Hpush;
    auto; [|reflexivity].
  rewrite (bind_Ret _ _ _ _ _ Hpush). clear Hpush.
  destruct Ha1 as [Ha1|[_ Ha1]]; [discriminate|].
  set (h2 := pushed h1 p f_argv P1 [] (take n bs) a c) in *.
  simpl get_field in Hkeep2.
  assert (Hkeep2' : forall x o, h1 !! x = Some o -> x <> p ->
                                h2 !! x = Some o)
    by (intros; apply Hkeep2; auto; discriminate).
  assert (Hkeep12 : forall x o, h !! x = Some o -> h2 !! x = Some o).
  { intros x o Hx. apply Hkeep2'; auto. congruence. }
  destruct (create_tail Earlier.process_add_arg Earlier.process_add_env
              fuel h2 t p (set_field f_argv (Some a) P1)
              [c] [take n bs] argv0 envp0 astrs estrs)
    as (h' & P' & Hrun & Hp' & Hpa & Hi & Ho & Her & Hpi & Hsa & Hse & Hfr);
    auto using pushes_to_earlier_add_arg, pushes_to_earlier_add_env.
  { unfold h2. now apply pushed_handle. }
  { simpl. unfold h2. apply pushed_array. }
  { constructor; [|constructor]. apply string_at_copy; auto.
    unfold h2. now apply pushed_copy. }
  { eapply strings_mono with (h := h) (Q := fun _ => True); eauto. }
  { eapply strings_mono with (h := h) (Q := fun _ => True); eauto. }
  { right. simpl. split; intros E.
    - destruct (strings_is_Some _ _ _ Ha a) as [cs Hcs]; auto.
      apply Hkeep1 in Hcs. congruence.
    - destruct (strings_is_Some _ _ _ He a) as [cs Hcs]; auto.
      apply Hkeep1 in Hcs. congruence. }
  exists p, (mkState h' t). split; [exact Hrun|].
  simpl in *. split; simpl; auto.
  - exists P', b. repeat split; auto.
    apply string_at_copy; auto.
    apply Hfr; try congruence. apply Hkeep2'; auto.
  - intros x o Hx.
    assert (x <> a) by (apply Hkeep1 in Hx; congruence).
    apply Hfr; auto; congruence.
Qed.

(** *** The handle: [process_close] and [process_open] *)

Section Syscalls.
Context (K : kernel) (h : gmap loc object) (t : list syscall).

Lemma pipe_ok r :
  k_pipe K t = r ->
  pipe K (mkState h t) = Ret r (mkState h (t ++ [sys_pipe r])).
Proof. now intros <-. Qed.

Lemma fork_ok :
  fork K (mkState h t)
  = Ret (k_fork K t) (mkState h (t ++ [sys_fork (k_fork K t)])).
Proof. reflexivity. Qed.

Lemma close_ok fd :
  close fd (mkState h t) = Ret tt (mkState h (t ++ [sys_close fd])).
Proof. reflexivity. Qed.

Lemma dup2_ok o n :
  dup2 o n (mkState h t) = Ret tt (mkState h (t ++ [sys_dup2 o n])).
Proof. reflexivity. Qed.

Lemma setsid_ok :
  setsid (mkState h t) = Ret tt (mkState h (t ++ [sys_setsid])).
Proof. reflexivity. Qed.

Lemma kill_ok c sig :
  kill c sig (mkState h t) = Ret tt (mkState h (t ++ [sys_kill c sig])).
Proof. reflexivity. Qed.

Lemma waitpid_ok c o :
  waitpid c o (mkState h t) = Ret tt (mkState h (t ++ [sys_waitpid c o])).
Proof. reflexivity. Qed.

End Syscalls.

Lemma bind_Fault {A B} (m : M A) (k : A -> M B) s :
  m s = Fault -> bind m k s = Fault.
Proof. intros E. unfold bind. now rewrite E. Qed.

Lemma read_struct_Fault h t p :
  (forall l P, p = Some l -> h !! l <> Some (Struct P)) ->
  read_struct p (mkState h t) = Fault.
Proof.
  intros Hno. destruct p as [l|]; [|reflexivity].
  unfold read_struct, bind, read. simpl.
  destruct (h !! l) as [[| |P]|] eqn:Hl; try reflexivity.
  now destruct (Hno l P eq_refl).
Qed.

Lemma close_Fault h t p :
  (forall l P, p = Some l -> h !! l <> Some (Struct P)) ->
  process_close p (mkState h t) = Fault.
Proof.
  intros Hno. unfold process_close, read_int.
  rewrite !bind_assoc. apply bind_Fault. now apply read_struct_Fault.
Qed.

Lemma closed_unset P : all_unset P -> closed P = P.
Proof. destruct P; unfold all_unset, closed; simpl. now intros (-> & -> & -> & ->). Qed.

Ltac run_handle :=
  repeat first
    [ step read_int_ok
    | step write_int_ok
    | step close_ok
    | step kill_ok
    | step waitpid_ok
    | step dup2_ok
    | step setsid_ok
    | step load_field_ok ].

Lemma bind_when (b : bool) (m : M unit) (k : unit -> M unit) s :
  bind (when b m) k s = if b then bind m k s else k tt s.
Proof. now destruct b. Qed.

Lemma close_spec h t l P :
  h !! l = Some (Struct P) ->
  process_close (Some l) (mkState h t)
  = Ret tt (mkState (<[l := Struct (closed P)]> h)
              (t ++ closes (in_ P) ++ closes (out P) ++ closes (err P)
                 ++ reaps (pid P))).
Proof.
  intros Hl. unfold process_close, closes, reaps, closed.
  destruct P as [pa av ev i o e c]. simpl.
  step read_int_ok. simpl. rewrite bind_when.
  destruct (Z.eqb_spec i (-1)) as [->|Hi]; simpl;
    [|step read_int_ok; step close_ok; step write_int_ok; simpl];
  (step read_int_ok; simpl; rewrite bind_when;
   destruct (Z.eqb_spec o (-1)) as [->|Ho]; simpl;
     [|step read_int_ok; step close_ok; step write_int_ok; simpl]);
  (step read_int_ok; simpl; rewrite bind_when;
   destruct (Z.eqb_spec e (-1)) as [->|He]; simpl;
     [|step read_int_ok; step close_ok; step write_int_ok; simpl]);
  (step read_int_ok; simpl; unfold when;
   destruct (Z.eqb_spec c (-1)) as [->|Hc]; simpl;
     [|step read_int_ok; step kill_ok; step read_int_ok; step waitpid_ok;
       erewrite write_int_ok by look; simpl]);
  unfold ret; f_equal; f_equal;
  rewrite ?insert_insert_eq, <- ?app_assoc, ?app_nil_r; simpl;
  first [reflexivity | symmetry; now apply insert_id].
Qed.

Lemma execve_ok K h t pa av ev :
  execve K pa av ev (mkState h t)
  = if k_execve K t
    then Halt (mkState h (t ++ [sys_execve pa av ev true]))
    else Ret tt (mkState h (t ++ [sys_execve pa av ev false])).
Proof. unfold execve. simpl. now destruct (k_execve K t). Qed.

Lemma fd_at_ok (fds : Z * Z) i s :
  (i < 2)%nat ->
  fd_at (Some fds) i s = Ret (if decide (i = O) then fst fds else snd fds) s.
Proof. destruct fds, i as [|[|]]; simpl; intros; try lia; reflexivity. Qed.

Ltac trace_norm := rewrite <- ?app_assoc; simpl app.

Ltac run_open Hi Ho He Hc :=
  repeat (rewrite ?bind_assoc; first
    [ step read_int_ok
    | step write_int_ok
    | erewrite bind_Ret by (apply pipe_ok; first [exact Hi|exact Ho|exact He]);
      cbv beta; rewrite ?bind_assoc; trace_norm
    | erewrite bind_Ret by (apply fork_ok);
      cbv beta; rewrite ?bind_assoc; trace_norm; rewrite ?Hc
    | step close_ok; trace_norm
    | step dup2_ok; trace_norm
    | step setsid_ok; trace_norm
    | step load_field_ok
    | erewrite bind_Ret by (apply fd_at_ok; lia);
      cbv beta; rewrite ?bind_assoc; simpl decide ]).

(** [process_open] on a handle that is already launched. *)
Lemma open_guard K h t l P :
  h !! l = Some (Struct P) -> pid P <> -1 ->
  process_open K (Some l) (mkState h t) = Ret 0 (mkState h t)
  /\ Earlier.process_open K (Some l) (mkState h t) = Ret 0 (mkState h t).
Proof.
  intros Hl Hp. unfold process_open, Earlier.process_open.
  split; step read_int_ok;
    (destruct (Z.eqb_spec (pid P) (-1)); [contradiction|reflexivity]).
Qed.

(** [process_open] in the parent, and when [fork] fails: both take the
    [else] branch. *)
Lemma open_parent K h t l P i o e c :
  h !! l = Some (Struct P) -> pid P = -1 ->
  answers K t i o e c -> c <> 0 ->
  let s' := mkState (<[l := Struct (launched P i o e c)]> h)
              (t ++ open_calls i o e c ++ parent_calls i o e) in
  process_open K (Some l) (mkState h t)
  = Ret (if c =? -1 then 0 else 1) s'
  /\ Earlier.process_open K (Some l) (mkState h t)
     = Ret (if c =? -1 then 0 else 1) s'.
Proof.
  intros Hl Hp (Hi & Ho & He & Hc) Hc0. cbv zeta.
  unfold process_open, Earlier.process_open, open_calls, parent_calls,
    launched.
  destruct P as [pa av ev fi fo fe pi]. simpl in Hp. subst pi.
  split;
    (step read_int_ok; cbn [pid]; rewrite Z.eqb_refl;
     run_open Hi Ho He Hc; cbn [pid set_pid];
     destruct (Z.eqb_spec c 0) as [|_]; [contradiction|];
     run_open Hi Ho He Hc;
     cbn [pid set_pid set_in set_out set_err in_ out err path argv envp];
     unfold ret; rewrite !insert_insert_eq;
     destruct (c =? -1); simpl; reflexivity).
Qed.

Lemma bind_execve {A} K pa av ev (k : unit -> M A) h t :
  bind (execve K pa av ev) k (mkState h t)
  = if k_execve K t
    then Halt (mkState h (t ++ [sys_execve pa av ev true]))
    else k tt (mkState h (t ++ [sys_execve pa av ev false])).
Proof. unfold bind. rewrite execve_ok. now destruct (k_execve K t). Qed.

Lemma bind_exit {A} st (k : unit -> M A) h t :
  bind (_exit st) k (mkState h t) = Halt (mkState h (t ++ [sys_exit st])).
Proof. reflexivity. Qed.

(** [process_open] in the child: the pipe ends are wired, the image is
    replaced or the child exits; the call never returns. *)
Lemma open_child K h t l P i o e :
  h !! l = Some (Struct P) -> pid P = -1 ->
  answers K t i o e 0 ->
  let t1 := t ++ open_calls i o e 0 ++ wiring_calls i o e in
  let h' := <[l := Struct (set_pid 0 P)]> h in
  process_open K (Some l) (mkState h t)
  = Halt (mkState h' ((t1 ++ [sys_setsid])
                        ++ exec_calls P (k_execve K (t1 ++ [sys_setsid]))))
  /\ Earlier.process_open K (Some l) (mkState h t)
     = Halt (mkState h' (t1 ++ exec_calls P (k_execve K t1))).
Proof.
  intros Hl Hp (Hi & Ho & He & Hc). cbv zeta.
  unfold process_open, Earlier.process_open, open_calls, wiring_calls,
    exec_calls.
  destruct P as [pa av ev fi fo fe pi]. simpl in Hp. subst pi.
  split;
    (step read_int_ok; cbn [pid]; rewrite Z.eqb_refl;
     run_open Hi Ho He Hc; cbn [pid set_pid]; rewrite Z.eqb_refl;
     run_open Hi Ho He Hc;
     cbn [get_field set_pid path argv envp];
     rewrite ?bind_assoc, bind_execve;
     destruct (k_execve K _); [|rewrite bind_exit]; trace_norm;
     reflexivity).
Qed.

(** *** [_process_array_clear] *)

Lemma entries_of_inv cs ls :
  entries_of cs = Some ls ->
  exists rest, cs = ((fun l => Ptr (Some l)) <$> ls) ++ Ptr NULL :: rest.
Proof.
  revert ls. induction cs as [|[|[x|]] cs IH]; intros ls; simpl;
    try discriminate.
  - destruct (entries_of cs) as [ls'|]; [|discriminate]. intros [= <-].
    destruct (IH ls' eq_refl) as [rest ->]. now exists rest.
  - intros [= <-]. now exists cs.
Qed.

Lemma clear_loop l f a P t : forall (todo : list loc) (done : nat) rest h,
  h !! l = Some (Struct P) ->
  get_field f P = Some a ->
  h !! a = Some (Slots (replicate done (Ptr NULL)
                          ++ ((fun l => Ptr (Some l)) <$> todo)
                          ++ Ptr NULL :: rest)) ->
  NoDup todo ->
  Forall (fun x => exists bs, h !! x = Some (Bytes bs)) todo ->
  exists h',
    for_range done (length todo) (clear_body (Field (Some l) f))
      (mkState h t) = Ret tt (mkState h' t)
    /\ h' !! l = Some (Struct P)
    /\ h' !! a = Some (Slots (replicate (done + length todo) (Ptr NULL)
                                ++ Ptr NULL :: rest))
    /\ (forall x, x ∈ todo -> h' !! x = None)
    /\ (forall x, x ∉ todo -> x <> a -> h' !! x = h !! x).
Proof.
  induction todo as [|x todo IH]; intros done rest h Hl Hf Ha Hnd Hlive.
  - exists h. simpl. rewrite Nat.add_0_r. repeat split; auto.
    intros x Hx. now apply elem_of_nil in Hx.
  - apply NoDup_cons in Hnd as [Hx Hnd].
    apply Forall_cons in Hlive as [[bs Hbs] Hlive].
    assert (x <> l /\ x <> a /\ a <> l) as (? & ? & ?)
      by (repeat split; congruence).
    set (cells := replicate done (Ptr NULL)
                    ++ ((fun l => Ptr (Some l)) <$> x :: todo)
                    ++ Ptr NULL :: rest) in *.
    assert (Hcell : cells !! done = Some (Ptr (Some x))).
    { unfold cells. rewrite lookup_app_r by (rewrite length_replicate; lia).
      rewrite length_replicate, Nat.sub_diag. reflexivity. }
    assert (Hlt : (done < length cells)%nat)
      by (apply lookup_lt_is_Some; eauto).
    assert (Hcells' : <[done := Ptr NULL]> cells
                      = replicate (S done) (Ptr NULL)
                          ++ ((fun l => Ptr (Some l)) <$> todo)
                          ++ Ptr NULL :: rest).
    { unfold cells. rewrite replicate_S_end, <- app_assoc.
      rewrite insert_app_r_alt by (rewrite length_replicate; lia).
      rewrite length_replicate, Nat.sub_diag. reflexivity. }
    set (h1 := <[a := Slots (<[done := Ptr NULL]> cells)]> (delete x h)).
    assert (Hrun : clear_body (Field (Some l) f) done (mkState h t)
                   = Ret tt (mkState h1 t)).
    { unfold clear_body.
      step load_field_ok. rewrite Hf.
      erewrite bind_Ret by (eapply load_cell_ok; [exact Ha | exact Hcell]).
      cbv beta.
      step free_ok.
      step load_field_ok. rewrite Hf.
      erewrite store_cell_ok by (first [look | lia]). reflexivity. }
    destruct (IH (S done) rest h1) as (h' & Hloop & Hl' & Ha' & Hgone & Hkeep);
      auto.
    { unfold h1. now simpl_lookup. }
    { unfold h1. simpl_lookup. now rewrite Hcells'. }
    { rewrite Forall_forall in *. intros y Hy.
      destruct (Hlive y Hy) as [bs' Hbs']. exists bs'. unfold h1.
      assert (y <> a) by congruence.
      assert (y <> x) by (intros ->; contradiction).
      now simpl_lookup. }
    exists h'. split.
    { simpl. rewrite (bind_Ret _ _ _ _ _ Hrun). exact Hloop. }
    split; [exact Hl'|]. split.
    { rewrite Ha'. simpl. now rewrite Nat.add_succ_r. }
    split.
    + intros y Hy. apply elem_of_cons in Hy as [->|Hy]; [|now apply Hgone].
      rewrite Hkeep; auto. unfold h1. now simpl_lookup.
    + intros y Hy Hya. apply not_elem_of_cons in Hy as [Hyx Hy].
      rewrite Hkeep; auto. unfold h1. now simpl_lookup.
Qed.

Lemma clear_spec h t l P f ls :
  h !! l = Some (Struct P) ->
  releasable h (get_field f P) ls ->
  exists h',
    _process_array_clear (Some (Field (Some l) f)) (mkState h t)
    = Ret tt (mkState h' t)
    /\ h' !! l = Some (Struct (set_field f NULL P))
    /\ (forall x, x ∈ blocks (get_field f P) ls -> h' !! x = None)
    /\ (forall x, x <> l -> x ∉ blocks (get_field f P) ls ->
                  h' !! x = h !! x)
    /\ (get_field f P = NULL -> h' = h).
Proof.
  intros Hl (Hent & Hnd & Hlive). unfold _process_array_clear.
  destruct (get_field f P) as [a|] eqn:Hf; simpl in Hent.
  - destruct (h !! a) as [[|cs|]|] eqn:Ha; try discriminate.
    destruct (entries_of_inv _ _ Hent) as [rest ->].
    destruct (clear_loop l f a P t ls 0 rest h) as
      (h1 & Hloop & Hl1 & Ha1 & Hgone & Hkeep); auto.
    assert (a <> l) by congruence.
    assert (Hal : a ∉ ls).
    { intros Hin. rewrite Forall_forall in Hlive.
      destruct (Hlive a Hin) as [bs Hbs]. congruence. }
    assert (Hll : l ∉ ls).
    { intros Hin. rewrite Forall_forall in Hlive.
      destruct (Hlive l Hin) as [bs Hbs]. congruence. }
    exists (<[l := Struct (set_field f NULL P)]> (delete a h1)).
    split.
    { step load_field_ok. rewrite Hf.
      erewrite bind_Ret by (eapply count_ok; [exact Ha|apply scan_app]).
      cbv beta.
      erewrite bind_Ret by (exact Hloop). cbv beta.
      step load_field_ok. rewrite Hf.
      step free_ok.
      erewrite store_field_ok by look. reflexivity. }
    split; [now simpl_lookup|]. split; [|split; [|discriminate]].
    + intros x Hx. simpl in Hx. apply elem_of_cons in Hx as [->|Hx].
      * now simpl_lookup.
      * assert (x <> l) by (intros ->; contradiction).
        assert (x <> a) by (intros ->; contradiction).
        simpl_lookup. now apply Hgone.
    + intros x Hxl Hx. simpl in Hx. apply not_elem_of_cons in Hx as [Hxa Hx].
      simpl_lookup. now apply Hkeep.
  - injection Hent as <-. exists h. split.
    { step load_field_ok. rewrite Hf.
      rewrite (bind_Ret _ _ _ _ _ (count_null _ _)). simpl for_range.
      unfold bind at 1. unfold ret at 1.
      step load_field_ok. rewrite Hf.
      rewrite (bind_Ret _ _ _ _ _ (free_null _ _)).
      erewrite store_field_ok by look.
      rewrite <- Hf, set_get_field, insert_id by assumption. reflexivity. }
    split; [now rewrite <- Hf, set_get_field|].
    split; [intros x Hx; now apply elem_of_nil in Hx|]. auto.
Qed.

(** *** What calls preserve *)

Lemma bind_inv {A B} (m : M A) (k : A -> M B) s b s' :
  bind m k s = Ret b s' ->
  exists a s1, m s = Ret a s1 /\ k a s1 = Ret b s'.
Proof. unfold bind. destruct (m s) as [a s1| | |]; try discriminate. eauto. Qed.

Section Preserves.
Context (I : state -> Prop).

Lemma preserves_ret {A} (a : A) : preserves I (ret a).
Proof. intros s a' s' HI [= _ <-]. exact HI. Qed.

Lemma preserves_fault {A} : preserves I (@fault A).
Proof. intros s a s' _ [=]. Qed.

Lemma preserves_timeout {A} : preserves I (@timeout A).
Proof. intros s a s' _ [=]. Qed.

Lemma preserves_bind {A B} (m : M A) (k : A -> M B) :
  preserves I m -> (forall a, preserves I (k a)) -> preserves I (bind m k).
Proof.
  intros Hm Hk s b s' HI Hrun.
  destruct (bind_inv _ _ _ _ _ Hrun) as (a & s1 & H1 & H2).
  eapply Hk; [|exact H2]. eapply Hm; eauto.
Qed.

Lemma preserves_when b m : preserves I m -> preserves I (when b m).
Proof. destruct b; [auto|intros _; apply preserves_ret]. Qed.

Lemma preserves_for_range body :
  (forall i, preserves I (body i)) ->
  forall n lo, preserves I (for_range lo n body).
Proof.
  intros Hb. induction n as [|n IH]; intros lo; simpl.
  - apply preserves_ret.
  - apply preserves_bind; [apply Hb|intros _; apply IH].
Qed.

Lemma preserves_read p : preserves I (read p).
Proof.
  intros [h t] o s' HI. unfold read. simpl.
  destruct p as [l|]; [|discriminate].
  destruct (h !! l); [|discriminate]. now intros [= _ <-].
Qed.

Lemma preserves_read_struct p : preserves I (read_struct p).
Proof.
  apply preserves_bind; [apply preserves_read|].
  intros [| |]; first [apply preserves_ret | apply preserves_fault].
Qed.

Lemma preserves_read_slots p : preserves I (read_slots p).
Proof.
  apply preserves_bind; [apply preserves_read|].
  intros [| |]; first [apply preserves_ret | apply preserves_fault].
Qed.

Lemma preserves_read_bytes p : preserves I (read_bytes p).
Proof.
  apply preserves_bind; [apply preserves_read|].
  intros [| |]; first [apply preserves_ret | apply preserves_fault].
Qed.

Lemma preserves_load pl : preserves I (load pl).
Proof.
  destruct pl as [p f|a i]; simpl.
  - apply preserves_bind; [apply preserves_read_struct|].
    intros P. apply preserves_ret.
  - apply preserves_bind; [apply preserves_read_slots|].
    intros cs. destruct (cs !! i) as [[|v]|];
      first [apply preserves_ret | apply preserves_fault].
Qed.

Lemma preserves_load_at d : preserves I (load_at d).
Proof. destruct d; [apply preserves_load|apply preserves_fault]. Qed.

Lemma preserves_strlen b : preserves I (strlen b).
Proof.
  apply preserves_bind; [apply preserves_read_bytes|].
  intros bs. destruct (cstrlen bs);
    first [apply preserves_ret | apply preserves_fault].
Qed.

Lemma preserves_count arr : preserves I (_process_array_count arr).
Proof.
  destruct arr; [|apply preserves_ret]. simpl.
  apply preserves_bind; [apply preserves_read_slots|].
  intros cs. destruct (scan cs);
    first [apply preserves_ret | apply preserves_fault].
Qed.

(** The calls that change the heap, given that each of them preserves
    [I]. *)
Hypothesis I_store : forall pl v, preserves I (store pl v).
Hypothesis I_realloc : forall a n, preserves I (realloc a n).
Hypothesis I_calloc : forall n, preserves I (calloc n).
Hypothesis I_memcpy : forall d b n, preserves I (memcpy d b n).

Lemma preserves_store_at d v : preserves I (store_at d v).
Proof. destruct d; [apply I_store|apply preserves_fault]. Qed.

Lemma preserves_string_copy dest src :
  preserves I (_process_string_copy dest src).
Proof.
  unfold _process_string_copy.
  repeat first
    [ apply preserves_strlen | apply I_calloc | apply preserves_store_at
    | apply preserves_load_at | apply I_memcpy
    | apply preserves_bind; [|intros ?] ].
Qed.

Lemma preserves_push arr item : preserves I (_process_array_push arr item).
Proof.
  unfold _process_array_push.
  repeat first
    [ apply preserves_load_at | apply preserves_count | apply I_realloc
    | apply preserves_store_at | apply preserves_string_copy
    | apply I_store
    | apply preserves_bind; [|intros ?] ].
Qed.

Lemma preserves_add_loop (add : ptr -> ptr -> M unit) p args :
  (forall x, preserves I (add p x)) ->
  forall fuel i, preserves I (add_loop add fuel p args i).
Proof.
  intros Hadd. induction fuel as [|fuel IH]; intros i; cbn [add_loop].
  - apply preserves_timeout.
  - destruct args; [|apply preserves_ret].
    apply preserves_bind; [apply preserves_load|]. intros [x|].
    + apply preserves_bind; [apply preserves_load|]. intros y.
      apply preserves_bind; [apply Hadd|]. intros _. apply IH.
    + apply preserves_ret.
Qed.

Hypothesis I_free : forall p, preserves I (free p).

Lemma preserves_clear arr : preserves I (_process_array_clear arr).
Proof.
  destruct arr as [pl|]; [|apply preserves_ret]. cbn [_process_array_clear].
  repeat first
    [ apply preserves_for_range; intros ?
    | apply preserves_load | apply preserves_count | apply I_free
    | apply I_store
    | apply preserves_bind; [|intros ?] ].
Qed.

Lemma preserves_process_free p : preserves I (process_free p).
Proof.
  destruct p as [l|]; [|apply preserves_ret]. cbn [process_free].
  unfold process_clear_argv, process_clear_envp.
  repeat first
    [ apply preserves_when
    | apply preserves_load | apply preserves_clear | apply I_free
    | apply I_store
    | apply preserves_bind; [|intros ?] ].
Qed.

End Preserves.

(** Inversion of the primitives. *)
Lemma read_inv p s o s1 :
  read p s = Ret o s1 ->
  s1 = s /\ exists l, p = Some l /\ heap s !! l = Some o.
Proof.
  unfold read. destruct p as [l|]; [|discriminate].
  destruct (heap s !! l) eqn:E; [|discriminate]. intros [= <- <-]. eauto.
Qed.

Lemma read_struct_inv p s P s1 :
  read_struct p s = Ret P s1 ->
  s1 = s /\ exists l, p = Some l /\ heap s !! l = Some (Struct P).
Proof.
  intros H. apply bind_inv in H as (o & s0 & H1 & H2).
  apply read_inv in H1 as (-> & l & -> & Hl).
  destruct o; try discriminate. injection H2 as <- <-. eauto.
Qed.

Lemma read_slots_inv p s cs s1 :
  read_slots p s = Ret cs s1 ->
  s1 = s /\ exists l, p = Some l /\ heap s !! l = Some (Slots cs).
Proof.
  intros H. apply bind_inv in H as (o & s0 & H1 & H2).
  apply read_inv in H1 as (-> & l & -> & Hl).
  destruct o; try discriminate. injection H2 as <- <-. eauto.
Qed.

Lemma read_bytes_inv p s bs s1 :
  read_bytes p s = Ret bs s1 ->
  s1 = s /\ exists l, p = Some l /\ heap s !! l = Some (Bytes bs).
Proof.
  intros H. apply bind_inv in H as (o & s0 & H1 & H2).
  apply read_inv in H1 as (-> & l & -> & Hl).
  destruct o; try discriminate. injection H2 as <- <-. eauto.
Qed.

Lemma write_inv p o s u s' :
  write p o s = Ret u s' ->
  exists l, p = Some l /\ is_Some (heap s !! l)
            /\ s' = set_heap (<[l := o]> (heap s)) s.
Proof.
  unfold write. destruct p as [l|]; [|discriminate].
  destruct (heap s !! l) eqn:E; [|discriminate]. intros [= <-]. eauto.
Qed.

(** *** Calls that make no system call *)

Section Quiet.
Context (t : list syscall).

Lemma quiet_write p o : preserves (trace_is t) (write p o).
Proof.
  intros s u s' Ht H. apply write_inv in H as (l & _ & _ & ->). exact Ht.
Qed.

Lemma quiet_alloc o : preserves (trace_is t) (alloc o).
Proof. intros s u s' Ht E. inversion E; subst. exact Ht. Qed.

Lemma quiet_free p : preserves (trace_is t) (free p).
Proof.
  intros s u s' Ht. unfold free. destruct p as [l|].
  - destruct (heap s !! l); [|discriminate].
    intros E. inversion E; subst. exact Ht.
  - intros E. inversion E; subst. exact Ht.
Qed.

Lemma quiet_store pl v : preserves (trace_is t) (store pl v).
Proof.
  destruct pl as [p f|a i]; cbn [store].
  - apply preserves_bind; [apply preserves_read_struct|].
    intros P. apply quiet_write.
  - apply preserves_bind; [apply preserves_read_slots|].
    intros cs. destruct (decide _); [apply quiet_write|apply preserves_fault].
Qed.

End Quiet.

(** *** Calls that keep the descriptors and the process identifier *)

Section Ints.
Context (l : loc) (P0 : Process).

Lemma ints_insert_other s l' o :
  l' <> l -> ints_are l P0 s ->
  ints_are l P0 (set_heap (<[l' := o]> (heap s)) s).
Proof.
  intros Hne (P & Hl & HP). exists P. simpl. now rewrite lookup_insert_ne.
Qed.

Lemma ints_alloc o : preserves (ints_are l P0) (alloc o).
Proof.
  intros s u s' HI E. inversion E; subst. clear E.
  apply ints_insert_other; [|exact HI].
  destruct HI as (P & Hl & _). intros E.
  pose proof (fresh_None (heap s)) as Hf. rewrite E in Hf. congruence.
Qed.

Lemma ints_store pl v : preserves (ints_are l P0) (store pl v).
Proof.
  intros s u s' HI H. destruct pl as [p f|a i]; cbn [store] in H.
  - apply bind_inv in H as (P & s1 & H1 & H2).
    apply read_struct_inv in H1 as (-> & l1 & -> & Hl1).
    apply write_inv in H2 as (l2 & [= <-] & _ & ->).
    destruct (decide (l1 = l)) as [->|Hne];
      [|now apply ints_insert_other].
    destruct HI as (P' & Hl & HP). exists (set_field f v P). simpl.
    rewrite lookup_insert_eq. split; [reflexivity|].
    assert (P' = P) as -> by congruence. now destruct f.
  - apply bind_inv in H as (cs & s1 & H1 & H2).
    apply read_slots_inv in H1 as (-> & l1 & -> & Hl1).
    destruct (decide _); [|discriminate].
    apply write_inv in H2 as (l2 & [= <-] & _ & ->).
    apply ints_insert_other; [|exact HI].
    destruct HI as (P' & Hl & _). congruence.
Qed.

Lemma ints_realloc a n : preserves (ints_are l P0) (realloc a n).
Proof.
  destruct a as [a|]; cbn [realloc]; [|apply ints_alloc].
  intros s u s' HI H.
  apply bind_inv in H as (cs & s1 & H1 & H2).
  apply read_slots_inv in H1 as (-> & l1 & [= <-] & Hl1).
  apply bind_inv in H2 as (u' & s2 & H2 & [= _ <-]).
  apply write_inv in H2 as (l2 & [= <-] & _ & ->).
  apply ints_insert_other; [|exact HI].
  destruct HI as (P' & Hl & _). congruence.
Qed.

Lemma ints_calloc n : preserves (ints_are l P0) (calloc n).
Proof. apply ints_alloc. Qed.

Lemma ints_memcpy d b n : preserves (ints_are l P0) (memcpy d b n).
Proof.
  intros s u s' HI H. unfold memcpy in H.
  apply bind_inv in H as (db & s1 & H1 & H2).
  apply read_bytes_inv in H1 as (-> & l1 & -> & Hl1).
  apply bind_inv in H2 as (sb & s1 & H2 & H3).
  apply read_bytes_inv in H2 as (-> & l2 & -> & Hl2).
  destruct (decide _); [|discriminate].
  apply write_inv in H3 as (l3 & [= <-] & _ & ->).
  apply ints_insert_other; [|exact HI].
  destruct HI as (P' & Hl & _). congruence.
Qed.

Lemma ints_push arr item :
  preserves (ints_are l P0) (_process_array_push arr item).
Proof.
  apply preserves_push;
    auto using ints_store, ints_realloc, ints_calloc, ints_memcpy.
Qed.

End Ints.

(** *** The pairing of descriptors and process identifier *)

Lemma linked_ints P P' :
  in_ P' = in_ P -> out P' = out P -> err P' = err P -> pid P' = pid P ->
  linked P -> linked P'.
Proof.
  unfold linked, all_unset, all_set. intros -> -> -> ->. auto.
Qed.

(** From a handle that is not launched, [process_open] returns only
    through the [else] branch, with three pipes. *)
Lemma open_ret_inv K h t l P r s' :
  h !! l = Some (Struct P) -> pid P = -1 ->
  process_open K (Some l) (mkState h t) = Ret r s' ->
  exists i o e c,
    answers K t i o e c /\ c <> 0
    /\ s' = mkState (<[l := Struct (launched P i o e c)]> h)
              (t ++ open_calls i o e c ++ parent_calls i o e)
    /\ r = (if c =? -1 then 0 else 1).
Proof.
  intros Hl Hp.
  destruct (k_pipe K t) as [i|] eqn:Hi;
  [ destruct (k_pipe K (t ++ [sys_pipe (Some i)])) as [o|] eqn:Ho;
    [ destruct (k_pipe K (t ++ [sys_pipe (Some i); sys_pipe (Some o)]))
        as [e|] eqn:He | ] | ].
  - (* three pipes *)
    set (c := k_fork K (t ++ [sys_pipe (Some i); sys_pipe (Some o);
                              sys_pipe (Some e)])).
    assert (Hans : answers K t i o e c) by (repeat split; assumption).
    destruct (decide (c = 0)) as [Hc|Hc].
    + rewrite Hc in Hans.
      destruct (open_child K h t l P i o e Hl Hp Hans) as [Hrun _].
      cbv zeta in Hrun. rewrite Hrun. discriminate.
    + destruct (open_parent K h t l P i o e c Hl Hp Hans Hc) as [Hrun _].
      cbv zeta in Hrun. rewrite Hrun. intros [= <- <-].
      exists i, o, e, c. auto.
  - (* the third pipe failed *)
    intros H. exfalso. revert H. unfold process_open.
    destruct P as [pa av ev fi fo fe pi]. simpl in Hp. subst pi.
    step read_int_ok. cbn [pid]. rewrite Z.eqb_refl.
    assert (Hc : k_fork K (t ++ [sys_pipe (Some i); sys_pipe (Some o);
                                 sys_pipe None])
                 = k_fork K (t ++ [sys_pipe (Some i); sys_pipe (Some o);
                                   sys_pipe None])) by reflexivity.
    run_open Hi Ho He Hc. cbn [pid set_pid].
    destruct (_ =? 0); run_open Hi Ho He Hc; discriminate.
  - intros H. exfalso. revert H. unfold process_open.
    destruct P as [pa av ev fi fo fe pi]. simpl in Hp. subst pi.
    step read_int_ok. cbn [pid]. rewrite Z.eqb_refl.
    erewrite bind_Ret by (apply pipe_ok; exact Hi).
    cbv beta. trace_norm.
    erewrite bind_Ret by (apply pipe_ok; exact Ho).
    cbv beta. trace_norm.
    erewrite bind_Ret by (apply pipe_ok; reflexivity).
    cbv beta. trace_norm.
    erewrite bind_Ret by (apply fork_ok).
    cbv beta. trace_norm.
    step write_int_ok. step read_int_ok. cbn [pid set_pid].
    destruct (_ =? 0);
      repeat (rewrite ?bind_assoc;
              first [ erewrite bind_Ret by (apply fd_at_ok; lia);
                      cbv beta; simpl decide
                    | step close_ok ]);
      discriminate.
  - intros H. exfalso. revert H. unfold process_open.
    destruct P as [pa av ev fi fo fe pi]. simpl in Hp. subst pi.
    step read_int_ok. cbn [pid]. rewrite Z.eqb_refl.
    erewrite bind_Ret by (apply pipe_ok; exact Hi).
    cbv beta. trace_norm.
    erewrite bind_Ret by (apply pipe_ok; reflexivity).
    cbv beta. trace_norm.
    erewrite bind_Ret by (apply pipe_ok; reflexivity).
    cbv beta. trace_norm.
    erewrite bind_Ret by (apply fork_ok).
    cbv beta. trace_norm.
    step write_int_ok. step read_int_ok. cbn [pid set_pid].
    destruct (_ =? 0); discriminate.
Qed.

Lemma ints_add_loop l P0 (add : ptr -> ptr -> M unit) p args fuel i :
  (forall x, preserves (ints_are l P0) (add p x)) ->
  preserves (ints_are l P0) (add_loop add fuel p args i).
Proof. intros Hadd. now apply preserves_add_loop. Qed.

(** A handle that [process_create] returns is not launched. *)
Lemma create_unset fuel pa av ev s0 p s :
  process_create fuel pa av ev s0 = Ret (Some p) s ->
  exists P, heap s !! p = Some (Struct P) /\ all_unset P.
Proof.
  destruct s0 as [h t]. unfold process_create, malloc_Process.
  step alloc_ok. set (l := fresh (dom h)).
  do 3 step store_field_ok. do 4 step write_int_ok.
  rewrite !insert_insert_eq.
  change (set_pid (-1) _) with (mkProcess NULL NULL NULL (-1) (-1) (-1) (-1)).
  set (P0 := mkProcess NULL NULL NULL (-1) (-1) (-1) (-1)).
  intros H.
  apply bind_inv in H as (u1 & s1 & H1 & H).
  apply bind_inv in H as (u2 & s2 & H2 & H).
  apply bind_inv in H as (u3 & s3 & H3 & H).
  injection H as <- <-.
  assert (I0 : ints_are l P0 (mkState (<[l := Struct P0]> h) t)).
  { exists P0. simpl. now rewrite lookup_insert_eq. }
  assert (I1 : ints_are l P0 s1).
  { eapply preserves_string_copy; [..|exact I0|exact H1];
      auto using ints_store, ints_calloc, ints_memcpy. }
  assert (I2 : ints_are l P0 s2).
  { eapply ints_add_loop; [|exact I1|exact H2].
    intros x. apply ints_push. }
  assert (I3 : ints_are l P0 s3).
  { eapply ints_add_loop; [|exact I2|exact H3].
    intros x. apply ints_push. }
  destruct I3 as (P & Hl & Hi & Ho & He & Hp). exists P.
  split; [exact Hl|]. now repeat split.
Qed.

(** *** [process_free] *)

Lemma store_same h t l P f :
  h !! l = Some (Struct P) ->
  store (Field (Some l) f) (get_field f P) (mkState h t)
  = Ret tt (mkState h t).
Proof.
  intros Hl. erewrite store_field_ok by eassumption.
  now rewrite set_get_field, insert_id.
Qed.

Lemma clears_argv : clears f_argv process_clear_argv.
Proof.
  intros h t l P ls Hl Hrel.
  destruct (clear_spec h t l P f_argv ls Hl Hrel)
    as (h' & Hrun & Hl' & Hgone & Hkeep & _).
  exists h'. split; [|auto]. unfold process_clear_argv.
  rewrite (bind_Ret _ _ _ _ _ Hrun).
  now apply (store_same h' t l (set_field f_argv NULL P) f_argv).
Qed.

Lemma clears_envp : clears f_envp process_clear_envp.
Proof.
  intros h t l P ls Hl Hrel.
  destruct (clear_spec h t l P f_envp ls Hl Hrel)
    as (h' & Hrun & Hl' & Hgone & Hkeep & _).
  exists h'. split; [|auto]. unfold process_clear_envp.
  rewrite (bind_Ret _ _ _ _ _ Hrun).
  now apply (store_same h' t l (set_field f_envp NULL P) f_envp).
Qed.

Lemma clears_earlier f : clears f (Earlier.clear_member f).
Proof.
  intros h t l P ls Hl (Hent & Hnd & Hlive). unfold Earlier.clear_member.
  step load_field_ok.
  destruct (get_field f P) as [a|] eqn:Hf; simpl in Hent.
  - rewrite bool_decide_true by discriminate. cbn [when].
    destruct (h !! a) as [[|cs|]|] eqn:Ha; try discriminate.
    destruct (entries_of_inv _ _ Hent) as [rest ->].
    destruct (clear_loop l f a P t ls 0 rest h) as
      (h1 & Hloop & Hl1 & Ha1 & Hgone & Hkeep); auto.
    assert (a <> l) by congruence.
    assert (Hal : a ∉ ls).
    { intros Hin. rewrite Forall_forall in Hlive.
      destruct (Hlive a Hin) as [bs Hbs]. congruence. }
    assert (Hll : l ∉ ls).
    { intros Hin. rewrite Forall_forall in Hlive.
      destruct (Hlive l Hin) as [bs Hbs]. congruence. }
    exists (<[l := Struct (set_field f NULL P)]> (delete a h1)).
    split.
    { step load_field_ok. rewrite Hf.
      erewrite bind_Ret by (eapply count_ok; [exact Ha|apply scan_app]).
      cbv beta. rewrite ?bind_assoc.
      erewrite bind_Ret by (exact Hloop). cbv beta.
      step load_field_ok. rewrite Hf.
      step free_ok.
      erewrite store_field_ok by look. reflexivity. }
    split; [now simpl_lookup|]. split.
    + intros x Hx. simpl in Hx. apply elem_of_cons in Hx as [->|Hx].
      * now simpl_lookup.
      * assert (x <> l) by (intros ->; contradiction).
        assert (x <> a) by (intros ->; contradiction).
        simpl_lookup. now apply Hgone.
    + intros x Hxl Hx. simpl in Hx. apply not_elem_of_cons in Hx as [Hxa Hx].
      simpl_lookup. now apply Hkeep.
  - injection Hent as <-. rewrite bool_decide_false by (intros E; now apply E).
    cbn [when]. exists h. split; [reflexivity|].
    split; [now rewrite <- Hf, set_get_field|].
    split; [intros x Hx; now apply elem_of_nil in Hx|]. auto.
Qed.

Lemma releasable_mono (h h' : gmap loc object) arr ls :
  releasable h arr ls ->
  (forall x, x ∈ blocks arr ls -> h' !! x = h !! x) ->
  releasable h' arr ls.
Proof.
  intros (Hent & Hnd & Hlive) Hsame. split; [|split; [exact Hnd|]].
  - destruct arr as [a|]; [|exact Hent]. simpl in *.
    rewrite Hsame; [exact Hent|]. apply elem_of_cons. now left.
  - rewrite Forall_forall in *. intros x Hx.
    destruct (Hlive x Hx) as [bs Hbs]. exists bs. rewrite Hsame; [exact Hbs|].
    destruct arr; simpl; [apply elem_of_cons; now right|exact Hx].
Qed.

(** The part of [process_free] that releases memory, with the clear
    functions of either revision. *)
Lemma release_spec (clear_a clear_e : ptr -> M unit) h t l P la le :
  clears f_argv clear_a ->
  clears f_envp clear_e ->
  well_formed h l P la le ->
  exists h',
    (pa <- load (Field (Some l) f_path);
     when (bool_decide (pa <> NULL)) (
       pa <- load (Field (Some l) f_path);
       free pa;;
       store (Field (Some l) f_path) NULL);;
     clear_a (Some l);;
     clear_e (Some l);;
     free (Some l)) (mkState h t) = Ret tt (mkState h' t)
    /\ (forall x, x ∈ owned l P la le -> h' !! x = None)
    /\ (forall x, x ∉ owned l P la le -> h' !! x = h !! x).
Proof.
  intros Hca Hce (Hl & Hpath & Hra & Hre & Hnd). unfold owned.
  apply NoDup_app in Hnd as (Hndp & Hpa & Hnd).
  apply NoDup_app in Hnd as (Hnda & Hae & Hnde).
  assert (Hla : l ∉ blocks (argv P) la).
  { destruct Hra as (Hent & _ & Hlive). rewrite Forall_forall in Hlive.
    intros Hin. destruct (argv P) as [a|]; simpl in *.
    - apply elem_of_cons in Hin as [<-|Hin].
      + rewrite Hl in Hent. discriminate.
      + destruct (Hlive l Hin). congruence.
    - destruct (Hlive l Hin). congruence. }
  assert (Hle : l ∉ blocks (envp P) le).
  { destruct Hre as (Hent & _ & Hlive). rewrite Forall_forall in Hlive.
    intros Hin. destruct (envp P) as [a|]; simpl in *.
    - apply elem_of_cons in Hin as [<-|Hin].
      + rewrite Hl in Hent. discriminate.
      + destruct (Hlive l Hin). congruence.
    - destruct (Hlive l Hin). congruence. }
  (* the path *)
  assert (Hstep1 : exists h1,
    (forall k : unit -> M unit,
       (pa <- load (Field (Some l) f_path);
        when (bool_decide (pa <> NULL)) (
          pa <- load (Field (Some l) f_path);
          free pa;;
          store (Field (Some l) f_path) NULL);;
        k tt) (mkState h t) = k tt (mkState h1 t))
    /\ h1 !! l = Some (Struct (set_field f_path NULL P))
    /\ (forall x, x ∈ blocks (path P) [] -> h1 !! x = None)
    /\ (forall x, x <> l -> x ∉ blocks (path P) [] -> h1 !! x = h !! x)).
  { destruct (path P) as [b|] eqn:Hb.
    - destruct (Hpath b eq_refl) as [bs Hbs].
      assert (b <> l) by congruence.
      exists (<[l := Struct (set_field f_path NULL P)]> (delete b h)).
      split.
      { intros k. step load_field_ok. cbn [get_field]. rewrite Hb.
        rewrite bind_when, bool_decide_true by discriminate.
        step load_field_ok. cbn [get_field]. rewrite Hb.
        step free_ok.
        erewrite bind_Ret by (eapply store_field_ok; look). reflexivity. }
      split; [now simpl_lookup|]. split.
      + intros x Hx. simpl in Hx. apply list_elem_of_singleton in Hx as ->.
        now simpl_lookup.
      + intros x Hxl Hx. simpl in Hx.
        assert (x <> b) by (intros ->; apply Hx; now apply list_elem_of_singleton).
        now simpl_lookup.
    - exists h. split.
      { intros k. step load_field_ok. cbn [get_field]. rewrite Hb.
        rewrite bind_when, bool_decide_false by (intros E; now apply E).
        reflexivity. }
      split; [|split; [intros x Hx; now apply elem_of_nil in Hx|auto]].
      rewrite Hl. f_equal. f_equal. destruct P; simpl in *. now subst. }
  destruct Hstep1 as (h1 & Hrun1 & Hl1 & Hgone1 & Hkeep1).
  (* the arguments *)
  destruct (Hca h1 t l (set_field f_path NULL P) la Hl1)
    as (h2 & Hrun2 & Hl2 & Hgone2 & Hkeep2).
  { cbn [get_field set_field argv]. apply releasable_mono with (h := h); auto.
    intros x Hx. apply Hkeep1; [intros ->; contradiction|].
    intros Hp. apply (Hpa x Hp). apply elem_of_app. now left. }
  cbn [get_field set_field argv] in Hgone2, Hkeep2.
  (* the environment *)
  destruct (Hce h2 t l _ le Hl2) as (h3 & Hrun3 & Hl3 & Hgone3 & Hkeep3).
  { cbn [get_field set_field envp]. apply releasable_mono with (h := h); auto.
    intros x Hx.
    assert (x <> l) by (intros ->; contradiction).
    rewrite Hkeep2; auto.
    - apply Hkeep1; auto. intros Hp. apply (Hpa x Hp).
      apply elem_of_app. now right.
    - intros Ha. now apply (Hae x). }
  cbn [get_field set_field envp] in Hgone3, Hkeep3.
  exists (delete l h3). split.
  { rewrite (Hrun1 (fun _ => clear_a (Some l);; clear_e (Some l);;
                              free (Some l))).
    rewrite (bind_Ret _ _ _ _ _ Hrun2), (bind_Ret _ _ _ _ _ Hrun3).
    now erewrite free_ok by eassumption. }
  split.
  - intros x Hx. apply elem_of_cons in Hx as [->|Hx]; [now simpl_lookup|].
    destruct (decide (x = l)) as [->|Hxl]; [now simpl_lookup|].
    simpl_lookup.
    destruct (decide (x ∈ blocks (envp P) le)) as [|Hne]; [now apply Hgone3|].
    rewrite Hkeep3 by auto.
    destruct (decide (x ∈ blocks (argv P) la)) as [|Hna]; [now apply Hgone2|].
    rewrite Hkeep2 by auto.
    apply Hgone1. apply elem_of_app in Hx as [Hx|Hx]; [exact Hx|].
    apply elem_of_app in Hx as [Hx|Hx]; contradiction.
  - intros x Hx. apply not_elem_of_cons in Hx as [Hxl Hx].
    apply not_elem_of_app in Hx as [Hxp Hx].
    apply not_elem_of_app in Hx as [Hxa Hxe].
    simpl_lookup. rewrite Hkeep3, Hkeep2, Hkeep1; auto.
Qed.

Lemma well_formed_closed h l P la le :
  well_formed h l P la le ->
  well_formed (<[l := Struct (closed P)]> h) l (closed P) la le.
Proof.
  intros (Hl & Hpath & Hra & Hre & Hnd).
  assert (Hlive : forall x xs, Forall (fun x => exists bs,
                     h !! x = Some (Bytes bs)) xs -> x ∈ xs -> x <> l).
  { intros x xs HF Hx ->. rewrite Forall_forall in HF.
    destruct (HF l Hx). congruence. }
  assert (Hblocks : forall arr ls, releasable h arr ls ->
                      forall x, x ∈ blocks arr ls -> x <> l).
  { intros arr ls (Hent & _ & HF) x Hx. destruct arr as [a|]; simpl in *.
    - apply elem_of_cons in Hx as [->|Hx]; [|eauto].
      intros ->. rewrite Hl in Hent. discriminate.
    - eauto. }
  split; [now simpl_lookup|]. split; [|split; [|split; [|exact Hnd]]].
  - intros b Hb. destruct (Hpath b Hb) as [bs Hbs]. exists bs.
    assert (b <> l) by congruence. now simpl_lookup.
  - apply releasable_mono with (h := h); [exact Hra|].
    intros x Hx. pose proof (Hblocks _ _ Hra x Hx). now simpl_lookup.
  - apply releasable_mono with (h := h); [exact Hre|].
    intros x Hx. pose proof (Hblocks _ _ Hre x Hx). now simpl_lookup.
Qed.

(** A launch whose [fork] fails, in general: the result is 0 and the
    process identifier is [-1], but the handle holds the pipe ends. *)
Lemma open_fork_fails K h t l P i o e :
  h !! l = Some (Struct P) -> pid P = -1 ->
  answers K t i o e (-1) ->
  process_open K (Some l) (mkState h t)
  = Ret 0 (mkState (<[l := Struct (launched P i o e (-1))]> h)
             (t ++ open_calls i o e (-1) ++ parent_calls i o e)).
Proof.
  intros Hl Hp Hans.
  destruct (open_parent K h t l P i o e (-1) Hl Hp Hans) as [Hrun _];
    [discriminate|exact Hrun].
Qed.

(** A list that the library built from the absent list can be
    released. *)
Lemma appended_releasable h h' l f P copies strs :
  appended h h' l f P [] copies strs ->
  exists arr,
    h' !! l = Some (Struct (set_field f arr P))
    /\ releasable h' arr copies.
Proof.
  intros [(arr & Hl & Hown & _) Hs _ Hnd _]. exists arr.
  split; [exact Hl|]. split; [|split; [exact Hnd|]].
  - destruct arr as [a|]; simpl in *; [|now subst].
    rewrite Hown. apply entries_of_packed.
  - rewrite Forall_forall. intros c Hc.
    apply list_elem_of_lookup in Hc as [i Hi].
    destruct (Forall2_lookup_l _ _ _ _ _ Hs Hi) as (str & _ & Hstr).
    destruct (string_at_Some _ _ _ Hstr) as (bs & n & Hb & _ & _). eauto.
Qed.

(** *** The scenario *)

Example ready_is_created :
  process_create 2 (Some 1%positive) (Some 4%positive) (Some 5%positive)
    Demo.start = Ret (Some Scenario.handle) Scenario.ready
  /\ heap Scenario.ready !! Scenario.handle
     = Some (Struct Scenario.ready_handle).
Proof. split; vm_compute; reflexivity. Qed.

Example running_is_launched :
  process_open Demo.parent_side (Some Scenario.handle) Scenario.ready
  = Ret 1 Scenario.running
  /\ heap Scenario.running !! Scenario.handle
     = Some (Struct Scenario.running_handle).
Proof. split; vm_compute; reflexivity. Qed.

Example running_is_well_formed :
  well_formed (heap Scenario.running) Scenario.handle Scenario.running_handle
    [9%positive] [11%positive].
Proof.
  split; [reflexivity|]. split; [|split; [|split]].
  - intros b [= <-]. eexists. reflexivity.
  - split; [reflexivity|]. split; [apply NoDup_singleton|].
    repeat constructor. eexists. reflexivity.
  - split; [reflexivity|]. split; [apply NoDup_singleton|].
    repeat constructor. eexists. reflexivity.
  - simpl.
    repeat (apply NoDup_cons; split;
            [intros Hin;
             repeat (apply elem_of_cons in Hin as [Hin|Hin]; [discriminate|]);
             now apply elem_of_nil in Hin|]).
    apply NoDup_nil. exact I.
Qed.

(** *** Calls that return or are undefined *)

Lemma plain_ret {A} (a : A) : plain (ret a).
Proof. intros s. right. now exists a, s. Qed.

Lemma plain_fault {A} : plain (@fault A).
Proof. intros s. now left. Qed.

Lemma plain_bind {A B} (m : M A) (k : A -> M B) :
  plain m -> (forall a, plain (k a)) -> plain (bind m k).
Proof.
  intros Hm Hk s. unfold bind.
  destruct (Hm s) as [->|(a & s' & ->)]; [now left|apply Hk].
Qed.

Lemma plain_read p : plain (read p).
Proof.
  intros s. unfold read. destruct p as [l|]; [|now left].
  destruct (heap s !! l); [right; eauto|now left].
Qed.

Lemma plain_write p o : plain (write p o).
Proof.
  intros s. unfold write. destruct p as [l|]; [|now left].
  destruct (heap s !! l); [right; eauto|now left].
Qed.

Lemma plain_alloc o : plain (alloc o).
Proof. intros s. right. unfold alloc. eauto. Qed.

Lemma plain_read_struct p : plain (read_struct p).
Proof.
  apply plain_bind; [apply plain_read|].
  intros [| |P]; first [apply plain_ret|apply plain_fault].
Qed.

Lemma plain_read_slots p : plain (read_slots p).
Proof.
  apply plain_bind; [apply plain_read|].
  intros [|cs|]; first [apply plain_ret|apply plain_fault].
Qed.

Lemma plain_load pl : plain (load pl).
Proof.
  destruct pl as [p f|a i]; cbn [load].
  - apply plain_bind; [apply plain_read_struct|]. intros P. apply plain_ret.
  - apply plain_bind; [apply plain_read_slots|]. intros cs.
    destruct (cs !! i) as [[|v]|];
      first [apply plain_ret|apply plain_fault].
Qed.

Lemma plain_store pl v : plain (store pl v).
Proof.
  destruct pl as [p f|a i]; cbn [store].
  - apply plain_bind; [apply plain_read_struct|]. intros P.
    apply plain_write.
  - apply plain_bind; [apply plain_read_slots|]. intros cs.
    destruct (decide _); [apply plain_write|apply plain_fault].
Qed.

Lemma plain_load_at d : plain (load_at d).
Proof. destruct d; [apply plain_load|apply plain_fault]. Qed.

Lemma plain_store_at d v : plain (store_at d v).
Proof. destruct d; [apply plain_store|apply plain_fault]. Qed.

Lemma plain_write_int set p v : plain (write_int set p v).
Proof.
  apply plain_bind; [apply plain_read_struct|]. intros P. apply plain_write.
Qed.

Lemma plain_count arr : plain (_process_array_count arr).
Proof.
  destruct arr; [|apply plain_ret]. cbn [_process_array_count].
  apply plain_bind; [apply plain_read_slots|]. intros cs.
  destruct (scan cs); first [apply plain_ret|apply plain_fault].
Qed.

Lemma plain_realloc a n : plain (realloc a n).
Proof.
  destruct a; cbn [realloc]; [|apply plain_alloc].
  apply plain_bind; [apply plain_read_slots|]. intros cs.
  apply plain_bind; [apply plain_write|]. intros _. apply plain_ret.
Qed.

(** A call that is undefined in every state stays so after calls that
    return or are undefined. *)
Lemma bind_plain_Fault {A B} (m : M A) (k : A -> M B) s :
  plain m -> (forall a s', k a s' = Fault) -> bind m k s = Fault.
Proof.
  intros Hm Hk. unfold bind.
  destruct (Hm s) as [->|(a & s' & ->)]; [reflexivity|apply Hk].
Qed.

Lemma push_null arr s : _process_array_push arr NULL s = Fault.
Proof.
  unfold _process_array_push.
  repeat (apply bind_plain_Fault;
          [first [apply plain_load_at|apply plain_count|apply plain_realloc
                 |apply plain_store_at]|intros ? ?]).
  reflexivity.
Qed.

(** *** Appending makes no system call *)

Section QuietPush.
Context (t : list syscall).

Lemma quiet_realloc a n : preserves (trace_is t) (realloc a n).
Proof.
  destruct a as [a|]; cbn [realloc]; [|apply quiet_alloc].
  apply preserves_bind; [apply preserves_read_slots|]. intros cs.
  apply preserves_bind; [apply quiet_write|]. intros _. apply preserves_ret.
Qed.

Lemma quiet_calloc n : preserves (trace_is t) (calloc n).
Proof. apply quiet_alloc. Qed.

Lemma quiet_memcpy d b n : preserves (trace_is t) (memcpy d b n).
Proof.
  unfold memcpy.
  apply preserves_bind; [apply preserves_read_bytes|]. intros db.
  apply preserves_bind; [apply preserves_read_bytes|]. intros sb.
  destruct (decide _); [apply quiet_write|apply preserves_fault].
Qed.

Lemma quiet_push arr item :
  preserves (trace_is t) (_process_array_push arr item).
Proof.
  apply preserves_push;
    auto using quiet_store, quiet_realloc, quiet_calloc, quiet_memcpy.
Qed.

End QuietPush.

(** *** The strings of a list in a later heap *)

Lemma strings_stable (h h' : gmap loc object) arr strs :
  strings h arr = Some strs ->
  (forall a cs, arr = Some a -> h !! a = Some (Slots cs) ->
                h' !! a = Some (Slots cs)) ->
  (forall c bs, h !! c = Some (Bytes bs) -> h' !! c = Some (Bytes bs)) ->
  strings h' arr = Some strs.
Proof.
  intros Hs Ha Hb. destruct (strings_elim _ _ _ Hs) as (ls & He & Hf).
  unfold strings.
  assert (He' : entries h' arr = Some ls).
  { destruct arr as [a|]; [|exact He]. simpl in *.
    destruct (h !! a) as [[|cs|]|] eqn:E; try discriminate.
    now rewrite (Ha a cs eq_refl E). }
  rewrite He'. simpl. apply mapM_Some.
  eapply Forall2_string_at_mono; eauto.
Qed.

(** The loop of [process_add_args] and [process_add_envs] is one append
    per entry of the caller's array. *)
Lemma add_all_spec f l (add : ptr -> ptr -> M unit) fuel h t P old olds
    args items strs :
  pushes_to l f (add (Some l)) ->
  h !! l = Some (Struct P) ->
  owns h (get_field f P) old ->
  Forall2 (fun c str => string_at h c = Some str) old olds ->
  entries h args = Some items ->
  Forall2 (fun it str => string_at h it = Some str) items strs ->
  get_field f P = NULL \/ get_field f P <> args ->
  (length items < fuel)%nat ->
  add_loop add fuel (Some l) args 0 (mkState h t)
  = appends (add (Some l)) items (mkState h t)
  /\ exists h' arr,
       add_loop add fuel (Some l) args 0 (mkState h t)
       = Ret tt (mkState h' t)
       /\ h' !! l = Some (Struct (set_field f arr P))
       /\ strings h' arr = Some (olds ++ strs)
       /\ (forall x o, h !! x = Some o -> x <> l ->
                       get_field f P <> Some x -> h' !! x = Some o).
Proof.
  intros Hadd Hl Hown Holds Hent Hstrs Hne Hfuel.
  assert (Heq : add_loop add fuel (Some l) args 0 (mkState h t)
                = appends (add (Some l)) items (mkState h t)).
  { destruct args as [ua|]; simpl in Hent.
    - destruct (h !! ua) as [[|ucs|]|] eqn:Hua; try discriminate.
      erewrite add_loop_appends with (k := length items); eauto.
      destruct Hne as [->|]; congruence.
    - injection Hent as <-. destruct fuel; [lia|]. reflexivity. }
  split; [exact Heq|]. rewrite Heq.
  destruct (appends_spec f l (add (Some l)) items strs h t P old
              Hadd Hl Hown Hstrs)
    as (h' & copies & Hrun & [(arr & Hl' & Hown' & _) Hs _ _ Hfr]).
  exists h', arr. split; [exact Hrun|]. split; [exact Hl'|].
  split; [|exact Hfr].
  apply strings_intro with (copies := old ++ copies); [exact Hown'|].
  apply Forall2_app; [|exact Hs].
  eapply Forall2_string_at_mono; [|exact Holds].
  intros c bs Hc. apply Hfr; [exact Hc|congruence|].
  intros Hfx. rewrite Hfx in Hown. simpl in Hown. congruence.
Qed.

(** *** The blocks that a run of appends allocates *)

Lemma appends_exact f l add items : forall strs h t P old,
  pushes_to l f add ->
  h !! l = Some (Struct P) ->
  owns h (get_field f P) old ->
  Forall2 (fun it str => string_at h it = Some str) items strs ->
  exists h' copies arr,
    appends add items (mkState h t) = Ret tt (mkState h' t)
    /\ h' !! l = Some (Struct (set_field f arr P))
    /\ owns h' arr (old ++ copies)
    /\ Forall (fun c => exists bs, h' !! c = Some (Bytes bs)) copies
    /\ NoDup copies
    /\ Forall (fun c => h !! c = None) copies
    /\ (arr = get_field f P
        \/ (get_field f P = NULL
            /\ exists a, arr = Some a /\ h !! a = None /\ a ∉ copies))
    /\ (forall x, x <> l -> arr <> Some x -> x ∉ copies ->
                  h' !! x = h !! x).
Proof.
  induction items as [|it items IH]; intros strs h t P old Hadd Hl Hown Hstrs.
  - inversion Hstrs; subst. exists h, [], (get_field f P).
    rewrite set_get_field, app_nil_r.
    repeat split; auto; constructor.
  - inversion Hstrs as [|? str ? strs' Hit Hrest]; subst.
    destruct (string_at_Some _ _ _ Hit) as (bs & n & Hb & Hn & ->).
    destruct (push_frame h t l P f old it bs n Hl Hown Hb Hn)
      as (a & c & Hrun & Hc & Hca & Hal & Hcl & Ha & Hkeep).
    cbv zeta in *. rewrite <- (Hadd _ _ _ _ _ _ _ Hl Hown Hb Hn) in Hrun.
    set (h1 := pushed h l f P old (take n bs) a c) in *.
    assert (Hrest1 : Forall2 (fun it str => string_at h1 it = Some str)
                       items strs').
    { apply strings_kept with (h := h)
        (Q := fun x => x <> l /\ get_field f P <> Some x); auto.
      - intros x o Hx [? ?]. now apply Hkeep.
      - intros x bs' Hx. split; [congruence|].
        intros Hfx. rewrite Hfx in Hown. simpl in Hown. congruence. }
    assert (Hc1 : h1 !! c = Some (Bytes (take n bs ++ [x00])))
      by (unfold h1; now apply pushed_copy).
    assert (Ha1 : h1 !! a = Some (Slots (packed (old ++ [c]))))
      by (unfold h1; apply pushed_array).
    destruct (IH strs' h1 t (set_field f (Some a) P) (old ++ [c]))
      as (h' & copies & arr & Hrun' & Hl' & Hown' & Hby & Hnd & Hfr & Harr
          & Hex); auto.
    { unfold h1. now apply pushed_handle. }
    { rewrite get_set_field. exact Ha1. }
    rewrite get_set_field in Harr.
    assert (arr = Some a) as -> by (destruct Harr as [?|[? _]]; congruence).
    clear Harr. rewrite Forall_forall in Hfr.
    assert (Hcn : c ∉ copies).
    { intros Hin. specialize (Hfr c Hin). congruence. }
    assert (Han : a ∉ copies).
    { intros Hin. specialize (Hfr a Hin). congruence. }
    exists h', (c :: copies), (Some a).
    split; [simpl; now rewrite (bind_Ret _ _ _ _ _ Hrun)|].
    split; [now rewrite set_set_field in Hl'|].
    split; [now rewrite <- app_assoc in Hown'|].
    split; [|split; [|split; [|split]]].
    + constructor; [|exact Hby]. exists (take n bs ++ [x00]).
      rewrite Hex; auto. congruence.
    + apply NoDup_cons. split; assumption.
    + constructor; [exact Hc|]. rewrite Forall_forall. intros x Hx.
      specialize (Hfr x Hx). now apply pushed_None in Hfr.
    + destruct Ha as [Ha|[Ha Hah]]; [now left|right].
      split; [exact Ha|]. exists a. repeat split; auto.
      intros Hin. apply elem_of_cons in Hin as [->|Hin]; [congruence|auto].
    + intros x Hxl Hxa Hxc. apply not_elem_of_cons in Hxc as [Hxc Hxn].
      rewrite Hex by auto. apply pushed_other; congruence.
Qed.

(** A run of appends to a member that is null: the list it builds can be
    released, and its blocks are exactly the blocks that are new. *)
Lemma appends_builds f l add items strs h t P :
  pushes_to l f add ->
  Forall2 (fun it str => string_at h it = Some str) items strs ->
  h !! l = Some (Struct P) ->
  get_field f P = NULL ->
  exists h' copies arr,
    appends add items (mkState h t) = Ret tt (mkState h' t)
    /\ h' !! l = Some (Struct (set_field f arr P))
    /\ releasable h' arr copies
    /\ NoDup (blocks arr copies)
    /\ (forall x, x ∈ blocks arr copies -> h !! x = None)
    /\ (forall x, x <> l -> x ∉ blocks arr copies -> h' !! x = h !! x).
Proof.
  intros Hadd Hstrs Hl Hnull.
  assert (Hown : owns h (get_field f P) []) by now rewrite Hnull.
  destruct (appends_exact f l add items strs h t P [] Hadd Hl Hown Hstrs)
    as (h' & copies & arr & Hrun & Hl' & Hown' & Hby & Hnd & Hfr & Harr
        & Hex).
  simpl in Hown'. rewrite Forall_forall in Hfr.
  exists h', copies, arr. split; [exact Hrun|].
  split; [exact Hl'|]. split; [|split; [|split]].
  - split; [|split; [exact Hnd|exact Hby]].
    destruct arr as [a|]; simpl in *; [|now subst].
    rewrite Hown'. apply entries_of_packed.
  - destruct Harr as [->|(_ & a & -> & _ & Ha)]; rewrite ?Hnull; simpl;
      [exact Hnd|]. apply NoDup_cons. split; assumption.
  - intros x Hx.
    destruct Harr as [->|(_ & a & -> & Hah & Ha)]; rewrite ?Hnull in Hx;
      simpl in Hx; [auto|].
    apply elem_of_cons in Hx as [->|Hx]; auto.
  - intros x Hxl Hx. apply Hex; auto.
    + intros ->. apply Hx. simpl. apply elem_of_cons. now left.
    + intros Hin. apply Hx. destruct arr; simpl; [|exact Hin].
      apply elem_of_cons. now right.
Qed.

Lemma add_loop_builds f l (add : ptr -> ptr -> M unit) args uls strs fuel
    h t P :
  pushes_to l f (add (Some l)) ->
  entries h args = Some uls ->
  Forall2 (fun it str => string_at h it = Some str) uls strs ->
  (length uls < fuel)%nat ->
  h !! l = Some (Struct P) ->
  get_field f P = NULL ->
  exists h' copies arr,
    add_loop add fuel (Some l) args 0 (mkState h t) = Ret tt (mkState h' t)
    /\ h' !! l = Some (Struct (set_field f arr P))
    /\ releasable h' arr copies
    /\ NoDup (blocks arr copies)
    /\ (forall x, x ∈ blocks arr copies -> h !! x = None)
    /\ (forall x, x <> l -> x ∉ blocks arr copies -> h' !! x = h !! x).
Proof.
  intros Hadd Hent Hstrs Hfuel Hl Hnull.
  assert (Hown : owns h (get_field f P) []) by now rewrite Hnull.
  destruct (add_all_spec f l add fuel h t P [] [] args uls strs)
    as [-> _]; auto.
  now apply appends_builds with (strs := strs).
Qed.

(** Appending to an absent list and clearing it again leaves the state as
    it was. *)
Lemma build_then_clear f l add (clear : ptr -> M unit) items strs h t P :
  pushes_to l f add ->
  clears f clear ->
  Forall2 (fun it str => string_at h it = Some str) items strs ->
  h !! l = Some (Struct P) ->
  get_field f P = NULL ->
  (appends add items;; clear (Some l)) (mkState h t) = Ret tt (mkState h t).
Proof.
  intros Hadd Hclear Hstrs Hl Hnull.
  destruct (appends_builds f l add items strs h t P Hadd Hstrs Hl Hnull)
    as (h' & copies & arr & Hrun & Hl' & Hrel & _ & Hnew & Hex).
  rewrite (bind_Ret _ _ _ _ _ Hrun).
  rewrite <- (get_set_field f arr P) in Hrel.
  destruct (Hclear h' t l _ copies Hl' Hrel)
    as (h'' & -> & Hl'' & Hgone & Hkeep).
  rewrite get_set_field in Hgone, Hkeep.
  rewrite set_set_field, <- Hnull, set_get_field in Hl''.
  do 2 f_equal. apply map_eq. intros x.
  destruct (decide (x = l)) as [->|Hxl]; [congruence|].
  destruct (decide (x ∈ blocks arr copies)) as [Hx|Hx].
  - now rewrite Hgone, Hnew.
  - now rewrite Hkeep, Hex.
Qed.

Lemma releasable_live h arr ls x :
  releasable h arr ls -> x ∈ blocks arr ls -> is_Some (h !! x).
Proof.
  intros (Hent & _ & HF) Hx. rewrite Forall_forall in HF.
  destruct arr as [a|]; simpl in *.
  - apply elem_of_cons in Hx as [->|Hx].
    + destruct (h !! a); [eauto|discriminate].
    + destruct (HF x Hx) as [bs ->]. eauto.
  - destruct (HF x Hx) as [bs ->]. eauto.
Qed.

(** The loop of [process_add_args] and [process_add_envs], with the lists
    it leaves alone. *)
Lemma add_all_lists f l (add : ptr -> ptr -> M unit) fuel h t P old olds
    args items strs :
  pushes_to l f (add (Some l)) ->
  h !! l = Some (Struct P) ->
  owns h (get_field f P) old ->
  strings h (get_field f P) = Some olds ->
  entries h args = Some items ->
  strings h args = Some strs ->
  get_field f P = NULL \/ get_field f P <> args ->
  (length items < fuel)%nat ->
  add_loop add fuel (Some l) args 0 (mkState h t)
  = appends (add (Some l)) items (mkState h t)
  /\ exists h' arr,
       add_loop add fuel (Some l) args 0 (mkState h t)
       = Ret tt (mkState h' t)
       /\ h' !! l = Some (Struct (set_field f arr P))
       /\ strings h' arr = Some (olds ++ strs)
       /\ (forall other ostrs,
             strings h other = Some ostrs ->
             get_field f P = NULL \/ get_field f P <> other ->
             strings h' other = Some ostrs).
Proof.
  intros Hadd Hl Hown Holds Hent Hstrs Hne Hfuel.
  destruct (strings_elim _ _ _ Holds) as (old' & Hold' & Hfo).
  assert (old' = old) as ->.
  { destruct (get_field f P) as [a|]; simpl in *; [|congruence].
    rewrite Hown, entries_of_packed in Hold'. congruence. }
  destruct (strings_elim _ _ _ Hstrs) as (items' & Hitems' & Hfi).
  assert (items' = items) as -> by congruence.
  destruct (add_all_spec f l add fuel h t P old olds args items strs)
    as (Heq & h' & arr & Hrun & Hl' & Hs' & Hfr); auto.
  split; [exact Heq|]. exists h', arr. repeat split; auto.
  intros other ostrs Ho Hdis.
  eapply strings_stable; [exact Ho|..].
  - intros a cs -> Ha. apply Hfr; [exact Ha|congruence|].
    destruct Hdis as [->|]; congruence.
  - intros c bs Hc. apply Hfr; [exact Hc|congruence|].
    intros Hfx. rewrite Hfx in Hown. simpl in Hown. congruence.
Qed.

(** *** The blocks of a created handle *)

(** [process_create] returns a well-formed handle whose blocks are
    exactly the blocks that are new. *)
Lemma create_owned fuel h t path0 argv0 envp0 pstr astrs estrs :
  string_at h path0 = Some pstr ->
  strings h argv0 = Some astrs ->
  strings h envp0 = Some estrs ->
  (length astrs < fuel)%nat ->
  (length estrs < fuel)%nat ->
  exists p P la le h',
    process_create fuel (Some path0) argv0 envp0 (mkState h t)
    = Ret (Some p) (mkState h' t)
    /\ well_formed h' p P la le
    /\ all_unset P
    /\ (forall x, x ∈ owned p P la le -> h !! x = None)
    /\ (forall x, x ∉ owned p P la le -> h' !! x = h !! x).
Proof.
  intros Hpath Ha He Hfa Hfe.
  destruct (string_at_Some _ _ _ Hpath) as (bs & n & Hb & Hn & ->).
  unfold process_create.
  destruct (create_prefix h t path0 bs n
              (fun p => process_add_args fuel p argv0;;
                        process_add_envs fuel p envp0;; ret p) Hb Hn)
    as (p & b & h1 & Hrun & Hp & Hbn & Hpb & Hp1 & Hb1 & Hfr1).
  rewrite Hrun. clear Hrun.
  assert (Hkeep1 : forall x o, h !! x = Some o -> h1 !! x = Some o).
  { intros x o Hx. rewrite Hfr1; auto; congruence. }
  assert (Ha1 : strings h1 argv0 = Some astrs)
    by (eapply strings_stable; eauto).
  assert (He1 : strings h1 envp0 = Some estrs)
    by (eapply strings_stable; eauto).
  destruct (strings_elim _ _ _ Ha1) as (ua & Hua & Hsa).
  pose proof (Forall2_length _ _ _ Hsa) as Hlena.
  destruct (add_loop_builds f_argv p process_add_arg argv0 ua astrs fuel
              h1 t (mkProcess (Some b) NULL NULL (-1) (-1) (-1) (-1)))
    as (h2 & ca & arr_a & Hrun2 & Hp2 & Hrel2 & Hnd2 & Hnew2 & Hex2);
    auto using pushes_to_add_arg; try lia.
  cbn [set_field path argv envp in_ out err pid] in Hp2.
  assert (Hkeep2 : forall x o, h1 !! x = Some o -> x <> p ->
                               h2 !! x = Some o).
  { intros x o Hx Hxp. rewrite Hex2; auto.
    intros Hin. apply Hnew2 in Hin. congruence. }
  assert (He2 : strings h2 envp0 = Some estrs).
  { eapply strings_stable; [exact He1|..].
    - intros a cs _ Hx. apply Hkeep2; auto. congruence.
    - intros c bs' Hx. apply Hkeep2; auto. congruence. }
  destruct (strings_elim _ _ _ He2) as (ue & Hue & Hse).
  pose proof (Forall2_length _ _ _ Hse) as Hlene.
  destruct (add_loop_builds f_envp p process_add_env envp0 ue estrs fuel
              h2 t (mkProcess (Some b) arr_a NULL (-1) (-1) (-1) (-1)))
    as (h3 & ce & arr_e & Hrun3 & Hp3 & Hrel3 & Hnd3 & Hnew3 & Hex3);
    auto using pushes_to_add_env; try lia.
  cbn [set_field path argv envp in_ out err pid] in Hp3.
  assert (Hb2 : h2 !! b = Some (Bytes (take n bs ++ [x00])))
    by (apply Hkeep2; auto).
  assert (Hpa : p ∉ blocks arr_a ca).
  { intros Hin. apply Hnew2 in Hin. congruence. }
  assert (Hba : b ∉ blocks arr_a ca).
  { intros Hin. apply Hnew2 in Hin. congruence. }
  assert (Hpe : p ∉ blocks arr_e ce).
  { intros Hin. apply Hnew3 in Hin. congruence. }
  assert (Hbe : b ∉ blocks arr_e ce).
  { intros Hin. apply Hnew3 in Hin. congruence. }
  assert (Hae : forall x, x ∈ blocks arr_a ca -> x ∉ blocks arr_e ce).
  { intros x Hx Hin. apply Hnew3 in Hin.
    destruct (releasable_live _ _ _ _ Hrel2 Hx). congruence. }
  exists p, (mkProcess (Some b) arr_a arr_e (-1) (-1) (-1) (-1)), ca, ce, h3.
  split.
  { unfold process_add_args, process_add_envs.
    rewrite (bind_Ret _ _ _ _ _ Hrun2), (bind_Ret _ _ _ _ _ Hrun3).
    reflexivity. }
  unfold owned, well_formed.
  cbn [blocks path argv envp in_ out err pid app].
  split; [|split; [now repeat split|split]].
  - split; [exact Hp3|]. split; [|split; [|split; [exact Hrel3|]]].
    + intros b' [= <-]. eexists. rewrite Hex3; eauto.
    + apply releasable_mono with (h := h2); [exact Hrel2|].
      intros x Hx. apply Hex3; [intros ->; auto|now apply Hae].
    + apply NoDup_cons. split; [rewrite elem_of_app; tauto|].
      apply NoDup_app. repeat split; auto.
  - intros x Hx.
    apply elem_of_cons in Hx as [->|Hx]; [exact Hp|].
    apply elem_of_cons in Hx as [->|Hx]; [exact Hbn|].
    apply elem_of_app in Hx as [Hx|Hx].
    + rewrite <- Hfr1; [now apply Hnew2|intros ->; auto|intros ->; auto].
    + rewrite <- Hfr1; [|intros ->; auto|intros ->; auto].
      rewrite <- Hex2; [now apply Hnew3|intros ->; auto|].
      intros Hin. exact (Hae x Hin Hx).
  - intros x Hx. apply not_elem_of_cons in Hx as [Hxp Hx].
    apply not_elem_of_cons in Hx as [Hxb Hx].
    apply not_elem_of_app in Hx as [Hxa Hxe].
    rewrite Hex3, Hex2, Hfr1; auto.
Qed.

(** * The properties of the specification *)

(** ** The string-list store *)

(** C8.  From a list [old] that the library built in member [f] of a
    handle (the absent list, [old = []], included), [N] calls of
    [_process_array_push] (of [process_add_arg] for [f_argv], of
    [process_add_env] for [f_envp]) return; [_process_array_count] then
    yields [length old + N], which is [N] from the absent list; every
    appended string is stored as a copy with the same contents in a block
    that did not exist before, and the caller's strings are untouched.
    Each append leaves an array block of exactly the count before it plus
    2 slots: after the first [k + 1] appends the block has
    [(length old + k) + 2] slots. *)
Theorem appends_count_copies f l items strs s P old :
  heap s !! l = Some (Struct P) ->
  owns (heap s) (get_field f P) old ->
  Forall2 (fun it str => string_at (heap s) it = Some str) items strs ->
  (exists s' copies,
     appends (_process_array_push (Some (Field (Some l) f))) items s
     = Ret tt s'
     /\ append_result s s' l f old items copies strs)
  /\ (forall k, (k < length items)%nat ->
      exists sk a cs,
        appends (_process_array_push (Some (Field (Some l) f)))
          (take (S k) items) s = Ret tt sk
        /\ load (Field (Some l) f) sk = Ret (Some a) sk
        /\ heap sk !! a = Some (Slots cs)
        /\ length cs = ((length old + k) + 2)%nat).
Proof.
  destruct s as [h t]. cbn [heap trace]. intros Hl Hown Hstrs. split.
  - destruct (appends_spec f l _ items strs h t P old (pushes_to_push l f)
                Hl Hown Hstrs)
      as (h' & copies & Hrun & [(arr & Hl' & Hown' & Harr) Hs Hf Hn Hfr]).
    exists (mkState h' t), copies. split; [exact Hrun|].
    assert (Hlen : length copies = length items).
    { apply Forall2_length in Hs, Hstrs. congruence. }
    assert (Hload : load (Field (Some l) f) (mkState h' t)
                    = Ret arr (mkState h' t)).
    { erewrite load_field_ok by eassumption. now rewrite get_set_field. }
    split; cbn [heap trace]; auto.
    + exists arr. split; [exact Hload|].
      destruct arr as [a|]; simpl in Hown'.
      * erewrite count_ok by (first [eassumption | apply scan_packed]).
        now rewrite length_app, Hlen.
      * apply app_eq_nil in Hown' as [-> ->].
        destruct items; [|discriminate]. reflexivity.
    + intros Hne. destruct arr as [a|]; simpl in Hown'.
      * exists a, (packed (old ++ copies)). repeat split; auto.
        rewrite length_packed, length_app. lia.
      * apply app_eq_nil in Hown' as [-> ->]. now destruct items.
    + eapply Forall2_impl; [exact Hstrs|]. intros it str Hit. cbn beta in *.
      destruct (string_at_Some _ _ _ Hit) as (bs & n & Hb & _ & _).
      unfold string_at in *. rewrite (Hfr it (Bytes bs)); auto.
      * now rewrite Hb in Hit.
      * congruence.
      * intros Ha. rewrite Ha in Hown. simpl in Hown. congruence.
    + intros c it Hc Hit ->. rewrite Forall_forall in Hf.
      specialize (Hf _ Hc).
      apply list_elem_of_lookup in Hit as [i Hi].
      destruct (Forall2_lookup_l _ _ _ _ _ Hstrs Hi) as (str & _ & Hstr).
      destruct (string_at_Some _ _ _ Hstr) as (bs & n & Hb & _ & _).
      congruence.
  - intros k Hk.
    destruct (appends_spec f l _ (take (S k) items) (take (S k) strs) h t P
                old (pushes_to_push l f) Hl Hown)
      as (hk & copies & Hrun & [(arr & Hl' & Hown' & _) Hs _ _ _]).
    { now apply Forall2_take. }
    assert (Hlen : length copies = S k).
    { apply Forall2_length in Hs. rewrite Hs, length_take.
      apply Forall2_length in Hstrs. lia. }
    destruct arr as [a|]; simpl in Hown'.
    + exists (mkState hk t), a, (packed (old ++ copies)).
      split; [exact Hrun|]. split; [|split; [exact Hown'|]].
      * erewrite load_field_ok by eassumption. now rewrite get_set_field.
      * rewrite length_packed, length_app. lia.
    + apply app_eq_nil in Hown' as [_ ->]. discriminate.
Qed.

(** C9.  For every list that can be released (the absent list included),
    [_process_array_clear], and with it [process_clear_argv] and
    [process_clear_envp], returns and leaves the list absent, so that a
    count yields 0; the array and its elements are freed; clearing again,
    or clearing an absent list, changes nothing. *)
Theorem clear_resets_list s l P f ls :
  heap s !! l = Some (Struct P) ->
  releasable (heap s) (get_field f P) ls ->
  exists s',
    _process_array_clear (Some (Field (Some l) f)) s = Ret tt s'
    /\ (f = f_argv -> process_clear_argv (Some l) s = Ret tt s'
                      /\ process_clear_argv (Some l) s' = Ret tt s')
    /\ (f = f_envp -> process_clear_envp (Some l) s = Ret tt s'
                      /\ process_clear_envp (Some l) s' = Ret tt s')
    /\ clear_result s s' l f (get_field f P) ls.
Proof.
  destruct s as [h t]. simpl. intros Hl Hrel.
  destruct (clear_spec h t l P f ls Hl Hrel)
    as (h' & Hrun & Hl' & Hgone & Hkeep & Hnoop).
  assert (Hrel' : releasable h' (get_field f (set_field f NULL P)) []).
  { rewrite get_set_field. repeat split; constructor. }
  destruct (clear_spec h' t l _ f [] Hl' Hrel')
    as (h'' & Hrun' & _ & _ & _ & Hnoop').
  rewrite get_set_field in Hnoop'. rewrite (Hnoop' eq_refl) in Hrun'.
  assert (Hstore : store (Field (Some l) f) NULL (mkState h' t)
                   = Ret tt (mkState h' t)).
  { erewrite store_field_ok by eassumption.
    now rewrite set_set_field, insert_id. }
  exists (mkState h' t). split; [exact Hrun|].
  split; [|split].
  - intros ->. unfold process_clear_argv.
    now rewrite (bind_Ret _ _ _ _ _ Hrun), (bind_Ret _ _ _ _ _ Hrun').
  - intros ->. unfold process_clear_envp.
    now rewrite (bind_Ret _ _ _ _ _ Hrun), (bind_Ret _ _ _ _ _ Hrun').
  - split; cbn [heap trace]; auto.
    + erewrite load_field_ok by eassumption. now rewrite get_set_field.
    + erewrite bind_Ret by (eapply load_field_ok; eassumption).
      now rewrite get_set_field.
    + intros E. now rewrite (Hnoop E).
Qed.

(** ** The handle *)

(** C7.  [process_close] on a live handle returns; it closes each of the
    three descriptors that is not [-1] and sets it to [-1]; if the process
    identifier is not [-1] it sends [SIGKILL], calls [waitpid] with
    [WNOHANG] and sets the identifier to [-1]; it makes no other call and
    changes nothing else.  On a handle that is closed or was never
    launched it changes nothing, and a second close changes nothing. *)
Theorem close_resets_handle s l P :
  heap s !! l = Some (Struct P) ->
  exists s',
    process_close (Some l) s = Ret tt s'
    /\ heap s' = <[l := Struct (closed P)]> (heap s)
    /\ trace s' = trace s ++ closes (in_ P) ++ closes (out P)
                    ++ closes (err P) ++ reaps (pid P)
    /\ (all_unset P -> s' = s)
    /\ process_close (Some l) s' = Ret tt s'.
Proof.
  destruct s as [h t]. simpl. intros Hl.
  eexists. split; [apply close_spec; exact Hl|]. simpl.
  repeat split.
  - intros HP. pose proof HP as (Hi & Ho & He & Hp).
    rewrite (closed_unset _ HP), insert_id by assumption.
    unfold closes, reaps. rewrite Hi, Ho, He, Hp. simpl.
    now rewrite app_nil_r.
  - erewrite close_spec by apply lookup_insert_eq.
    rewrite insert_insert_eq. unfold closes, reaps. simpl.
    now rewrite app_nil_r.
Qed.

(** C6.  [process_open] on a handle whose process identifier is set
    returns 0 and leaves the whole state as it is: no call is made, the
    identifier and the three descriptors are those of the first launch. *)
Theorem open_twice_is_noop K s l P :
  heap s !! l = Some (Struct P) ->
  pid P <> -1 ->
  process_open K (Some l) s = Ret 0 s.
Proof.
  destruct s as [h t]. simpl. intros Hl Hp.
  now destruct (open_guard K h t l P Hl Hp).
Qed.

(** C5.  In the child, [process_open] never returns: after the pipe ends
    are closed and duplicated onto descriptors 0, 1 and 2, the child calls
    [setsid], then [execve] with the path, argument list and environment
    list of the handle; when [execve] fails it calls [_exit(1)]. *)
Theorem child_detaches_then_execs K s l P i o e :
  heap s !! l = Some (Struct P) ->
  pid P = -1 ->
  answers K (trace s) i o e 0 ->
  let before := trace s ++ open_calls i o e 0 ++ wiring_calls i o e
                  ++ [sys_setsid] in
  exists s',
    process_open K (Some l) s = Halt s'
    /\ (k_execve K before = true ->
        trace s' = before ++ [sys_execve (path P) (argv P) (envp P) true])
    /\ (k_execve K before = false ->
        trace s' = before ++ [sys_execve (path P) (argv P) (envp P) false;
                              sys_exit 1]).
Proof.
  destruct s as [h t]. simpl. intros Hl Hp Hans.
  destruct (open_child K h t l P i o e Hl Hp Hans) as [Hrun _].
  cbv zeta in Hrun. rewrite <- !app_assoc in Hrun.
  eexists. split; [exact Hrun|]. simpl. unfold exec_calls.
  split; intros ->; now rewrite <- !app_assoc.
Qed.

(** C4.  For every path, argv and envp that are valid C strings and
    null-terminated arrays of C strings, [process_create] returns a new
    handle; in the current revision its argument list holds exactly the
    strings of argv, in order, and in the earlier revision the path
    followed by the strings of argv, in order.  Each revision applies its
    policy to every input, and the path, if inserted, comes before every
    entry of argv. *)
Theorem create_argument_policy fuel s path0 argv0 envp0 pstr astrs estrs :
  string_at (heap s) path0 = Some pstr ->
  strings (heap s) argv0 = Some astrs ->
  strings (heap s) envp0 = Some estrs ->
  (length astrs < fuel)%nat ->
  (length estrs < fuel)%nat ->
  (exists p s',
     process_create fuel (Some path0) argv0 envp0 s = Ret (Some p) s'
     /\ created s s' p pstr astrs estrs)
  /\ (exists p s',
        Earlier.process_create fuel (Some path0) argv0 envp0 s
        = Ret (Some p) s'
        /\ created s s' p pstr (pstr :: astrs) estrs).
Proof.
  destruct s as [h t]. simpl. intros Hp Ha He Hfa Hfe. split.
  - now apply create_spec.
  - now apply earlier_create_spec.
Qed.

(** C10.  [process_close] dereferences its argument at once: on a null
    handle the behaviour is undefined, and the call returns exactly when
    the handle points to a live [struct Process].  [process_free] tests
    for null first and returns without doing anything. *)
Theorem close_null_is_undefined :
  (forall s, process_close NULL s = Fault)
  /\ (forall s p,
        (exists s', process_close p s = Ret tt s')
        <-> (exists l P, p = Some l /\ heap s !! l = Some (Struct P)))
  /\ (forall s, process_free NULL s = Ret tt s)
  /\ (forall s, Earlier.process_free NULL s = Ret tt s).
Proof.
  split; [reflexivity|]. split; [|split; reflexivity].
  intros [h t] p. split.
  - intros [s' Hrun]. destruct p as [l|]; [|discriminate].
    destruct (h !! l) as [[| |P]|] eqn:Hl; eauto; exfalso;
      rewrite close_Fault in Hrun; try discriminate;
      intros l' P' [= <-]; congruence.
  - intros (l & P & -> & Hl). eexists. apply close_spec. exact Hl.
Qed.

(** ** Where the code departs from the specification *)

(** C1.  A launch whose [fork] fails returns 0 and leaves the process
    identifier at [-1], but the [else] branch has stored the pipe ends:
    the handle holds the descriptors 4, 5 and 7, and they are open. *)
Theorem failed_fork_keeps_pipe_ends :
  exists s' P,
    process_open Demo.no_fork (Some Scenario.handle) Scenario.ready
    = Ret 0 s'
    /\ heap s' !! Scenario.handle = Some (Struct P)
    /\ pid P = -1
    /\ (in_ P, out P, err P) = (4, 5, 7)
    /\ open_fds (trace s') = [7; 5; 4; 0; 1; 2].
Proof.
  eexists. eexists. split; [vm_compute; reflexivity|].
  split; [vm_compute; reflexivity|]. repeat split.
Qed.

(** C2.  The state after a failed [fork] is one the handle reaches through
    create and launch, and in it the process identifier is unset while the
    three descriptors are set. *)
Theorem failed_fork_breaks_pairing :
  exists s P,
    reachable Demo.no_fork Scenario.handle s
    /\ heap s !! Scenario.handle = Some (Struct P)
    /\ pid P = -1 /\ in_ P <> -1 /\ out P <> -1 /\ err P <> -1
    /\ ~ linked P.
Proof.
  eexists. eexists. split.
  { eapply reach_step with (o := op_open).
    - eapply reach_create
        with (s0 := Demo.start) (fuel := 2%nat) (pa := Some 1%positive)
             (av := Some 4%positive) (ev := Some 5%positive).
      vm_compute. reflexivity.
    - vm_compute. reflexivity. }
  split; [vm_compute; reflexivity|].
  simpl. repeat split; try discriminate.
  intros [(Hi & _)|(_ & _ & _ & Hp)]; [discriminate|now apply Hp].
Qed.

(** C3.  [process_free] of the current revision on a running handle
    releases the path, both lists and the handle, but makes no call at
    all: the three descriptors stay open and the child is not killed.  The
    earlier revision closes first. *)
Theorem free_does_not_close :
  (exists s',
     process_free (Some Scenario.handle) Scenario.running = Ret tt s'
     /\ heap s' = Demo.caller_heap
     /\ trace s' = trace Scenario.running
     /\ open_fds (trace s') = [7; 5; 4; 0; 1; 2]
     /\ live_children (trace s') = [4242])
  /\ (exists s',
        Earlier.process_free (Some Scenario.handle) Scenario.running
        = Ret tt s'
        /\ heap s' = Demo.caller_heap
        /\ trace s' = trace Scenario.running
                        ++ [sys_close 4; sys_close 5; sys_close 7;
                            sys_kill 4242 SIGKILL; sys_waitpid 4242 WNOHANG]
        /\ open_fds (trace s') = [0; 1; 2]
        /\ live_children (trace s') = []).
Proof.
  split; eexists; (split; [vm_compute; reflexivity|]);
    repeat split; vm_compute; reflexivity.
Qed.

(** ** The theorems at concrete inputs *)

Lemma appends_count_copies_witness :
  heap Scenario.bare !! Scenario.handle
  = Some (Struct (mkProcess (Some 7%positive) NULL NULL (-1) (-1) (-1) (-1)))
  /\ exists s' copies,
       appends (_process_array_push (Some (Field (Some Scenario.handle) f_argv)))
         [2%positive; 3%positive] Scenario.bare = Ret tt s'
       /\ append_result Scenario.bare s' Scenario.handle f_argv []
            [2%positive; 3%positive] copies
            [Demo.cstr "hi"; Demo.cstr "LANG=C"].
Proof.
  split; [reflexivity|].
  apply (appends_count_copies f_argv Scenario.handle
           [2%positive; 3%positive] [Demo.cstr "hi"; Demo.cstr "LANG=C"]
           Scenario.bare
           (mkProcess (Some 7%positive) NULL NULL (-1) (-1) (-1) (-1)) []).
  - reflexivity.
  - reflexivity.
  - repeat constructor.
Defined.

Lemma clear_resets_list_witness :
  releasable (heap Scenario.ready) (Some 8%positive) [9%positive]
  /\ exists s',
       _process_array_clear (Some (Field (Some Scenario.handle) f_argv))
         Scenario.ready = Ret tt s'
       /\ (f_argv = f_argv ->
           process_clear_argv (Some Scenario.handle) Scenario.ready = Ret tt s'
           /\ process_clear_argv (Some Scenario.handle) s' = Ret tt s')
       /\ (f_argv = f_envp ->
           process_clear_envp (Some Scenario.handle) Scenario.ready = Ret tt s'
           /\ process_clear_envp (Some Scenario.handle) s' = Ret tt s')
       /\ clear_result Scenario.ready s' Scenario.handle f_argv
            (Some 8%positive) [9%positive].
Proof.
  assert (H : releasable (heap Scenario.ready) (Some 8%positive) [9%positive]).
  { split; [reflexivity|]. split.
    - apply NoDup_singleton.
    - repeat constructor. eexists. reflexivity. }
  split; [exact H|].
  apply (clear_resets_list Scenario.ready Scenario.handle
           Scenario.ready_handle f_argv [9%positive]).
  - reflexivity.
  - exact H.
Defined.

Lemma close_resets_handle_witness :
  heap Scenario.running !! Scenario.handle
  = Some (Struct Scenario.running_handle)
  /\ exists s',
       process_close (Some Scenario.handle) Scenario.running = Ret tt s'
       /\ heap s' = <[Scenario.handle := Struct Scenario.ready_handle]>
                      (heap Scenario.running)
       /\ trace s' = trace Scenario.running
                       ++ [sys_close 4] ++ [sys_close 5] ++ [sys_close 7]
                       ++ [sys_kill 4242 SIGKILL; sys_waitpid 4242 WNOHANG]
       /\ (all_unset Scenario.running_handle -> s' = Scenario.running)
       /\ process_close (Some Scenario.handle) s' = Ret tt s'.
Proof.
  split; [reflexivity|].
  apply (close_resets_handle Scenario.running Scenario.handle
           Scenario.running_handle).
  reflexivity.
Defined.

Lemma open_twice_is_noop_witness :
  (heap Scenario.running !! Scenario.handle
   = Some (Struct Scenario.running_handle)
   /\ pid Scenario.running_handle <> -1)
  /\ process_open Demo.parent_side (Some Scenario.handle) Scenario.running
     = Ret 0 Scenario.running.
Proof.
  assert (H : pid Scenario.running_handle <> -1) by (simpl; lia).
  split; [split; [reflexivity|exact H]|].
  apply (open_twice_is_noop Demo.parent_side Scenario.running
           Scenario.handle Scenario.running_handle).
  - reflexivity.
  - exact H.
Defined.

Lemma child_detaches_then_execs_witness :
  answers Demo.child_side (trace Scenario.ready) (3, 4) (5, 6) (7, 8) 0
  /\ exists s',
       process_open Demo.child_side (Some Scenario.handle) Scenario.ready
       = Halt s'
       /\ trace s'
          = [sys_pipe (Some (3, 4)); sys_pipe (Some (5, 6));
             sys_pipe (Some (7, 8)); sys_fork 0;
             sys_close 4; sys_close 5; sys_close 7;
             sys_dup2 3 0; sys_dup2 6 1; sys_dup2 8 2;
             sys_close 3; sys_close 6; sys_close 8;
             sys_setsid;
             sys_execve (Some 7%positive) (Some 8%positive)
               (Some 10%positive) false;
             sys_exit 1].
Proof.
  assert (H : answers Demo.child_side (trace Scenario.ready)
                (3, 4) (5, 6) (7, 8) 0)
    by (repeat split; vm_compute; reflexivity).
  split; [exact H|].
  destruct (child_detaches_then_execs Demo.child_side Scenario.ready
              Scenario.handle Scenario.ready_handle (3, 4) (5, 6) (7, 8))
    as (s' & Hrun & _ & Hfail).
  - reflexivity.
  - reflexivity.
  - exact H.
  - exists s'. split; [exact Hrun|]. apply Hfail. reflexivity.
Defined.

Lemma create_argument_policy_witness :
  (exists p s',
     process_create 2 (Some 1%positive) (Some 4%positive) (Some 5%positive)
       Demo.start = Ret (Some p) s'
     /\ created Demo.start s' p (Demo.cstr "/bin/echo")
          [Demo.cstr "hi"] [Demo.cstr "LANG=C"])
  /\ (exists p s',
        Earlier.process_create 2 (Some 1%positive) (Some 4%positive)
          (Some 5%positive) Demo.start = Ret (Some p) s'
        /\ created Demo.start s' p (Demo.cstr "/bin/echo")
             [Demo.cstr "/bin/echo"; Demo.cstr "hi"] [Demo.cstr "LANG=C"]).
Proof.
  apply (create_argument_policy 2 Demo.start 1%positive (Some 4%positive)
           (Some 5%positive) (Demo.cstr "/bin/echo") [Demo.cstr "hi"]
           [Demo.cstr "LANG=C"]).
  - reflexivity.
  - reflexivity.
  - reflexivity.
  - simpl. lia.
  - simpl. lia.
Defined.

(** * Further properties of the code *)

(** ** The helpers of the string-list store *)

(** X1.  [_process_array_count] returns [n] exactly when the first [n]
    slots of the array hold non-null pointers and slot [n] is null;
    whatever follows the first null slot is not looked at, and the state
    is not changed.  The count of the null array is 0. *)
Theorem count_stops_at_first_null s a cs n s' :
  heap s !! a = Some (Slots cs) ->
  (_process_array_count (Some a) s = Ret n s'
   <-> s' = s
       /\ exists ls rest,
            cs = ((fun l => Ptr (Some l)) <$> ls) ++ Ptr NULL :: rest
            /\ n = length ls)
  /\ _process_array_count NULL s = Ret O s.
Proof.
  destruct s as [h t]. cbn [heap]. intros Ha. split; [split|reflexivity].
  - unfold _process_array_count.
    erewrite bind_Ret by (apply read_slots_ok; exact Ha).
    destruct (scan cs) as [m|] eqn:Hs; [|discriminate].
    intros E. inversion E; subst. split; [reflexivity|].
    rewrite scan_entries in Hs.
    destruct (entries_of cs) as [ls|] eqn:He; [|discriminate].
    injection Hs as <-. destruct (entries_of_inv _ _ He) as [rest ->]. eauto.
  - intros (-> & ls & rest & -> & ->).
    eapply count_ok; [exact Ha|apply scan_app].
Qed.

(** X2.  [_process_string_copy] into a member of a handle allocates a new
    buffer of exactly [strlen(src) + 1] bytes, the string and its NUL,
    whatever the size of the source buffer, and stores its address in the
    member.  The source is not changed, and the block the member pointed
    to before is not freed: every other block is as it was. *)
Theorem string_copy_is_exact s l P f src bs n :
  heap s !! l = Some (Struct P) ->
  heap s !! src = Some (Bytes bs) ->
  cstrlen bs = Some n ->
  exists c s',
    _process_string_copy (Some (Field (Some l) f)) (Some src) s = Ret tt s'
    /\ heap s !! c = None
    /\ heap s' !! l = Some (Struct (set_field f (Some c) P))
    /\ heap s' !! c = Some (Bytes (take n bs ++ [x00]))
    /\ length (take n bs ++ [x00]) = (n + 1)%nat
    /\ string_at (heap s') c = string_at (heap s) src
    /\ (forall x, x <> l -> x <> c -> heap s' !! x = heap s !! x)
    /\ trace s' = trace s.
Proof.
  destruct s as [h t]. cbn [heap trace]. intros Hl Hb Hn.
  pose proof (cstrlen_lt _ _ Hn) as Hlt.
  set (c := fresh (dom h)).
  assert (Hc : h !! c = None) by apply fresh_None.
  assert (Hcl : c <> l) by congruence.
  assert (Hcs : c <> src) by congruence.
  assert (Hsl : src <> l) by congruence.
  exists c. eexists. split.
  { unfold _process_string_copy, store_at, load_at.
    step strlen_ok. step calloc_ok. fold c.
    step store_field_ok. step strlen_ok. step load_field_ok.
    rewrite get_set_field.
    erewrite memcpy_ok;
      [|look|look|rewrite length_replicate; lia|lia].
    rewrite copy_bytes by lia. reflexivity. }
  cbn [heap trace]. split; [exact Hc|].
  split; [now simpl_lookup|]. split; [now simpl_lookup|].
  split; [rewrite length_app, length_take; simpl; lia|].
  split; [|split; [|reflexivity]].
  - erewrite string_at_copy; [|now simpl_lookup|exact Hn].
    unfold string_at, cstring_of. now rewrite Hb, Hn.
  - intros x Hxl Hxc. now simpl_lookup.
Qed.

(** ** The two revisions *)

(** X3.  On a handle whose list the library built, [process_add_arg] and
    [process_add_env] of the earlier revision, which write the append out
    in their bodies, end in the same state as those of the current
    revision, which call [_process_array_push]. *)
Theorem earlier_append_agrees s l P it bs n :
  heap s !! l = Some (Struct P) ->
  heap s !! it = Some (Bytes bs) ->
  cstrlen bs = Some n ->
  (forall old, owns (heap s) (argv P) old ->
     Earlier.process_add_arg (Some l) (Some it) s
     = process_add_arg (Some l) (Some it) s)
  /\ (forall old, owns (heap s) (envp P) old ->
        Earlier.process_add_env (Some l) (Some it) s
        = process_add_env (Some l) (Some it) s).
Proof.
  destruct s as [h t]. cbn [heap]. intros Hl Hb Hn. split; intros old Hown.
  - exact (pushes_to_earlier_add_arg l h t P old it bs n Hl Hown Hb Hn).
  - exact (pushes_to_earlier_add_env l h t P old it bs n Hl Hown Hb Hn).
Qed.

(** X4.  On a handle whose lists can be released, [process_clear_argv]
    and [process_clear_envp] of the earlier revision, which write the
    freeing loop out in their bodies, end in the same state as those of
    the current revision, which call [_process_array_clear]. *)
Theorem earlier_clear_agrees s l P la le :
  heap s !! l = Some (Struct P) ->
  releasable (heap s) (argv P) la ->
  releasable (heap s) (envp P) le ->
  Earlier.process_clear_argv (Some l) s = process_clear_argv (Some l) s
  /\ Earlier.process_clear_envp (Some l) s = process_clear_envp (Some l) s.
Proof.
  destruct s as [h t]. cbn [heap]. intros Hl Ha He.
  assert (Hsame : forall f ls (c1 c2 : ptr -> M unit),
            clears f c1 -> clears f c2 ->
            releasable h (get_field f P) ls ->
            c1 (Some l) (mkState h t) = c2 (Some l) (mkState h t)).
  { intros f ls c1 c2 H1 H2 Hrel.
    destruct (H1 h t l P ls Hl Hrel) as (h1 & -> & Hl1 & Hgone1 & Hkeep1).
    destruct (H2 h t l P ls Hl Hrel) as (h2 & -> & Hl2 & Hgone2 & Hkeep2).
    do 2 f_equal. apply map_eq. intros x.
    destruct (decide (x = l)) as [->|Hxl]; [congruence|].
    destruct (decide (x ∈ blocks (get_field f P) ls)) as [Hx|Hx].
    - now rewrite Hgone1, Hgone2.
    - now rewrite Hkeep1, Hkeep2. }
  split.
  - exact (Hsame f_argv la _ _ (clears_earlier f_argv) clears_argv Ha).
  - exact (Hsame f_envp le _ _ (clears_earlier f_envp) clears_envp He).
Qed.

(** ** Launching *)

(** X5.  When the three [pipe] calls succeed and [fork] returns the
    identifier [c] of a child, [process_open] on a handle that is not
    launched returns 1 in the parent, in both revisions: the parent closes
    the read end of the input pipe and the write ends of the output and
    error pipes, and the handle holds the write end of the input pipe in
    [in], the read ends of the other two in [out] and [err], and [c] in
    [pid].  Path and lists are as they were. *)
Theorem launch_returns_to_parent K s l P i o e c :
  heap s !! l = Some (Struct P) ->
  pid P = -1 ->
  answers K (trace s) i o e c ->
  c <> 0 -> c <> -1 ->
  exists s',
    process_open K (Some l) s = Ret 1 s'
    /\ Earlier.process_open K (Some l) s = Ret 1 s'
    /\ heap s' = <[l := Struct (mkProcess (path P) (argv P) (envp P)
                                 (snd i) (fst o) (fst e) c)]> (heap s)
    /\ trace s' = trace s
                    ++ [sys_pipe (Some i); sys_pipe (Some o);
                        sys_pipe (Some e); sys_fork c;
                        sys_close (fst i); sys_close (snd o);
                        sys_close (snd e)].
Proof.
  destruct s as [h t]. cbn [heap trace]. intros Hl Hp Hans Hc0 Hc1.
  destruct (open_parent K h t l P i o e c Hl Hp Hans Hc0) as [H1 H2].
  apply Z.eqb_neq in Hc1. rewrite Hc1 in H1, H2.
  eexists. split; [exact H1|]. split; [exact H2|]. split; reflexivity.
Qed.

(** X6.  [process_close] followed by [process_open] launches again,
    whatever the state of the handle was: the descriptors that were open
    are closed and the old child is killed and reaped before the new
    pipes are made, and the handle then holds the new pipe ends and the
    new child. *)
Theorem close_then_open_relaunches K s l P i o e c :
  heap s !! l = Some (Struct P) ->
  answers K (trace s ++ closes (in_ P) ++ closes (out P) ++ closes (err P)
               ++ reaps (pid P)) i o e c ->
  c <> 0 -> c <> -1 ->
  exists s',
    (process_close (Some l);; process_open K (Some l)) s = Ret 1 s'
    /\ heap s' = <[l := Struct (launched P i o e c)]> (heap s)
    /\ trace s' = (trace s ++ closes (in_ P) ++ closes (out P)
                     ++ closes (err P) ++ reaps (pid P))
                    ++ open_calls i o e c ++ parent_calls i o e.
Proof.
  destruct s as [h t]. cbn [heap trace]. intros Hl Hans Hc0 Hc1.
  rewrite (bind_Ret _ _ _ _ _ (close_spec h t l P Hl)).
  destruct (open_parent K (<[l := Struct (closed P)]> h) _ l (closed P)
              i o e c (lookup_insert_eq _ _ _) eq_refl Hans Hc0) as [H1 _].
  apply Z.eqb_neq in Hc1. rewrite Hc1 in H1.
  eexists. split; [exact H1|]. cbn [heap trace].
  split; [|reflexivity]. now rewrite insert_insert_eq.
Qed.

(** X7.  After a launch whose [fork] failed, [process_close] closes the
    three pipe ends that the handle was left with, sends no signal, and
    leaves the handle unset: together with the three ends that the launch
    itself closed, every descriptor of the three pipes is closed again. *)
Theorem close_after_failed_fork K s l P i o e :
  heap s !! l = Some (Struct P) ->
  pid P = -1 ->
  answers K (trace s) i o e (-1) ->
  exists s',
    (process_open K (Some l);; process_close (Some l)) s = Ret tt s'
    /\ heap s' = <[l := Struct (closed P)]> (heap s)
    /\ trace s' = trace s
                    ++ [sys_pipe (Some i); sys_pipe (Some o);
                        sys_pipe (Some e); sys_fork (-1);
                        sys_close (fst i); sys_close (snd o);
                        sys_close (snd e)]
                    ++ closes (snd i) ++ closes (fst o) ++ closes (fst e).
Proof.
  destruct s as [h t]. cbn [heap trace]. intros Hl Hp Hans.
  rewrite (bind_Ret _ _ _ _ _ (open_fork_fails K h t l P i o e Hl Hp Hans)).
  erewrite close_spec by apply lookup_insert_eq.
  eexists. split; [reflexivity|]. cbn [heap trace].
  split; [now rewrite insert_insert_eq|].
  unfold open_calls, parent_calls, launched, reaps. simpl.
  now rewrite <- !app_assoc, app_nil_r.
Qed.

(** ** Releasing *)

(** X8.  After [process_free] on a well-formed handle the handle is gone:
    a second [process_free], and every other function of the library, is
    undefined on it. *)
Theorem use_after_free_is_undefined K s l P la le :
  well_formed (heap s) l P la le ->
  exists s',
    process_free (Some l) s = Ret tt s'
    /\ heap s' !! l = None
    /\ process_free (Some l) s' = Fault
    /\ process_close (Some l) s' = Fault
    /\ process_open K (Some l) s' = Fault
    /\ (forall x, process_add_arg (Some l) x s' = Fault)
    /\ (forall x, process_add_env (Some l) x s' = Fault)
    /\ process_clear_argv (Some l) s' = Fault
    /\ process_clear_envp (Some l) s' = Fault.
Proof.
  destruct s as [h t]. cbn [heap]. intros Hwf.
  destruct (release_spec process_clear_argv process_clear_envp h t l P la le
              clears_argv clears_envp Hwf) as (h' & Hrun & Hgone & _).
  assert (Hl : h' !! l = None) by (apply Hgone, elem_of_cons; now left).
  assert (Hrs : read_struct (Some l) (mkState h' t) = Fault).
  { apply read_struct_Fault. intros l' P' [= <-]. congruence. }
  exists (mkState h' t). split; [exact Hrun|]. split; [exact Hl|].
  repeat split; intros;
    unfold process_free, process_open, process_add_arg, process_add_env,
      process_clear_argv, process_clear_envp, _process_array_push,
      _process_array_clear, load_at, load, read_int;
    rewrite ?bind_assoc;
    first [ now apply close_Fault; intros l' P' [= <-]; congruence
          | now rewrite (bind_Fault _ _ _ Hrs) ].
Qed.

(** ** Lists and whole arrays *)

(** X9.  [process_add_args] on a null-terminated array of strings is one
    [process_add_arg] per entry, in order; it returns, the argument list
    then holds its old strings followed by copies of the array's strings,
    and the environment list and the caller's array are as they were.
    With a null array, or an array whose first entry is null, nothing
    changes. *)
Theorem add_args_appends_each fuel s l P old olds args items strs estrs :
  heap s !! l = Some (Struct P) ->
  owns (heap s) (argv P) old ->
  strings (heap s) (argv P) = Some olds ->
  strings (heap s) (envp P) = Some estrs ->
  entries (heap s) args = Some items ->
  strings (heap s) args = Some strs ->
  argv P = NULL \/ (argv P <> args /\ argv P <> envp P) ->
  (length items < fuel)%nat ->
  process_add_args fuel (Some l) args s
  = appends (process_add_arg (Some l)) items s
  /\ (items = [] -> process_add_args fuel (Some l) args s = Ret tt s)
  /\ exists s' arr,
       process_add_args fuel (Some l) args s = Ret tt s'
       /\ heap s' !! l = Some (Struct (set_field f_argv arr P))
       /\ strings (heap s') arr = Some (olds ++ strs)
       /\ strings (heap s') (envp P) = Some estrs
       /\ strings (heap s') args = Some strs
       /\ trace s' = trace s.
Proof.
  destruct s as [h t]. cbn [heap trace].
  intros Hl Hown Holds Hes Hent Hstrs Hdis Hfuel.
  destruct (add_all_lists f_argv l process_add_arg fuel h t P old olds args
              items strs)
    as (Heq & h' & arr & Hrun & Hl' & Hs' & Hother);
    auto using pushes_to_add_arg.
  { simpl. tauto. }
  split; [exact Heq|]. split.
  { intros ->. unfold process_add_args. now rewrite Heq. }
  exists (mkState h' t), arr. cbn [heap trace]. repeat split; auto.
  - apply Hother; [exact Hes|simpl; tauto].
  - apply Hother; [exact Hstrs|simpl; tauto].
Qed.

(** X10.  [process_add_envs] on a null-terminated array of strings is one
    [process_add_env] per entry, in order; it returns, the environment
    list then holds its old strings followed by copies of the array's
    strings, and the argument list and the caller's array are as they
    were. *)
Theorem add_envs_appends_each fuel s l P old olds envs items strs astrs :
  heap s !! l = Some (Struct P) ->
  owns (heap s) (envp P) old ->
  strings (heap s) (envp P) = Some olds ->
  strings (heap s) (argv P) = Some astrs ->
  entries (heap s) envs = Some items ->
  strings (heap s) envs = Some strs ->
  envp P = NULL \/ (envp P <> envs /\ envp P <> argv P) ->
  (length items < fuel)%nat ->
  process_add_envs fuel (Some l) envs s
  = appends (process_add_env (Some l)) items s
  /\ (items = [] -> process_add_envs fuel (Some l) envs s = Ret tt s)
  /\ exists s' arr,
       process_add_envs fuel (Some l) envs s = Ret tt s'
       /\ heap s' !! l = Some (Struct (set_field f_envp arr P))
       /\ strings (heap s') arr = Some (olds ++ strs)
       /\ strings (heap s') (argv P) = Some astrs
       /\ strings (heap s') envs = Some strs
       /\ trace s' = trace s.
Proof.
  destruct s as [h t]. cbn [heap trace].
  intros Hl Hown Holds Has Hent Hstrs Hdis Hfuel.
  destruct (add_all_lists f_envp l process_add_env fuel h t P old olds envs
              items strs)
    as (Heq & h' & arr & Hrun & Hl' & Hs' & Hother);
    auto using pushes_to_add_env.
  { simpl. tauto. }
  split; [exact Heq|]. split.
  { intros ->. unfold process_add_envs. now rewrite Heq. }
  exists (mkState h' t), arr. cbn [heap trace]. repeat split; auto.
  - apply Hother; [exact Has|simpl; tauto].
  - apply Hother; [exact Hstrs|simpl; tauto].
Qed.

(** X11.  Appending any strings to an absent list and then clearing the
    list leaves the whole state as it was: every copy and the array are
    freed and the member is null again.  This holds for the argument list
    with [process_add_arg] and [process_clear_argv], and for the
    environment list with [process_add_env] and [process_clear_envp]. *)
Theorem append_then_clear_restores s l P items strs :
  heap s !! l = Some (Struct P) ->
  Forall2 (fun it str => string_at (heap s) it = Some str) items strs ->
  (argv P = NULL ->
   (appends (process_add_arg (Some l)) items;; process_clear_argv (Some l)) s
   = Ret tt s)
  /\ (envp P = NULL ->
      (appends (process_add_env (Some l)) items;; process_clear_envp (Some l))
        s = Ret tt s).
Proof.
  destruct s as [h t]. cbn [heap]. intros Hl Hstrs. split; intros Hnull.
  - exact (build_then_clear f_argv l _ _ items strs h t P
             (pushes_to_add_arg l) clears_argv Hstrs Hl Hnull).
  - exact (build_then_clear f_envp l _ _ items strs h t P
             (pushes_to_add_env l) clears_envp Hstrs Hl Hnull).
Qed.

(** X12.  A null string is not checked for: [process_create] with a null
    path, and [process_add_arg] and [process_add_env] with a null string,
    are undefined whatever the state and the other arguments are, in both
    revisions. *)
Theorem null_string_is_undefined :
  (forall fuel argv0 envp0 s, process_create fuel NULL argv0 envp0 s = Fault)
  /\ (forall p s, process_add_arg p NULL s = Fault)
  /\ (forall p s, process_add_env p NULL s = Fault)
  /\ (forall fuel argv0 envp0 s,
        Earlier.process_create fuel NULL argv0 envp0 s = Fault)
  /\ (forall p s, Earlier.process_add_arg p NULL s = Fault)
  /\ (forall p s, Earlier.process_add_env p NULL s = Fault).
Proof.
  repeat split; intros;
    try apply push_null;
    unfold process_create, Earlier.process_create, Earlier.process_add_arg,
      Earlier.process_add_env, malloc_Process;
    repeat (apply bind_plain_Fault;
            [first [apply plain_alloc|apply plain_store|apply plain_write_int
                   |apply plain_load|apply plain_count|apply plain_realloc]
            |intros ? ?]);
    reflexivity.
Qed.

(** X13.  Whenever [process_add_arg] or [process_add_env] returns, on any
    handle and in any state, it has made no system call, and the three
    descriptors and the process identifier of every live handle are what
    they were: appending to a launched handle does not touch the running
    child. *)
Theorem append_keeps_descriptors s l P p item s' :
  heap s !! l = Some (Struct P) ->
  process_add_arg p item s = Ret tt s' \/ process_add_env p item s = Ret tt s' ->
  trace s' = trace s
  /\ exists P',
       heap s' !! l = Some (Struct P')
       /\ in_ P' = in_ P /\ out P' = out P /\ err P' = err P
       /\ pid P' = pid P.
Proof.
  intros Hl H.
  assert (Hints : ints_are l P s) by (exists P; auto).
  destruct H as [H|H]; unfold process_add_arg, process_add_env in H;
    (split;
     [exact (quiet_push (trace s) _ _ s tt s' eq_refl H)
     |exact (ints_push l P _ _ s tt s' Hints H)]).
Qed.

(** ** The life of a handle, from creation to release *)

(** X14.  [process_create] followed by [process_free] leaves the whole
    state as it was: every block that create allocated, the handle, the
    copy of the path, both arrays and every copied string, is freed, the
    caller's memory is untouched, and no system call is made. *)
Theorem create_then_free_restores fuel s path0 argv0 envp0 pstr astrs estrs :
  string_at (heap s) path0 = Some pstr ->
  strings (heap s) argv0 = Some astrs ->
  strings (heap s) envp0 = Some estrs ->
  (length astrs < fuel)%nat ->
  (length estrs < fuel)%nat ->
  (p <- process_create fuel (Some path0) argv0 envp0; process_free p) s
  = Ret tt s.
Proof.
  destruct s as [h t]. cbn [heap]. intros Hpath Ha He Hfa Hfe.
  destruct (create_owned fuel h t path0 argv0 envp0 pstr astrs estrs
              Hpath Ha He Hfa Hfe)
    as (p & P & la & le & h' & Hrun & Hwf & _ & Hnew & Hsame).
  rewrite (bind_Ret _ _ _ _ _ Hrun).
  destruct (release_spec process_clear_argv process_clear_envp h' t p P la le
              clears_argv clears_envp Hwf) as (h'' & Hfree & Hgone & Hkeep).
  cbn [process_free]. rewrite Hfree. do 2 f_equal. apply map_eq. intros x.
  destruct (decide (x ∈ owned p P la le)) as [Hx|Hx].
  - now rewrite Hgone, Hnew.
  - now rewrite Hkeep, Hsame.
Qed.

(** X15.  A whole life: [process_create], a [process_open] that returns
    in the parent (the child is [c], or [fork] failed and [c] is [-1]),
    [process_close] and [process_free].  The heap is then what it was
    before the create, every descriptor of the three pipes has been
    closed, and a child that was forked has been sent [SIGKILL] and
    reaped. *)
Theorem whole_life_restores_heap K fuel s path0 argv0 envp0 pstr astrs estrs
    i o e c :
  string_at (heap s) path0 = Some pstr ->
  strings (heap s) argv0 = Some astrs ->
  strings (heap s) envp0 = Some estrs ->
  (length astrs < fuel)%nat ->
  (length estrs < fuel)%nat ->
  answers K (trace s) i o e c ->
  c <> 0 ->
  exists s',
    (p <- process_create fuel (Some path0) argv0 envp0;
     r <- process_open K p;
     process_close p;;
     process_free p) s = Ret tt s'
    /\ heap s' = heap s
    /\ trace s' = trace s
                    ++ [sys_pipe (Some i); sys_pipe (Some o);
                        sys_pipe (Some e); sys_fork c;
                        sys_close (fst i); sys_close (snd o);
                        sys_close (snd e)]
                    ++ closes (snd i) ++ closes (fst o) ++ closes (fst e)
                    ++ reaps c.
Proof.
  destruct s as [h t]. cbn [heap trace].
  intros Hpath Ha He Hfa Hfe Hans Hc0.
  destruct (create_owned fuel h t path0 argv0 envp0 pstr astrs estrs
              Hpath Ha He Hfa Hfe)
    as (p & P & la & le & h' & Hrun & Hwf & Hunset & Hnew & Hsame).
  rewrite (bind_Ret _ _ _ _ _ Hrun).
  pose proof Hwf as (Hl & _). pose proof Hunset as (Hi & Ho & Her & Hpid).
  destruct (open_parent K h' t p P i o e c Hl Hpid Hans Hc0) as [Hopen _].
  cbv zeta in Hopen. rewrite (bind_Ret _ _ _ _ _ Hopen).
  erewrite bind_Ret by (apply close_spec; apply lookup_insert_eq).
  rewrite insert_insert_eq.
  assert (Hback : closed (launched P i o e c) = P).
  { destruct P. simpl in *. now subst. }
  rewrite Hback, insert_id by exact Hl.
  destruct (release_spec process_clear_argv process_clear_envp h'
              ((t ++ open_calls i o e c ++ parent_calls i o e)
                 ++ closes (in_ (launched P i o e c))
                 ++ closes (out (launched P i o e c))
                 ++ closes (err (launched P i o e c))
                 ++ reaps (pid (launched P i o e c)))
              p P la le clears_argv clears_envp Hwf)
    as (h'' & Hfree & Hgone & Hkeep).
  eexists. split; [cbn [process_free]; exact Hfree|]. cbn [heap trace].
  split.
  - apply map_eq. intros x.
    destruct (decide (x ∈ owned p P la le)) as [Hx|Hx].
    + now rewrite Hgone, Hnew.
    + now rewrite Hkeep, Hsame.
  - unfold open_calls, parent_calls, launched. simpl.
    now rewrite <- !app_assoc.
Qed.

(** ** A [pipe] call that fails *)


(** ** The pairing of descriptors and process identifier *)

(** X16.  When [fork] does not fail, the three descriptors and the process
    identifier of a handle are set together or unset together in every
    state it reaches. *)
Lemma pairing_invariant K p s :
  fork_succeeds K ->
  reachable K p s ->
  exists P, heap s !! p = Some (Struct P) /\ linked P.
Proof.
  intros [Hfork Hpipe]. induction 1 as [s0 fuel pa av ev s Hc|s o s' Hr IH Hop].
  - destruct (create_unset _ _ _ _ _ _ _ Hc) as (P & Hl & HP).
    exists P. split; [exact Hl|now left].
  - destruct IH as (P & Hl & HP).
    assert (Hints : ints_are p P s) by (exists P; auto).
    destruct o as [a|e| |]; simpl in Hop.
    + destruct (ints_push p P _ _ _ _ _ Hints Hop)
        as (P' & Hl' & Hi & Ho & He & Hp).
      exists P'. split; [exact Hl'|]. eapply linked_ints; eauto.
    + destruct (ints_push p P _ _ _ _ _ Hints Hop)
        as (P' & Hl' & Hi & Ho & He & Hp).
      exists P'. split; [exact Hl'|]. eapply linked_ints; eauto.
    + apply bind_inv in Hop as (r & s1 & Hopen & Hret).
      injection Hret as <-. destruct s as [h t]. simpl in Hl.
      destruct (decide (pid P = -1)) as [Hp|Hp].
      * destruct (open_ret_inv K h t p P r s1 Hl Hp Hopen)
          as (i & o & e & c & (Hi & Ho & He & Hc) & _ & -> & _).
        exists (launched P i o e c). simpl. rewrite lookup_insert_eq.
        split; [reflexivity|]. right.
        destruct i as [ir iw], o as [or ow], e as [er ew].
        apply Hpipe in Hi, Ho, He. unfold all_set. simpl.
        rewrite <- Hc. repeat split; try tauto. apply Hfork.
      * destruct (open_guard K h t p P Hl Hp) as [Hrun _].
        rewrite Hrun in Hopen. injection Hopen as _ <-.
        exists P. auto.
    + destruct s as [h t]. simpl in Hl.
      rewrite (close_spec h t p P Hl) in Hop. injection Hop as <-.
      exists (closed P). simpl. rewrite lookup_insert_eq.
      split; [reflexivity|]. left. now repeat split.
Qed.

(** The invariant is not empty: a kernel that always hands out the same
    pipe and the same child satisfies [fork_succeeds], and launching the
    handle of the scenario with it is a reachable state. *)
Example pairing_invariant_applies :
  let K := mkKernel (fun _ => Some (3, 4)) (fun _ => 4242) (fun _ => true) in
  fork_succeeds K
  /\ exists s, reachable K Scenario.handle s
               /\ exists P, heap s !! Scenario.handle = Some (Struct P)
                            /\ all_set P.
Proof.
  cbv zeta. split.
  - split; [discriminate|]. intros t r w [= <- <-]. split; discriminate.
  - eexists. split.
    + eapply reach_step with (o := op_open).
      * eapply reach_create
          with (s0 := Demo.start) (fuel := 2%nat) (pa := Some 1%positive)
               (av := Some 4%positive) (ev := Some 5%positive).
        vm_compute. reflexivity.
      * vm_compute. reflexivity.
    + eexists. split; [vm_compute; reflexivity|].
      repeat split; discriminate.
Qed.

(** ** What [process_free] does in general *)

(** X17.  Whenever [process_free] of the current revision returns, on any
    handle and in any state, it has made no system call. *)
Lemma free_makes_no_call p s s' :
  process_free p s = Ret tt s' -> trace s' = trace s.
Proof.
  intros H.
  eapply (preserves_process_free (trace_is (trace s))); eauto;
    auto using quiet_store, quiet_free.
  reflexivity.
Qed.

(** X18.  [process_free] of the current revision on a well-formed handle:
    every block the handle owns is released, nothing else changes, and no
    system call is made, whatever the descriptors and the process
    identifier are. *)
Lemma free_spec h t l P la le :
  well_formed h l P la le ->
  exists h',
    process_free (Some l) (mkState h t) = Ret tt (mkState h' t)
    /\ (forall x, x ∈ owned l P la le -> h' !! x = None)
    /\ (forall x, x ∉ owned l P la le -> h' !! x = h !! x).
Proof.
  intros Hwf.
  exact (release_spec process_clear_argv process_clear_envp h t l P la le
           clears_argv clears_envp Hwf).
Qed.

(** X19.  [process_free] of the earlier revision on a well-formed handle: the
    calls of [process_close], then the same release. *)
Lemma earlier_free_spec h t l P la le :
  well_formed h l P la le ->
  exists h',
    Earlier.process_free (Some l) (mkState h t)
    = Ret tt (mkState h' (t ++ closes (in_ P) ++ closes (out P)
                            ++ closes (err P) ++ reaps (pid P)))
    /\ (forall x, x ∈ owned l P la le -> h' !! x = None)
    /\ (forall x, x ∉ owned l P la le -> h' !! x = h !! x).
Proof.
  intros Hwf. pose proof Hwf as (Hl & _).
  destruct (release_spec Earlier.process_clear_argv
              Earlier.process_clear_envp _
              (t ++ closes (in_ P) ++ closes (out P) ++ closes (err P)
                 ++ reaps (pid P)) l (closed P) la le
              (clears_earlier f_argv) (clears_earlier f_envp)
              (well_formed_closed h l P la le Hwf))
    as (h' & Hrun & Hgone & Hkeep).
  exists h'. split; [|split; [exact Hgone|]].
  - cbn [Earlier.process_free]. unfold Earlier.process_close.
    rewrite (bind_Ret _ _ _ _ _ (close_spec h t l P Hl)). exact Hrun.
  - intros x Hx. rewrite (Hkeep x Hx).
    assert (x <> l) by (intros ->; apply Hx; apply elem_of_cons; now left).
    now simpl_lookup.
Qed.

(** ** The child of the earlier revision *)

(** X20.  In the child, [process_open] of the earlier revision never
    returns and makes the calls of the current revision without [setsid]:
    no [setsid] call is in its trace. *)
Lemma earlier_child_has_no_setsid K h t l P i o e :
  h !! l = Some (Struct P) -> pid P = -1 ->
  answers K t i o e 0 ->
  exists s',
    Earlier.process_open K (Some l) (mkState h t) = Halt s'
    /\ exists ok,
         trace s' = t ++ open_calls i o e 0 ++ wiring_calls i o e
                      ++ exec_calls P ok
         /\ sys_setsid ∉ open_calls i o e 0 ++ wiring_calls i o e
                           ++ exec_calls P ok.
Proof.
  intros Hl Hp Hans.
  destruct (open_child K h t l P i o e Hl Hp Hans) as [_ Hrun].
  cbv zeta in Hrun. eexists. split; [exact Hrun|].
  eexists. split; [simpl; now rewrite <- !app_assoc|].
  unfold open_calls, wiring_calls, exec_calls.
  intros Hin. repeat (apply elem_of_cons in Hin as [Hin|Hin];
                      [discriminate|]).
  destruct (k_execve K _); simpl in Hin;
    repeat (apply elem_of_cons in Hin as [Hin|Hin]; [discriminate|]);
    now apply elem_of_nil in Hin.
Qed.

(** ** The further properties at concrete inputs *)

Lemma count_stops_at_first_null_witness :
  (_process_array_count (Some 4%positive) Demo.start = Ret 1%nat Demo.start
   <-> Demo.start = Demo.start
       /\ exists ls rest,
            [Ptr (Some 2%positive); Ptr NULL]
            = ((fun l => Ptr (Some l)) <$> ls) ++ Ptr NULL :: rest
            /\ 1%nat = length ls)
  /\ _process_array_count NULL Demo.start = Ret O Demo.start.
Proof.
  apply (count_stops_at_first_null Demo.start 4%positive
           [Ptr (Some 2%positive); Ptr NULL] 1 Demo.start).
  reflexivity.
Defined.

Lemma string_copy_is_exact_witness :
  exists c s',
    _process_string_copy (Some (Field (Some Scenario.handle) f_path))
      (Some 2%positive) Scenario.ready = Ret tt s'
    /\ heap Scenario.ready !! c = None
    /\ heap s' !! Scenario.handle
       = Some (Struct (set_field f_path (Some c) Scenario.ready_handle))
    /\ heap s' !! c = Some (Bytes (Demo.cstr "hi" ++ [x00]))
    /\ heap s' !! 7%positive = heap Scenario.ready !! 7%positive.
Proof.
  destruct (string_copy_is_exact Scenario.ready Scenario.handle
              Scenario.ready_handle f_path 2%positive
              (Demo.cstr "hi" ++ [x00]) 2)
    as (c & s' & Hrun & Hc & Hl & Hcopy & _ & _ & Hkeep & _).
  - reflexivity.
  - reflexivity.
  - reflexivity.
  - exists c, s'. repeat split; try assumption.
    apply Hkeep; [discriminate|]. intros E. rewrite <- E in Hc.
    discriminate.
Defined.

Lemma earlier_append_agrees_witness :
  Earlier.process_add_arg (Some Scenario.handle) (Some 2%positive)
    Scenario.ready
  = process_add_arg (Some Scenario.handle) (Some 2%positive) Scenario.ready
  /\ Earlier.process_add_env (Some Scenario.handle) (Some 2%positive)
       Scenario.ready
     = process_add_env (Some Scenario.handle) (Some 2%positive)
         Scenario.ready.
Proof.
  destruct (earlier_append_agrees Scenario.ready Scenario.handle
              Scenario.ready_handle 2%positive (Demo.cstr "hi" ++ [x00]) 2)
    as [Ha He].
  - reflexivity.
  - reflexivity.
  - reflexivity.
  - split.
    + apply (Ha [9%positive]). reflexivity.
    + apply (He [11%positive]). reflexivity.
Defined.

Lemma earlier_clear_agrees_witness :
  Earlier.process_clear_argv (Some Scenario.handle) Scenario.ready
  = process_clear_argv (Some Scenario.handle) Scenario.ready
  /\ Earlier.process_clear_envp (Some Scenario.handle) Scenario.ready
     = process_clear_envp (Some Scenario.handle) Scenario.ready.
Proof.
  apply (earlier_clear_agrees Scenario.ready Scenario.handle
           Scenario.ready_handle [9%positive] [11%positive]).
  - reflexivity.
  - split; [reflexivity|]. split; [apply NoDup_singleton|].
    repeat constructor. eexists. reflexivity.
  - split; [reflexivity|]. split; [apply NoDup_singleton|].
    repeat constructor. eexists. reflexivity.
Defined.

Lemma launch_returns_to_parent_witness :
  answers Demo.parent_side (trace Scenario.ready) (3, 4) (5, 6) (7, 8) 4242
  /\ exists s',
       process_open Demo.parent_side (Some Scenario.handle) Scenario.ready
       = Ret 1 s'
       /\ Earlier.process_open Demo.parent_side (Some Scenario.handle)
            Scenario.ready = Ret 1 s'
       /\ heap s' = <[Scenario.handle := Struct Scenario.running_handle]>
                      (heap Scenario.ready)
       /\ trace s' = [sys_pipe (Some (3, 4)); sys_pipe (Some (5, 6));
                      sys_pipe (Some (7, 8)); sys_fork 4242;
                      sys_close 3; sys_close 6; sys_close 8].
Proof.
  assert (H : answers Demo.parent_side (trace Scenario.ready)
                (3, 4) (5, 6) (7, 8) 4242)
    by (repeat split; vm_compute; reflexivity).
  split; [exact H|].
  apply (launch_returns_to_parent Demo.parent_side Scenario.ready
           Scenario.handle Scenario.ready_handle (3, 4) (5, 6) (7, 8) 4242).
  - reflexivity.
  - reflexivity.
  - exact H.
  - lia.
  - lia.
Defined.

Lemma close_then_open_relaunches_witness :
  exists s',
    (process_close (Some Scenario.handle);;
     process_open Demo.parent_side (Some Scenario.handle)) Scenario.running
    = Ret 1 s'
    /\ heap s' = <[Scenario.handle := Struct Scenario.running_handle]>
                   (heap Scenario.running)
    /\ trace s' = (trace Scenario.running
                     ++ [sys_close 4] ++ [sys_close 5] ++ [sys_close 7]
                     ++ [sys_kill 4242 SIGKILL; sys_waitpid 4242 WNOHANG])
                    ++ [sys_pipe (Some (3, 4)); sys_pipe (Some (5, 6));
                        sys_pipe (Some (7, 8)); sys_fork 4242]
                    ++ [sys_close 3; sys_close 6; sys_close 8].
Proof.
  apply (close_then_open_relaunches Demo.parent_side Scenario.running
           Scenario.handle Scenario.running_handle (3, 4) (5, 6) (7, 8) 4242).
  - reflexivity.
  - repeat split; vm_compute; reflexivity.
  - lia.
  - lia.
Defined.

Lemma close_after_failed_fork_witness :
  exists s',
    (process_open Demo.no_fork (Some Scenario.handle);;
     process_close (Some Scenario.handle)) Scenario.ready = Ret tt s'
    /\ heap s' = <[Scenario.handle := Struct Scenario.ready_handle]>
                   (heap Scenario.ready)
    /\ trace s' = [sys_pipe (Some (3, 4)); sys_pipe (Some (5, 6));
                   sys_pipe (Some (7, 8)); sys_fork (-1);
                   sys_close 3; sys_close 6; sys_close 8;
                   sys_close 4; sys_close 5; sys_close 7].
Proof.
  apply (close_after_failed_fork Demo.no_fork Scenario.ready Scenario.handle
           Scenario.ready_handle (3, 4) (5, 6) (7, 8)).
  - reflexivity.
  - reflexivity.
  - repeat split; vm_compute; reflexivity.
Defined.

Lemma use_after_free_is_undefined_witness :
  exists s',
    process_free (Some Scenario.handle) Scenario.running = Ret tt s'
    /\ heap s' !! Scenario.handle = None
    /\ process_free (Some Scenario.handle) s' = Fault
    /\ process_close (Some Scenario.handle) s' = Fault
    /\ process_open Demo.parent_side (Some Scenario.handle) s' = Fault.
Proof.
  destruct (use_after_free_is_undefined Demo.parent_side Scenario.running
              Scenario.handle Scenario.running_handle
              [9%positive] [11%positive] running_is_well_formed)
    as (s' & Hrun & Hl & Hfree & Hclose & Hopen & _).
  exists s'. repeat split; assumption.
Defined.

Lemma add_args_appends_each_witness :
  process_add_args 2 (Some Scenario.handle) (Some 5%positive) Scenario.ready
  = appends (process_add_arg (Some Scenario.handle)) [3%positive]
      Scenario.ready
  /\ exists s' arr,
       process_add_args 2 (Some Scenario.handle) (Some 5%positive)
         Scenario.ready = Ret tt s'
       /\ heap s' !! Scenario.handle
          = Some (Struct (set_field f_argv arr Scenario.ready_handle))
       /\ strings (heap s') arr
          = Some [Demo.cstr "hi"; Demo.cstr "LANG=C"]
       /\ strings (heap s') (Some 10%positive) = Some [Demo.cstr "LANG=C"]
       /\ strings (heap s') (Some 5%positive) = Some [Demo.cstr "LANG=C"]
       /\ trace s' = trace Scenario.ready.
Proof.
  destruct (add_args_appends_each 2 Scenario.ready Scenario.handle
              Scenario.ready_handle [9%positive] [Demo.cstr "hi"]
              (Some 5%positive) [3%positive] [Demo.cstr "LANG=C"]
              [Demo.cstr "LANG=C"])
    as (Heq & _ & Hrun).
  - reflexivity.
  - reflexivity.
  - reflexivity.
  - reflexivity.
  - reflexivity.
  - reflexivity.
  - right. split; discriminate.
  - simpl. lia.
  - split; [exact Heq|exact Hrun].
Defined.

Lemma add_envs_appends_each_witness :
  process_add_envs 2 (Some Scenario.handle) (Some 4%positive) Scenario.ready
  = appends (process_add_env (Some Scenario.handle)) [2%positive]
      Scenario.ready
  /\ exists s' arr,
       process_add_envs 2 (Some Scenario.handle) (Some 4%positive)
         Scenario.ready = Ret tt s'
       /\ heap s' !! Scenario.handle
          = Some (Struct (set_field f_envp arr Scenario.ready_handle))
       /\ strings (heap s') arr
          = Some [Demo.cstr "LANG=C"; Demo.cstr "hi"]
       /\ strings (heap s') (Some 8%positive) = Some [Demo.cstr "hi"]
       /\ strings (heap s') (Some 4%positive) = Some [Demo.cstr "hi"]
       /\ trace s' = trace Scenario.ready.
Proof.
  destruct (add_envs_appends_each 2 Scenario.ready Scenario.handle
              Scenario.ready_handle [11%positive] [Demo.cstr "LANG=C"]
              (Some 4%positive) [2%positive] [Demo.cstr "hi"]
              [Demo.cstr "hi"])
    as (Heq & _ & Hrun).
  - reflexivity.
  - reflexivity.
  - reflexivity.
  - reflexivity.
  - reflexivity.
  - reflexivity.
  - right. split; discriminate.
  - simpl. lia.
  - split; [exact Heq|exact Hrun].
Defined.

Lemma append_then_clear_restores_witness :
  (appends (process_add_arg (Some Scenario.handle)) [2%positive; 3%positive];;
   process_clear_argv (Some Scenario.handle)) Scenario.bare
  = Ret tt Scenario.bare
  /\ (appends (process_add_env (Some Scenario.handle))
        [2%positive; 3%positive];;
      process_clear_envp (Some Scenario.handle)) Scenario.bare
     = Ret tt Scenario.bare.
Proof.
  destruct (append_then_clear_restores Scenario.bare Scenario.handle
              (mkProcess (Some 7%positive) NULL NULL (-1) (-1) (-1) (-1))
              [2%positive; 3%positive]
              [Demo.cstr "hi"; Demo.cstr "LANG=C"])
    as [Ha He].
  - reflexivity.
  - repeat constructor.
  - split; [apply Ha|apply He]; reflexivity.
Defined.

Lemma append_keeps_descriptors_witness :
  exists s',
    process_add_arg (Some Scenario.handle) (Some 2%positive) Scenario.running
    = Ret tt s'
    /\ trace s' = trace Scenario.running
    /\ exists P',
         heap s' !! Scenario.handle = Some (Struct P')
         /\ in_ P' = 4 /\ out P' = 5 /\ err P' = 7 /\ pid P' = 4242.
Proof.
  eexists. split; [vm_compute; reflexivity|].
  apply (append_keeps_descriptors Scenario.running Scenario.handle
           Scenario.running_handle (Some Scenario.handle) (Some 2%positive)).
  - reflexivity.
  - left. vm_compute. reflexivity.
Defined.

Lemma create_then_free_restores_witness :
  (p <- process_create 2 (Some 1%positive) (Some 4%positive)
          (Some 5%positive);
   process_free p) Demo.start = Ret tt Demo.start.
Proof.
  apply (create_then_free_restores 2 Demo.start 1%positive (Some 4%positive)
           (Some 5%positive) (Demo.cstr "/bin/echo") [Demo.cstr "hi"]
           [Demo.cstr "LANG=C"]).
  - reflexivity.
  - reflexivity.
  - reflexivity.
  - simpl. lia.
  - simpl. lia.
Defined.

Lemma whole_life_restores_heap_witness :
  exists s',
    (p <- process_create 2 (Some 1%positive) (Some 4%positive)
            (Some 5%positive);
     r <- process_open Demo.parent_side p;
     process_close p;;
     process_free p) Demo.start = Ret tt s'
    /\ heap s' = heap Demo.start
    /\ trace s' = [sys_pipe (Some (3, 4)); sys_pipe (Some (5, 6));
                   sys_pipe (Some (7, 8)); sys_fork 4242;
                   sys_close 3; sys_close 6; sys_close 8;
                   sys_close 4; sys_close 5; sys_close 7;
                   sys_kill 4242 SIGKILL; sys_waitpid 4242 WNOHANG].
Proof.
  apply (whole_life_restores_heap Demo.parent_side 2 Demo.start 1%positive
           (Some 4%positive) (Some 5%positive) (Demo.cstr "/bin/echo")
           [Demo.cstr "hi"] [Demo.cstr "LANG=C"] (3, 4) (5, 6) (7, 8) 4242).
  - reflexivity.
  - reflexivity.
  - reflexivity.
  - simpl. lia.
  - simpl. lia.
  - repeat split; vm_compute; reflexivity.
  - lia.
Defined.

Lemma pairing_invariant_witness :
  exists s P,
    run_op (mkKernel (fun _ => Some (3, 4)) (fun _ => 4242) (fun _ => true))
      (Some Scenario.handle) op_open Scenario.ready = Ret tt s
    /\ heap s !! Scenario.handle = Some (Struct P)
    /\ linked P.
Proof.
  set (K := mkKernel (fun _ => Some (3, 4)) (fun _ => 4242) (fun _ => true)).
  set (s := match run_op K (Some Scenario.handle) op_open Scenario.ready with
            | Ret _ s => s
            | _ => Scenario.ready
            end).
  assert (Hop : run_op K (Some Scenario.handle) op_open Scenario.ready
                = Ret tt s) by (vm_compute; reflexivity).
  destruct (pairing_invariant K Scenario.handle s) as (P & Hl & HP).
  - split; [intros t; simpl; lia|].
    intros t r w [= <- <-]. split; lia.
  - eapply reach_step; [|exact Hop].
    eapply reach_create
      with (s0 := Demo.start) (fuel := 2%nat) (pa := Some 1%positive)
           (av := Some 4%positive) (ev := Some 5%positive).
    vm_compute. reflexivity.
  - exists s, P. split; [exact Hop|]. split; [exact Hl|exact HP].
Defined.

Lemma free_makes_no_call_witness :
  exists s',
    process_free (Some Scenario.handle) Scenario.running = Ret tt s'
    /\ trace s' = trace Scenario.running.
Proof.
  set (s' := match process_free (Some Scenario.handle) Scenario.running with
             | Ret _ s => s
             | _ => Scenario.running
             end).
  assert (Hrun : process_free (Some Scenario.handle) Scenario.running
                 = Ret tt s') by (vm_compute; reflexivity).
  exists s'. split; [exact Hrun|].
  exact (free_makes_no_call (Some Scenario.handle) Scenario.running s' Hrun).
Defined.

Lemma free_spec_witness :
  exists h',
    process_free (Some Scenario.handle) Scenario.running
    = Ret tt (mkState h' (trace Scenario.running))
    /\ (forall x, x ∈ [6; 7; 8; 9; 10; 11]%positive -> h' !! x = None)
    /\ (forall x, x ∉ [6; 7; 8; 9; 10; 11]%positive ->
                  h' !! x = heap Scenario.running !! x).
Proof.
  exact (free_spec (heap Scenario.running) (trace Scenario.running)
           Scenario.handle Scenario.running_handle
           [9%positive] [11%positive] running_is_well_formed).
Defined.

Lemma earlier_free_spec_witness :
  exists h',
    Earlier.process_free (Some Scenario.handle) Scenario.running
    = Ret tt (mkState h'
                (trace Scenario.running
                   ++ [sys_close 4] ++ [sys_close 5] ++ [sys_close 7]
                   ++ [sys_kill 4242 SIGKILL; sys_waitpid 4242 WNOHANG]))
    /\ (forall x, x ∈ [6; 7; 8; 9; 10; 11]%positive -> h' !! x = None)
    /\ (forall x, x ∉ [6; 7; 8; 9; 10; 11]%positive ->
                  h' !! x = heap Scenario.running !! x).
Proof.
  exact (earlier_free_spec (heap Scenario.running) (trace Scenario.running)
           Scenario.handle Scenario.running_handle
           [9%positive] [11%positive] running_is_well_formed).
Defined.

Lemma earlier_child_has_no_setsid_witness :
  exists s',
    Earlier.process_open Demo.child_side (Some Scenario.handle) Scenario.ready
    = Halt s'
    /\ exists ok,
         trace s' = [] ++ open_calls (3, 4) (5, 6) (7, 8) 0
                      ++ wiring_calls (3, 4) (5, 6) (7, 8)
                      ++ exec_calls Scenario.ready_handle ok
         /\ sys_setsid ∉ open_calls (3, 4) (5, 6) (7, 8) 0
                           ++ wiring_calls (3, 4) (5, 6) (7, 8)
                           ++ exec_calls Scenario.ready_handle ok.
Proof.
  apply (earlier_child_has_no_setsid Demo.child_side (heap Scenario.ready)
           [] Scenario.handle Scenario.ready_handle (3, 4) (5, 6) (7, 8)).
  - reflexivity.
  - reflexivity.
  - repeat split; vm_compute; reflexivity.
Defined.

